(** * Test coverage model of the workbench: counts, nodes, the prefix tree of
    files, the session and leaf caches, and the percentages shown in the bars;
    and, of the build, the download with retries, the digest of a file, the
    two sysroots and the loop around yarn.

    The development follows the two TypeScript sources of the coverage: the
    bars (percent, calculateDisplayedStat, displayPercent, renderBar and the
    widget AbstractTestCoverageBars) and the model (TestCoverage,
    AbstractFileCoverage, ComputedFileCoverage, FileCoverage); and the
    sources of the build: fetchUrl of build/lib/fetch, getSha,
    getVSCodeSysrootChecksum, getVSCodeSysroot and getChromiumSysroot of
    build/linux/debian/install-sysroot, and the last loop of
    build/azure-pipelines/linux/install.sh.

    The world outside.  What the network, the file system, the child
    processes and the streams do is given to a function as arguments: the
    answers of fetch by the number of the call, the content of a file, the
    status of a process, the events of a stream in their order.  The
    properties hold for all of them.

    Numbers.  The counts of an ICoveredCount are natural numbers (N).  A ratio
    of counts, and the argument of displayPercent, is the rational it denotes
    (Q): division, multiplication by 100 and the subtraction 1 - epsilon are
    taken exactly, and toFixed rounds the exact value as ECMAScript's
    Number.prototype.toFixed is specified to do.

    Mutation.  The tree is a value; a call that writes into a node returns
    the node as it leaves it, and the loop over the positions of the tree
    reads and writes each position by its key.

    Asynchrony.  An asynchronous method is split at its await into the part
    that runs when it is called and the part that runs when what it awaits
    has settled; the provider answers between the two.  The properties of
    the caches are stated over every order of calls, answers and returns. *)

From Stdlib Require Import ZArith NArith QArith Qround Qabs Qminmax.
From Stdlib Require Import String Ascii List Bool Lia DecimalString.
From stdpp Require Import base list.
Import ListNotations.

#[local] Open Scope list_scope.
#[local] Open Scope string_scope.

(** ** Data of testTypes *)

(** Modelled from the spec: ICoveredCount of testTypes, a pair of counts
    (integers that are not negative) for one coverage category. *)
Record ICoveredCount : Type := { covered : N; total : N }.

(** Modelled from the spec: emptyCounts of testTypes, the zero counts from
    which an aggregate starts. *)
Definition emptyCounts : ICoveredCount := {| covered := 0; total := 0 |}.

(** Modelled from the spec: sumCounts of testTypes, componentwise addition of
    the second count into the first.  The source updates its first argument
    in place; here the updated count is returned. *)
Definition sumCounts (target src : ICoveredCount) : ICoveredCount :=
  {| covered := covered target + covered src; total := total target + total src |}.

(** Modelled from the spec: CoverageDetails of testTypes, an entry of
    fine-grained detail.  Its contents are never inspected by the coverage
    model, which only stores and returns the entries. *)
Inductive CoverageDetails : Type := DetailEntry (id : N).

(** A thrown value. *)
Definition error : Type := string.

(** Modelled from the spec: URI of vs/base/common/uri, a resource identifier
    with the three components the coverage model reads; URI.from builds it
    from them. *)
Module URI.
Record t : Type := from { scheme : string; authority : string; path : string }.
End URI.

(** Modelled from the spec: IFileCoverage of testTypes, the record a provider
    reports for one file.  The field details is the one the constructor of
    FileCoverage reads. *)
Module IFileCoverage.
Record t : Type := {
  uri : URI.t;
  statement : ICoveredCount;
  branch : option ICoveredCount;
  function : option ICoveredCount;
  details : option (list CoverageDetails)
}.
End IFileCoverage.

(** The count as the number a division receives. *)
Definition num (n : N) : Q := inject_Z (Z.of_N n).

(** ** AbstractFileCoverage *)

Module AbstractFileCoverage.
Record t : Type := {
  uri : URI.t;
  statement : ICoveredCount;
  branch : option ICoveredCount;
  function : option ICoveredCount
}.

(** The constructor: each field as the source assigns it. *)
Definition new (coverage : IFileCoverage.t) : t :=
  {| uri := IFileCoverage.uri coverage;
     statement := IFileCoverage.statement coverage;
     branch := IFileCoverage.branch coverage;
     function := IFileCoverage.branch coverage |}.

(** The getter tpc, with its two running sums. *)
Definition tpc (this : t) : Q :=
  let numerator := covered (statement this) in
  let denominator := total (statement this) in
  let '(numerator, denominator) :=
    match branch this with
    | Some b => ((numerator + covered b)%N, (denominator + total b)%N)
    | None => (numerator, denominator)
    end in
  let '(numerator, denominator) :=
    match function this with
    | Some f => ((numerator + covered f)%N, (denominator + total f)%N)
    | None => (numerator, denominator)
    end in
  if (denominator =? 0)%N then 1%Q else (num numerator / num denominator)%Q.
End AbstractFileCoverage.

(** ** The coverage bars: percent, calculateDisplayedStat, displayPercent *)

(** The percent of one category. *)
Definition percent (cc : ICoveredCount) : Q :=
  if (total cc =? 0)%N then 1%Q else (num (covered cc) / num (total cc))%Q.

Definition precision : nat := 2.
Definition epsilon : Q := 10e-8.

(** Modelled from the spec: TestingDisplayedCoveragePercent of the testing
    configuration, the three recognised values of the setting. *)
Inductive TestingDisplayedCoveragePercent : Type :=
  | TotalCoverage
  | Statement
  | Minimum.

(** The switch is exhaustive over the three modes, so assertNever is not
    reached. *)
Definition calculateDisplayedStat
    (coverage : AbstractFileCoverage.t) (method : TestingDisplayedCoveragePercent) : Q :=
  match method with
  | Statement => percent (AbstractFileCoverage.statement coverage)
  | Minimum =>
      let value := percent (AbstractFileCoverage.statement coverage) in
      let value :=
        match AbstractFileCoverage.branch coverage with
        | Some b => Qmin value (percent b)
        | None => value
        end in
      let value :=
        match AbstractFileCoverage.function coverage with
        | Some f => Qmin value (percent f)
        | None => value
        end in
      value
  | TotalCoverage => AbstractFileCoverage.tpc coverage
  end.

(** The comparison x < y of two numbers. *)
Definition Qltb (x y : Q) : bool := negb (Qle_bool y x).

(** The decimal digits of a natural number, "0" for zero. *)
Definition digits (n : N) : string := NilZero.string_of_uint (N.to_uint n).

(** The string of [k] zeros. *)
Fixpoint zeros (k : nat) : string :=
  match k with
  | O => ""
  | S k' => String "0" (zeros k')
  end.

(** The integer n for which n / 10^f is nearest to x, the larger of two such;
    x is not negative. *)
Definition nearest (x : Q) (f : nat) : N :=
  Z.to_N (Qfloor (x * 10 ^ Z.of_nat f + (1 # 2))%Q).

(** The digits [m] of that integer with the point before the last [f]
    places, padded with zeros in front to f + 1 places. *)
Definition placePoint (m : string) (f : nat) : string :=
  if (f =? 0)%nat then m
  else
    let k := String.length m in
    let m := if (k <=? f)%nat then zeros (f + 1 - k) ++ m else m in
    let k := String.length m in
    substring 0 (k - f) m ++ "." ++ substring (k - f) f m.

Section Display.

(** Number::toString of the host.  toFixed falls back on it for magnitudes
    from 10^21 upwards, where the host prints an exponent; the percentages
    of the bars stay far below. *)
Variable Number_toString : Q -> string.

(** Number.prototype.toFixed, step by step as ECMAScript gives it: the
    sign, the fallback for large magnitudes, the nearest integer number of
    10^-f, its digits and the point. *)
Definition toFixed (x : Q) (f : nat) : string :=
  let s := if Qltb x 0%Q then "-" else "" in
  let x := Qabs x in
  if Qle_bool (10 ^ 21)%Q x then s ++ Number_toString x
  else s ++ placePoint (digits (nearest x f)) f.

Definition displayPercent (value : Q) : string :=
  let display := toFixed (value * 100)%Q precision in
  (* avoid showing 100% coverage if it just rounds up: *)
  if Qltb value (1 - epsilon)%Q && (display =? "100")%string
  then "99.99%"
  else display ++ "%".

End Display.

(** ** The prefix tree *)

(** Modelled from the spec: WellDefinedPrefixTree of vs/base/common/prefixTree,
    which the coverage model imports and the sources do not include.  A
    position holds at most one value and its children by segment, in the
    order they were added; insert adds the value at the given key, creating
    the positions on the way; find returns the position at exactly the given
    key; nodes lists every position, parents before children.  A position is
    named by its key, the live node is read through [find] and written back
    through [update]. *)
Module WellDefinedPrefixTree.
Section Tree.
Context {V : Type}.

#[local] Unset Elimination Schemes.
Inductive Node : Type :=
  mkNode (value : option V) (children : list (string * Node)).
#[local] Set Elimination Schemes.

Definition value (node : Node) : option V :=
  match node with mkNode v _ => v end.

Definition children (node : Node) : list (string * Node) :=
  match node with mkNode _ cs => cs end.

Definition empty : Node := mkNode None [].

Fixpoint get (part : string) (cs : list (string * Node)) : option Node :=
  match cs with
  | [] => None
  | (p, c) :: cs' => if (p =? part)%string then Some c else get part cs'
  end.

(** Replaces the child at [part] by [f] of it; a new child is [f] of the
    empty position, added last. *)
Fixpoint alter_child (f : Node -> Node) (part : string)
    (cs : list (string * Node)) : list (string * Node) :=
  match cs with
  | [] => [(part, f empty)]
  | (p, c) :: cs' =>
      if (p =? part)%string then (p, f c) :: cs'
      else (p, c) :: alter_child f part cs'
  end.

Fixpoint insert (key : list string) (v : V) (node : Node) : Node :=
  match key with
  | [] => mkNode (Some v) (children node)
  | part :: key' =>
      mkNode (value node) (alter_child (insert key' v) part (children node))
  end.

Fixpoint find (key : list string) (node : Node) : option Node :=
  match key with
  | [] => Some node
  | part :: key' =>
      match get part (children node) with
      | Some next => find key' next
      | None => None
      end
  end.

(** The keys below a list of children, given the keys of each child. *)
Fixpoint below (keys : Node -> list (list string)) (cs : list (string * Node))
    : list (list string) :=
  match cs with
  | [] => []
  | (p, c) :: cs' => (map (cons p) (keys c) ++ below keys cs')%list
  end.

Fixpoint nodes (node : Node) : list (list string) :=
  match node with
  | mkNode _ cs => [] :: below nodes cs
  end.

(** Replaces the child at [part], when there is one, by [f] of it. *)
Fixpoint alter_existing (f : Node -> Node) (part : string)
    (cs : list (string * Node)) : list (string * Node) :=
  match cs with
  | [] => []
  | (p, c) :: cs' =>
      if (p =? part)%string then (p, f c) :: cs'
      else (p, c) :: alter_existing f part cs'
  end.

(** Writes [f] of the node at [key] back in its place; no position is
    created. *)
Fixpoint update (key : list string) (f : Node -> Node) (node : Node) : Node :=
  match key with
  | [] => f node
  | part :: key' =>
      mkNode (value node) (alter_existing (update key' f) part (children node))
  end.
End Tree.
Arguments Node : clear implicits.
End WellDefinedPrefixTree.

Import WellDefinedPrefixTree.

(** ** FileCoverage and ComputedFileCoverage *)

(** What the field _details of a leaf holds once it is set: the entries
    themselves, or the promise of them, named by its place in the store of
    promises. *)
Inductive DetailsSlot : Type :=
  | Entries (entries : list CoverageDetails)
  | Promised (promise : nat).

Module FileCoverage.
Record t : Type := {
  base : AbstractFileCoverage.t;
  index : nat;
  _details : option DetailsSlot
}.

(** The constructor; the accessor it also stores is the one provider of the
    session. *)
Definition new (coverage : IFileCoverage.t) (index : nat) : t :=
  {| base := AbstractFileCoverage.new coverage;
     index := index;
     _details := option_map Entries (IFileCoverage.details coverage) |}.
End FileCoverage.

(** ComputedFileCoverage adds nothing to its base class.  A value of the tree
    is one of the two classes. *)
Inductive CoverageValue : Type :=
  | File (leaf : FileCoverage.t)
  | Computed (aggregate : AbstractFileCoverage.t).

(** A value read as the base class. *)
Definition abstract (v : CoverageValue) : AbstractFileCoverage.t :=
  match v with
  | File leaf => FileCoverage.base leaf
  | Computed aggregate => aggregate
  end.

Abbreviation TestCoverageFileNode := (Node CoverageValue).

(** ** TestCoverage: paths of identifiers and the construction of the tree *)

(** String.prototype.split with a separator of one character. *)
Fixpoint split (sep : ascii) (s : string) : list string :=
  match s with
  | EmptyString => [EmptyString]
  | String c rest =>
      if Ascii.eqb c sep then EmptyString :: split sep rest
      else
        match split sep rest with
        | piece :: pieces => String c piece :: pieces
        | [] => [String c EmptyString]
        end
  end.

Definition treePathForUri (uri : URI.t) : list string :=
  URI.scheme uri :: URI.authority uri :: split "/" (URI.path uri).

(** An element the path does not have is read as the empty string; the
    defaults and the validation of URI.from are outside the sources. *)
Definition treePathToUri (path : list string) : URI.t :=
  URI.from (nth 0 path "") (nth 1 path "") (String.concat "/" (skipn 2 path)).

(** 1. Initial iteration.  The loop counter [i] runs along the list; the
    leaf is built with the index the source passes. *)
Fixpoint insertFiles (files : list IFileCoverage.t) (i : nat)
    (tree : TestCoverageFileNode) : TestCoverageFileNode :=
  match files with
  | [] => tree
  | file :: files' =>
      insertFiles files' (S i)
        (insert (treePathForUri (IFileCoverage.uri file))
                (File (FileCoverage.new file 0)) tree)
  end.

(** One turn of the loop over the children: the counts of the child's value
    [v] added into the record under construction. *)
Definition addChild (fileCoverage : IFileCoverage.t) (v : AbstractFileCoverage.t)
    : IFileCoverage.t :=
  {| IFileCoverage.uri := IFileCoverage.uri fileCoverage;
     IFileCoverage.statement :=
       sumCounts (IFileCoverage.statement fileCoverage) (AbstractFileCoverage.statement v);
     IFileCoverage.branch :=
       match AbstractFileCoverage.branch v with
       | Some b =>
           Some (sumCounts (default emptyCounts (IFileCoverage.branch fileCoverage)) b)
       | None => IFileCoverage.branch fileCoverage
       end;
     IFileCoverage.function :=
       match AbstractFileCoverage.function v with
       | Some f =>
           Some (sumCounts (default emptyCounts (IFileCoverage.function fileCoverage)) f)
       | None => IFileCoverage.function fileCoverage
       end;
     IFileCoverage.details := IFileCoverage.details fileCoverage |}.

(** The loop over the children of a node: [visit] is the recursive call on a
    child under its prefix; the record under construction and the children
    as the calls leave them are returned. *)
Fixpoint eachChild (visit : string -> TestCoverageFileNode -> CoverageValue * TestCoverageFileNode)
    (cs : list (string * TestCoverageFileNode)) (fileCoverage : IFileCoverage.t)
    : IFileCoverage.t * list (string * TestCoverageFileNode) :=
  match cs with
  | [] => (fileCoverage, [])
  | (prefix, child) :: cs' =>
      let '(v, child) := visit prefix child in
      let '(fileCoverage, cs') := eachChild visit cs' (addChild fileCoverage (abstract v)) in
      (fileCoverage, (prefix, child) :: cs')
  end.

(** 2. Depth-first iteration to create computed nodes.  The call returns the
    value of the node together with the node as the call leaves it. *)
Fixpoint calculateComputed (path : list string) (node : TestCoverageFileNode)
    : CoverageValue * TestCoverageFileNode :=
  match node with
  | mkNode (Some v) _ => (v, node)
  | mkNode None cs =>
      let fileCoverage :=
        {| IFileCoverage.uri := treePathToUri path;
           IFileCoverage.statement := emptyCounts;
           IFileCoverage.branch := None;
           IFileCoverage.function := None;
           IFileCoverage.details := None |} in
      let '(fileCoverage, cs) :=
        eachChild (fun prefix child => calculateComputed (path ++ [prefix]) child)
                  cs fileCoverage in
      let v := Computed (AbstractFileCoverage.new fileCoverage) in
      (v, mkNode (Some v) cs)
  end.

(** createFileCoverage once the provider has answered with [files]. *)
Definition createFileCoverage (files : list IFileCoverage.t) : TestCoverageFileNode :=
  let tree := insertFiles files 0 empty in
  fold_left (fun tree key => update key (fun node => snd (calculateComputed [] node)) tree)
            (nodes tree) tree.

(** ** Promises and the scheduling of asynchronous calls

    An asynchronous method runs in two parts: from its call to its await, and
    from the settlement of what it awaits to its return.  The parts of
    different calls interleave, one at a time.  A promise is named by its
    place in the store of the promises made so far. *)

Inductive Settled (A : Type) : Type :=
  | Pending
  | Fulfilled (a : A)
  | Rejected (e : error).
Arguments Pending {A}.
Arguments Fulfilled {A} a.
Arguments Rejected {A} e.

(** The answer of the provider to a request: a value or a failure (a
    cancellation is a failure). *)
Definition Answered (A : Type) : Type := (A + error)%type.

(** What a call returns to its caller: a value, or the error it throws. *)
Definition Outcome (A : Type) : Type := (A + error)%type.

Section Scheduler.
Context {World Awaited Result Answer : Type}.

(** The first part of a call: the state it leaves and what it awaits. *)
Variable enter : World -> Awaited * World.
(** The second part, once what is awaited has settled: [None] while it has
    not. *)
Variable resume : Awaited -> World -> option (Outcome Result * World).
(** The provider answers the request behind a promise. *)
Variable settle : nat -> Answered Answer -> World -> World.

(** What happens next: a call is made and runs to its await, the provider
    answers the request behind a promise, or a suspended call resumes. *)
Inductive Event : Type :=
  | Call
  | Answers (promise : nat) (answer : Answered Answer)
  | Resumes (call : nat).

(** A call, by the order in which the calls were made: suspended at its
    await, or returned. *)
Inductive CallState : Type :=
  | Suspended (awaited : Awaited)
  | Returned (awaited : Awaited) (outcome : Outcome Result).

(** The state of the object and of the calls made on it. *)
Record Run : Type := { world : World; calls : list CallState }.

(** One event.  A call that is asked to resume while what it awaits is
    pending, or that has returned, stays as it is. *)
Definition step (r : Run) (ev : Event) : Run :=
  match ev with
  | Call =>
      let '(awaited, w) := enter (world r) in
      {| world := w; calls := calls r ++ [Suspended awaited] |}
  | Answers promise answer =>
      {| world := settle promise answer (world r); calls := calls r |}
  | Resumes call =>
      match calls r !! call with
      | Some (Suspended awaited) =>
          match resume awaited (world r) with
          | Some (outcome, w) =>
              {| world := w; calls := <[call := Returned awaited outcome]> (calls r) |}
          | None => r
          end
      | _ => r
      end
  end.

(** The events of a trace, in order, from the state [w] with no call made. *)
Definition run (w : World) (trace : list Event) : Run :=
  fold_left step trace {| world := w; calls := [] |}.
End Scheduler.

Arguments Event : clear implicits.
Arguments CallState : clear implicits.
Arguments Run : clear implicits.

(** An answer of the provider arrives at a pending promise; a promise that
    has settled stays as it is. *)
Definition settlePromise {A : Type} (promise : nat) (outcome : Settled A)
    (promises : list (Settled A)) : list (Settled A) :=
  match promises !! promise with
  | Some Pending => <[promise := outcome]> promises
  | _ => promises
  end.

(** ** TestCoverage: the session *)

Module TestCoverage.
(** The field fileCoverage, the promises createFileCoverage has returned,
    and the number of calls of accessor.provideFileCoverage so far. *)
Record t : Type := {
  fileCoverage : option nat;
  promises : list (Settled TestCoverageFileNode);
  provided : nat
}.

(** new TestCoverage(accessor) *)
Definition new : t := {| fileCoverage := None; promises := []; provided := 0 |}.

(** createFileCoverage up to its await: the provider is called and the
    promise of the tree is returned. *)
Definition createFileCoverage_enter (this : t) : nat * t :=
  (length (promises this),
   {| fileCoverage := fileCoverage this;
      promises := promises this ++ [Pending];
      provided := S (provided this) |}).

(** createFileCoverage from the answer of the provider on: the tree is
    built from the files, a failure of the provider is the failure of the
    promise. *)
Definition createFileCoverage_settle (promise : nat)
    (answer : Answered (list IFileCoverage.t)) (this : t) : t :=
  {| fileCoverage := fileCoverage this;
     promises :=
       settlePromise promise
         match answer with
         | inl files => Fulfilled (createFileCoverage files)
         | inr e => Rejected e
         end (promises this);
     provided := provided this |}.

(** getAllFiles up to its await: [this.fileCoverage ??= ...]. *)
Definition getAllFiles_enter (this : t) : nat * t :=
  match fileCoverage this with
  | Some promise => (promise, this)
  | None =>
      let '(promise, this) := createFileCoverage_enter this in
      (promise,
       {| fileCoverage := Some promise;
          promises := promises this;
          provided := provided this |})
  end.

(** getAllFiles from its await on: the tree is returned, or the field is
    cleared and the error thrown again. *)
Definition getAllFiles_resume (promise : nat) (this : t)
    : option (Outcome TestCoverageFileNode * t) :=
  match promises this !! promise with
  | Some (Fulfilled tree) => Some (inl tree, this)
  | Some (Rejected e) =>
      Some (inr e,
            {| fileCoverage := None;
               promises := promises this;
               provided := provided this |})
  | _ => None
  end.

(** getUri awaits getAllFiles and looks the identifier up. *)
Definition getUri_enter (this : t) : nat * t := getAllFiles_enter this.

(** getUri from its await on: the lookup in the tree, or the error. *)
Definition getUri_resume (uri : URI.t) (promise : nat) (this : t)
    : option (Outcome (option TestCoverageFileNode) * t) :=
  match getAllFiles_resume promise this with
  | Some (inl files, this) => Some (inl (find (split "/" (URI.path uri)) files), this)
  | Some (inr e, this) => Some (inr e, this)
  | None => None
  end.
End TestCoverage.

(** ** FileCoverage.details: the cache of a leaf *)

Module Details.
(** A leaf, the promises accessor.resolveFileCoverage has returned for it,
    and the fileIndex of each of these calls, in order. *)
Record t : Type := {
  leaf : FileCoverage.t;
  promises : list (Settled (list CoverageDetails));
  resolved : list nat
}.

(** A leaf as its constructor leaves it, before any call of details. *)
Definition of_leaf (leaf : FileCoverage.t) : t :=
  {| leaf := leaf; promises := []; resolved := [] |}.

(** The assignment to the field _details. *)
Definition set_details (d : option DetailsSlot) (leaf : FileCoverage.t) : FileCoverage.t :=
  {| FileCoverage.base := FileCoverage.base leaf;
     FileCoverage.index := FileCoverage.index leaf;
     FileCoverage._details := d |}.

(** details up to its await: [this._details ??= ...]; what is awaited is
    the content of the field. *)
Definition details_enter (this : t) : DetailsSlot * t :=
  match FileCoverage._details (leaf this) with
  | Some slot => (slot, this)
  | None =>
      let promise := length (promises this) in
      (Promised promise,
       {| leaf := set_details (Some (Promised promise)) (leaf this);
          promises := promises this ++ [Pending];
          resolved := resolved this ++ [FileCoverage.index (leaf this)] |})
  end.

(** details from its await on.  Awaiting entries gives the entries. *)
Definition details_resume (awaited : DetailsSlot) (this : t)
    : option (Outcome (list CoverageDetails) * t) :=
  match awaited with
  | Entries entries => Some (inl entries, this)
  | Promised promise =>
      match promises this !! promise with
      | Some (Fulfilled entries) => Some (inl entries, this)
      | Some (Rejected e) =>
          Some (inr e,
                {| leaf := set_details None (leaf this);
                   promises := promises this;
                   resolved := resolved this |})
      | _ => None
      end
  end.

(** The resolver answers the request behind a promise. *)
Definition resolveFileCoverage_settle (promise : nat)
    (answer : Answered (list CoverageDetails)) (this : t) : t :=
  {| leaf := leaf this;
     promises :=
       settlePromise promise
         match answer with
         | inl entries => Fulfilled entries
         | inr e => Rejected e
         end (promises this);
     resolved := resolved this |}.
End Details.


(** The runs of a leaf under calls of details. *)
Definition runDetails (leaf : FileCoverage.t)
    : list (Event (list CoverageDetails)) -> Run Details.t DetailsSlot (list CoverageDetails) :=
  run Details.details_enter Details.details_resume
      Details.resolveFileCoverage_settle (Details.of_leaf leaf).

(** ** The coverage bars: renderBar, the hover texts and setCoverageInfo *)

(** The colours of the bars, by their identifiers in the colour registry. *)
Inductive ChartColor : Type :=
  | chartsGreen
  | chartsYellow
  | chartsRed.

(** A threshold of the table: a number, or -Infinity. *)
Inductive Threshold : Type :=
  | AtLeast (threshold : Q)
  | NegInfinity.

Definition colorThresholds : list (ChartColor * Threshold) :=
  [(chartsGreen, AtLeast 0.9); (chartsYellow, AtLeast 0.8); (chartsRed, NegInfinity)].

(** A number as renderBar may be given one: a rational, one of the two
    infinities, or NaN. *)
Inductive JSNumber : Type :=
  | Finite (q : Q)
  | PlusInfinity
  | MinusInfinity
  | NaN.

(** pct * 100 *)
Definition times100 (pct : JSNumber) : JSNumber :=
  match pct with
  | Finite q => Finite (q * 100)%Q
  | _ => pct
  end.

(** The comparison pct >= t.threshold, which is false of NaN. *)
Definition reaches (pct : JSNumber) (t : Threshold) : bool :=
  match pct, t with
  | NaN, _ => false
  | PlusInfinity, _ => true
  | MinusInfinity, AtLeast _ => false
  | MinusInfinity, NegInfinity => true
  | Finite q, AtLeast threshold => Qle_bool threshold q
  | Finite _, NegInfinity => true
  end.

(** The inline style of a bar: display, the custom property --width and the
    colour, each unset until renderBar sets it.  The width is kept as the
    number whose rendering, followed by the percent sign, is the value of the
    property; the colour as the identifier inside var(--...). *)
Record BarStyle : Type := {
  display : option string;
  width : option JSNumber;
  color : option ChartColor
}.

Definition unstyled : BarStyle := {| display := None; width := None; color := None |}.

(** renderBar: the style of the bar as the call leaves it, and whether the
    call returned.  Reading the colour of a threshold that find did not find
    is a TypeError. *)
Definition renderBar (bar : BarStyle) (pct : option JSNumber) : Outcome unit * BarStyle :=
  match pct with
  | None => (inl tt, {| display := Some "none"; width := width bar; color := color bar |})
  | Some pct =>
      let bar :=
        {| display := Some "block"; width := Some (times100 pct); color := color bar |} in
      match List.find (fun t => reaches pct (snd t)) colorThresholds with
      | Some t =>
          (inl tt, {| display := display bar; width := width bar; color := Some (fst t) |})
      | None => (inr "TypeError", bar)
      end
  end.

(** c.function && percent(c.function): the percent of a category that is
    present, as a number. *)
Definition percentOf (cc : option ICoveredCount) : option JSNumber :=
  option_map (fun cc => Finite (percent cc)) cc.

(** The content of a hover: a string or a MarkdownString. *)
Inductive HoverContent : Type :=
  | Text (value : string)
  | Markdown (value : string).

(** The elements of the widget: the compact form with the overall text and
    one bar, or the full form with the overall text and three bars. *)
Inductive Elements : Type :=
  | CompactBars (overall : string) (tpcBar : BarStyle)
  | FullBars (overall : string) (statement method branch : BarStyle).

(** The bars a mouse can enter. *)
Inductive Target : Type :=
  | onTpcBar
  | onStatement
  | onMethod
  | onBranch.

(** What the store of the visible state holds: the registration of the
    listener of the configuration made by a call of setCoverageInfo, with the
    coverage its render shows; the removal of the root from the container; a
    hover. *)
Inductive Disposable : Type :=
  | ConfigurationListener (coverage : AbstractFileCoverage.t)
  | RemoveRoot
  | Hover (content : HoverContent).

(** Two line feeds, the separator of the paragraphs of the overall hover. *)
Definition paragraphBreak : string :=
  String (ascii_of_nat 10) (String (ascii_of_nat 10) "").

Module AbstractTestCoverageBars.
(** The widget: options.compact, the field _coverage, the lazy elements (none
    until first read), the store of the visible state, the number of times
    the root was appended to the container, the number of times the change
    event fired, and the contents hoverService.showHover was called with. *)
Record t : Type := {
  compact : bool;
  _coverage : option AbstractFileCoverage.t;
  el : option Elements;
  visibleStore : list Disposable;
  appended : nat;
  fired : nat;
  shown : list HoverContent
}.

Definition new (compact : bool) : t :=
  {| compact := compact; _coverage := None; el := None; visibleStore := [];
     appended := 0; fired := 0; shown := [] |}.

Definition set_coverage (c : option AbstractFileCoverage.t) (this : t) : t :=
  {| compact := compact this; _coverage := c; el := el this;
     visibleStore := visibleStore this; appended := appended this;
     fired := fired this; shown := shown this |}.

Definition set_el (e : Elements) (this : t) : t :=
  {| compact := compact this; _coverage := _coverage this; el := Some e;
     visibleStore := visibleStore this; appended := appended this;
     fired := fired this; shown := shown this |}.

(** ds.add *)
Definition store (d : Disposable) (this : t) : t :=
  {| compact := compact this; _coverage := _coverage this; el := el this;
     visibleStore := visibleStore this ++ [d]; appended := appended this;
     fired := fired this; shown := shown this |}.

(** container.appendChild(root) *)
Definition appendRoot (this : t) : t :=
  {| compact := compact this; _coverage := _coverage this; el := el this;
     visibleStore := visibleStore this; appended := S (appended this);
     fired := fired this; shown := shown this |}.

(** changeEmitter.fire() *)
Definition fire (this : t) : t :=
  {| compact := compact this; _coverage := _coverage this; el := el this;
     visibleStore := visibleStore this; appended := appended this;
     fired := S (fired this); shown := shown this |}.

(** hoverService.showHover *)
Definition showHover (content : HoverContent) (this : t) : t :=
  {| compact := compact this; _coverage := _coverage this; el := el this;
     visibleStore := visibleStore this; appended := appended this;
     fired := fired this; shown := shown this ++ [content] |}.

(** this.el.value: the elements, built on the first read. *)
Definition elValue (this : t) : Elements * t :=
  match el this with
  | Some e => (e, this)
  | None =>
      let e := if compact this then CompactBars "" unstyled
               else FullBars "" unstyled unstyled unstyled in
      (e, set_el e this)
  end.
End AbstractTestCoverageBars.

Section Bars.

(** Number::toString of the host, as for displayPercent, and localize of
    vs/nls with its key, its message and its arguments. *)
Variable Number_toString : Q -> string.
Variable localize : string -> string -> list string -> string.

Definition stmtCoverageText (coverage : AbstractFileCoverage.t) : string :=
  localize "statementCoverage" "{} statement coverage"
    [displayPercent Number_toString (percent (AbstractFileCoverage.statement coverage))].

Definition fnCoverageText (coverage : AbstractFileCoverage.t) : option string :=
  option_map
    (fun f => localize "functionCoverage" "{} function coverage"
                [displayPercent Number_toString (percent f)])
    (AbstractFileCoverage.function coverage).

Definition branchCoverageText (coverage : AbstractFileCoverage.t) : option string :=
  option_map
    (fun b => localize "branchCoverage" "{} branch coverage"
                [displayPercent Number_toString (percent b)])
    (AbstractFileCoverage.branch coverage).

(** The three texts that are defined, joined by empty lines. *)
Definition getOverallHoverText (coverage : AbstractFileCoverage.t) : string :=
  String.concat paragraphBreak
    (stmtCoverageText coverage
       :: option_list (fnCoverageText coverage)
       ++ option_list (branchCoverageText coverage))%list.

(** The factory attachHover was given for a bar when the elements were
    built: none for a bar the elements do not have. *)
Definition hoverFactory (e : Elements) (target : Target)
    : option (AbstractFileCoverage.t -> option HoverContent) :=
  match e, target with
  | CompactBars _ _, onTpcBar =>
      Some (fun coverage => Some (Markdown (getOverallHoverText coverage)))
  | FullBars _ _ _ _, onStatement =>
      Some (fun coverage => Some (Text (stmtCoverageText coverage)))
  | FullBars _ _ _ _, onMethod =>
      Some (fun coverage => option_map Text (fnCoverageText coverage))
  | FullBars _ _ _ _, onBranch =>
      Some (fun coverage => option_map Text (branchCoverageText coverage))
  | _, _ => None
  end.

(** The handler onmouseenter of a bar; [hover] tells whether showHover
    returns a hover.  An empty string is no content. *)
Definition onmouseenter (target : Target) (hover : bool)
    (this : AbstractTestCoverageBars.t) : AbstractTestCoverageBars.t :=
  match AbstractTestCoverageBars.el this with
  | None => this
  | Some e =>
      match hoverFactory e target, AbstractTestCoverageBars._coverage this with
      | Some factory, Some coverage =>
          match factory coverage with
          | None | Some (Text "") => this
          | Some content =>
              let this := AbstractTestCoverageBars.showHover content this in
              if hover then AbstractTestCoverageBars.store (Hover content) this else this
          end
      | _, _ => this
      end
  end.

(** The closure render of setCoverageInfo, for the coverage of its call and
    the metric the configuration holds when it runs. *)
Definition render (coverage : option AbstractFileCoverage.t)
    (method : TestingDisplayedCoveragePercent) (this : AbstractTestCoverageBars.t)
    : Outcome unit * AbstractTestCoverageBars.t :=
  let '(e, this) := AbstractTestCoverageBars.elValue this in
  match coverage with
  | None => (inr "TypeError", this)
  | Some c =>
      let overallStat := calculateDisplayedStat c method in
      let overall := displayPercent Number_toString overallStat in
      match e with
      | CompactBars _ tpcBar =>
          let '(o, tpcBar) := renderBar tpcBar (Some (Finite overallStat)) in
          (o, AbstractTestCoverageBars.set_el (CompactBars overall tpcBar) this)
      | FullBars _ statement method branch =>
          let '(o, statement) :=
            renderBar statement (Some (Finite (percent (AbstractFileCoverage.statement c)))) in
          match o with
          | inr e =>
              (inr e, AbstractTestCoverageBars.set_el (FullBars overall statement method branch) this)
          | inl _ =>
              let '(o, statement) :=
                renderBar statement (percentOf (AbstractFileCoverage.function c)) in
              match o with
              | inr e =>
                  (inr e, AbstractTestCoverageBars.set_el (FullBars overall statement method branch) this)
              | inl _ =>
                  let '(o, statement) :=
                    renderBar statement (percentOf (AbstractFileCoverage.branch c)) in
                  (o, AbstractTestCoverageBars.set_el (FullBars overall statement method branch) this)
              end
          end
      end
  end.

Definition setCoverageInfo (coverage : option AbstractFileCoverage.t)
    (method : TestingDisplayedCoveragePercent) (this : AbstractTestCoverageBars.t)
    : Outcome unit * AbstractTestCoverageBars.t :=
  match coverage, AbstractTestCoverageBars._coverage this with
  | None, None =>
      (* the inner test of this._coverage cannot hold here *)
      (inl tt, this)
  | _, _ =>
      match render coverage method this with
      | (inr e, this) => (inr e, this)
      | (inl _, this) =>
          let this :=
            match coverage with
            | Some c => AbstractTestCoverageBars.store (ConfigurationListener c) this
            | None => this
            end in
          let this :=
            match AbstractTestCoverageBars._coverage this with
            | None =>
                AbstractTestCoverageBars.appendRoot
                  (AbstractTestCoverageBars.store RemoveRoot
                     (AbstractTestCoverageBars.set_coverage coverage this))
            | Some _ => this
            end in
          (inl tt, AbstractTestCoverageBars.fire this)
      end
  end.

(** The listener a call of setCoverageInfo registers with the configuration
    service, for the coverage of that call: a change that affects the
    setting renders that coverage and fires the change event. *)
Definition configurationListener (coverage : AbstractFileCoverage.t) (affects : bool)
    (method : TestingDisplayedCoveragePercent) (this : AbstractTestCoverageBars.t)
    : Outcome unit * AbstractTestCoverageBars.t :=
  if affects then
    match render (Some coverage) method this with
    | (inr e, this) => (inr e, this)
    | (inl _, this) => (inl tt, AbstractTestCoverageBars.fire this)
    end
  else (inl tt, this).

End Bars.

(** * build/lib/fetch: fetchUrl *)

(** ** Values of JavaScript *)

(** a ?? b: [b] when [a] is null or undefined, which None stands for. *)
Definition coalesce {A : Type} (a : option A) (b : A) : A :=
  match a with
  | Some a => a
  | None => b
  end.

(** The strings that are true in a condition: those that are defined and
    not empty. *)
Definition truthy (s : option string) : option string :=
  match s with
  | Some EmptyString | None => None
  | Some s => Some s
  end.

(** !!b for an optional boolean and !!s for an optional string. *)
Definition toBoolean (b : option bool) : bool := coalesce b false.

Definition nonEmpty (s : option string) : bool :=
  match truthy s with
  | Some _ => true
  | None => false
  end.

(** ** Options, responses and files *)

(** The options fetchUrl reads.  nodeFetchOptions is handed to fetch with
    the signal of the abort controller and is not read otherwise: what it
    does is part of what fetch answers. *)
Module IFetchOptions.
Record t : Type := {
  base : option string;
  verbose : option bool;
  path : option string;
  checksumSha256 : option string
}.
End IFetchOptions.

(** The variables of the environment fetchUrl names. *)
Record Environment : Type := {
  CI : option string;
  BUILD_ARTIFACTSTAGINGDIRECTORY : option string
}.

(** A response as fetchUrl reads it: ok, status, and what arrayBuffer()
    settles with. *)
Record Response : Type := {
  ok : bool;
  status : Z;
  arrayBuffer : Answered (list Byte.byte)
}.

(** What fetchUrl throws: what fetch or arrayBuffer() rejected with (the
    abort after 30 seconds is such a rejection), or one of the two errors
    the function makes itself. *)
Inductive FetchError : Type :=
  | Raised (e : error)
  | ChecksumMismatch (url expected actual : string)
  | RequestFailed (url : string) (status : Z).

(** The arguments fetchUrl gives to the constructor of the file it returns.
    What the constructor makes of cwd, base and path (vinyl normalises
    them) is outside the sources; the contents are kept as given. *)
Module VinylFile.
Record t : Type := {
  cwd : string;
  base : option string;
  path : string;
  contents : list Byte.byte
}.
End VinylFile.

(** The lines fetchUrl logs, without the times and the colours: the start
    with the number of the retry when retries is not 10, the status of the
    response, the two lines on the checksum, the length of the body, and the
    failure of an attempt. *)
Inductive LogLine : Type :=
  | StartFetching (url : string) (retry : option Z)
  | FetchCompleted (status : Z)
  | ChecksumsMatch (url : string)
  | SkippingChecksum (url : string)
  | FetchedBytes (byteLength : nat)
  | FetchingFailed (url : string) (e : FetchError).

(** What a run leaves behind: the number of calls of fetch so far, the
    delays of the timers awaited between attempts, and the lines logged. *)
Record Process : Type := {
  fetched : nat;
  timers : list Z;
  logged : list LogLine
}.

Definition log (verbose : bool) (line : LogLine) (w : Process) : Process :=
  if verbose then
    {| fetched := fetched w; timers := timers w; logged := logged w ++ [line] |}
  else w.

(** await new Promise(resolve => setTimeout(resolve, retryDelay)) *)
Definition sleep (retryDelay : Z) (w : Process) : Process :=
  {| fetched := fetched w; timers := timers w ++ [retryDelay]; logged := logged w |}.

Section FetchUrl.

(** The hexadecimal SHA-256 digest of crypto, dirname of path, and the
    network: what the n-th call of fetch settles with. *)
Variable sha256hex : list Byte.byte -> string.
Variable dirname : string -> string.
Variable fetch : nat -> Answered Response.
Variable env : Environment.

(** The constant verbose of fetchUrl: !!options.verbose ?? (...).  The left
    operand is a boolean. *)
Definition verbose (options : IFetchOptions.t) : bool :=
  coalesce (Some (toBoolean (IFetchOptions.verbose options)))
           (nonEmpty (CI env) || nonEmpty (BUILD_ARTIFACTSTAGINGDIRECTORY env)).

(** The outer try block of fetchUrl: one request. *)
Definition request (url : string) (options : IFetchOptions.t) (retries : nat) (w : Process)
    : (VinylFile.t + FetchError) * Process :=
  let verbose := verbose options in
  let w :=
    log verbose
      (StartFetching url (if (retries =? 10)%nat then None else Some (10 - Z.of_nat retries)%Z))
      w in
  let response := fetch (fetched w) in
  let w := {| fetched := S (fetched w); timers := timers w; logged := logged w |} in
  match response with
  | inr e => (inr (Raised e), w)
  | inl response =>
      let w := log verbose (FetchCompleted (status response)) w in
      if ok response && ((200 <=? status response)%Z && (status response <? 300)%Z) then
        match arrayBuffer response with
        | inr e => (inr (Raised e), w)
        | inl contents =>
            let checked :=
              match truthy (IFetchOptions.checksumSha256 options) with
              | Some expected =>
                  let actualSHA256Checksum := sha256hex contents in
                  if (actualSHA256Checksum =? expected)%string
                  then inl (log verbose (ChecksumsMatch url) w)
                  else inr (ChecksumMismatch url expected actualSHA256Checksum)
              | None => inl (log verbose (SkippingChecksum url) w)
              end in
            match checked with
            | inr e => (inr e, w)
            | inl w =>
                let w := log verbose (FetchedBytes (length contents)) w in
                (inl {| VinylFile.cwd := "/";
                        VinylFile.base :=
                          match truthy (IFetchOptions.path options) with
                          | Some path => Some (dirname path)
                          | None => IFetchOptions.base options
                          end;
                        VinylFile.path := coalesce (IFetchOptions.path options) url;
                        VinylFile.contents := contents |},
                 w)
            end
        end
      else (inr (RequestFailed url (status response)), w)
  end.

(** fetchUrl, with retries a count, as it is at every call of the sources
    (the default 10, then one less at each retry). *)
Fixpoint fetchUrl (url : string) (options : IFetchOptions.t) (retries : nat) (retryDelay : Z)
    (w : Process) : (VinylFile.t + FetchError) * Process :=
  match request url options retries w with
  | (inl file, w) => (inl file, w)
  | (inr e, w) =>
      let w := log (verbose options) (FetchingFailed url e) w in
      match retries with
      | S retries' => fetchUrl url options retries' retryDelay (sleep retryDelay w)
      | O => (inr e, w)
      end
  end.

End FetchUrl.

(** * build/linux/debian/install-sysroot: getSha *)

(** Buffer.alloc: a buffer of zeros. *)
Definition Buffer_alloc (size : nat) : list Byte.byte := repeat Byte.x00 size.

(** fs.readSync(fd, buffer, 0, length, position) on a regular file with the
    content [file]: the bytes of the file from [position] on, [length] of
    them at most, are written at the start of the buffer, whose other bytes
    stay; the number of bytes read and the buffer are returned. *)
Definition readSync (file buffer : list Byte.byte) (length position : nat)
    : nat * list Byte.byte :=
  let chunk := firstn length (skipn position file) in
  (List.length chunk, (chunk ++ skipn (List.length chunk) buffer)%list).

(** The loop of getSha.  The hash is the list of the bytes it was updated
    with; the loop has no bound of its own, [fuel] bounds the number of
    reads. *)
Fixpoint readBlocks (fuel : nat) (file buffer hash : list Byte.byte) (position : nat)
    : option (list Byte.byte * list Byte.byte * nat) :=
  match fuel with
  | O => None
  | S fuel =>
      let '(bytesRead, buffer) := readSync file buffer (List.length buffer) position in
      if (bytesRead =? List.length buffer)%nat then
        readBlocks fuel file buffer (hash ++ buffer)%list (position + bytesRead)
      else Some (buffer, hash, bytesRead)
  end.

Section GetSha.

(** The hexadecimal SHA-1 digest of crypto, of all the bytes a hash was
    updated with. *)
Variable sha1hex : list Byte.byte -> string.

(** getSha on the file fs.openSync opened, with content [file]. *)
Definition getSha (fuel : nat) (file : list Byte.byte) : option string :=
  match readBlocks fuel file (Buffer_alloc (1024 * 1024)) [] 0 with
  | Some (buffer, hash, bytesRead) => Some (sha1hex (hash ++ firstn bytesRead buffer)%list)
  | None => None
  end.

End GetSha.

(** * build/azure-pipelines/linux/install.sh: the loop around yarn *)

(** What the loop writes: the line of echo on the standard output, with the
    number of the turn, and the line on the standard error. *)
Inductive Echo : Type :=
  | YarnFailedTryingAgain (i : Z)
  | YarnFailedTooManyTimes.

(** How the loop ends: the script goes on after it (after break, or after
    the last turn), or exits with a status. *)
Inductive LoopEnd : Type :=
  | GoesOn
  | Exit (status : Z).

(** The turns of the loop for the values of [i] in [range]; [yarn] tells
    whether the n-th run of yarn succeeds, [ran] counts the runs so far.
    The failure of yarn on the left of && does not end the script under
    set -e. *)
Fixpoint yarnLoop (yarn : nat -> bool) (range : list Z) (ran : nat) (echoed : list Echo)
    : LoopEnd * nat * list Echo :=
  match range with
  | [] => (GoesOn, ran, echoed)
  | i :: range' =>
      if yarn ran then (GoesOn, S ran, echoed)
      else if (i =? 3)%Z then (Exit 1, S ran, echoed ++ [YarnFailedTooManyTimes])%list
      else yarnLoop yarn range' (S ran) (echoed ++ [YarnFailedTryingAgain i])%list
  end.

(** for i in {1..5} *)
Definition installYarn (yarn : nat -> bool) : LoopEnd * nat * list Echo :=
  yarnLoop yarn [1; 2; 3; 4; 5]%Z 0 [].

(** * build/linux/debian/install-sysroot: the two sysroots *)

(** DebianArchString of ./types. *)
Inductive DebianArchString : Type :=
  | amd64
  | arm64
  | armhf.

(** The string an architecture is. *)
Definition archString (arch : DebianArchString) : string :=
  match arch with
  | amd64 => "amd64"
  | arm64 => "arm64"
  | armhf => "armhf"
  end.

(** The white space of a regular expression among the characters below
    256, which are those a string holds here: tab, line feed, vertical tab,
    form feed, carriage return, space and the no-break space. *)
Definition isSpace (c : ascii) : bool :=
  let n := nat_of_ascii c in
  ((n =? 9) || (n =? 10) || (n =? 11) || (n =? 12) || (n =? 13) || (n =? 32) || (n =? 160))%nat.

(** line.split(/\s+/): the pieces between the longest runs of white space;
    a run at the start or at the end gives an empty piece there.
    [afterSpace] tells that the character before was white space. *)
Fixpoint splitSpaces (afterSpace : bool) (s : string) : list string :=
  match s with
  | EmptyString => [EmptyString]
  | String c rest =>
      if isSpace c then
        if afterSpace then splitSpaces true rest
        else EmptyString :: splitSpaces true rest
      else
        match splitSpaces false rest with
        | piece :: pieces => String c piece :: pieces
        | [] => [String c EmptyString]
        end
  end.

(** The loop of getVSCodeSysrootChecksum over the lines. *)
Fixpoint findChecksum (lines : list string) (expectedName : string) : option string :=
  match lines with
  | [] => None
  | line :: lines' =>
      let fields := splitSpaces false line in
      match nth_error fields 1 with
      | Some name =>
          if (name =? expectedName)%string then nth_error fields 0
          else findChecksum lines' expectedName
      | None => findChecksum lines' expectedName
      end
  end.

(** getVSCodeSysrootChecksum, given the text of
    build/checksums/vscode-sysroot.txt. *)
Definition getVSCodeSysrootChecksum (checksums : string) (expectedName : string)
    : option string :=
  findChecksum (split (ascii_of_nat 10) checksums) expectedName.

(** An event of the stream the files are written with. *)
Inductive StreamEvent : Type :=
  | StreamEnd
  | StreamError (e : error).

(** resolve and reject of a promise: the first of them settles it. *)
Definition settle {A : Type} (promise outcome : Settled A) : Settled A :=
  match promise with
  | Pending => outcome
  | _ => promise
  end.

(** The directory of the sysroot of an architecture as far as
    getVSCodeSysroot reads and writes it: the text of the file .stamp, when
    there is one.  The requests made to fetchGithub are kept with the name
    of the asset and the checksum. *)
Record VSCodeSysroot : Type := {
  stamp : option string;
  requested : list (string * string)
}.

Section Sysroots.

(** tmpdir() of os and join of path. *)
Variable tmpdir : string.
Variable path_join : string -> string -> string.

(** The handlers of 'end' and of 'error', for the events of the stream in
    their order. *)
Fixpoint onEvents (events : list StreamEvent) (expectedName result : string)
    (promise : Settled string) (stamp : option string) : Settled string * option string :=
  match events with
  | [] => (promise, stamp)
  | StreamEnd :: events' =>
      onEvents events' expectedName result (settle promise (Fulfilled result))
               (Some expectedName)
  | StreamError e :: events' =>
      onEvents events' expectedName result (settle promise (Rejected e)) stamp
  end.

Definition expectedNameOf (arch : DebianArchString) : string :=
  match arch with
  | amd64 => "x86_64-vscode-linux-gnu.tar.gz"
  | arm64 => "aarch64-vscode-linux-gnu.tar.gz"
  | armhf => "arm-vscode-linux-gnueabihf.tar.gz"
  end.

Definition tripleOf (arch : DebianArchString) : string :=
  match arch with
  | amd64 => "x86_64-vscode-linux-gnu"
  | arm64 => "aarch64-vscode-linux-gnu"
  | armhf => "arm-vscode-linux-gnueabihf"
  end.

(** getVSCodeSysroot: the promise it returns, once the stream has emitted
    [events], and the directory as it is then.  [checksums] is the text of
    the file of the checksums.  Removing the directory removes the stamp;
    the archive is taken to hold no file .stamp of its own, and removing and
    making the directory and requiring product.json are taken to return. *)
Definition getVSCodeSysroot (checksums : string) (arch : DebianArchString)
    (events : list StreamEvent) (w : VSCodeSysroot) : Settled string * VSCodeSysroot :=
  let expectedName := expectedNameOf arch in
  let triple := tripleOf arch in
  match truthy (getVSCodeSysrootChecksum checksums expectedName) with
  | None => (Rejected ("Could not find checksum for " ++ expectedName), w)
  | Some checksumSha256 =>
      let sysroot := path_join tmpdir ("vscode-" ++ archString arch ++ "-sysroot") in
      if match stamp w with
         | Some text => (text =? expectedName)%string
         | None => false
         end
      then (Fulfilled sysroot, w)
      else
        let '(promise, stamp) :=
          onEvents events expectedName
                   (sysroot ++ "/" ++ triple ++ "/" ++ triple ++ "/sysroot") Pending None in
        (promise,
         {| stamp := stamp;
            requested := requested w ++ [(expectedName, checksumSha256)] |})
  end.

End Sysroots.

(** ** getChromiumSysroot *)

Definition URL_PREFIX : string := "https://msftelectron.blob.core.windows.net".
Definition URL_PATH : string := "sysroots/toolchain".

(** An entry of sysroots.json. *)
Record SysrootDictEntry : Type := {
  Sha1Sum : string;
  SysrootDir : string;
  Tarball : string
}.

(** One call of https.get as the loop sees it: the chunks of the events
    'data', then the event 'end' of the response ([ended]) or the event
    'error' of the request.  A call that emits neither leaves
    getChromiumSysroot waiting for ever; it is no Download, and the
    properties are about the calls of getChromiumSysroot that return or
    throw. *)
Record Download : Type := {
  chunks : list (list Byte.byte);
  ended : bool
}.

(** What getChromiumSysroot throws. *)
Inductive SysrootError : Type :=
  | CannotRetrieve (stderr : string)
  | NoEntry
  | NoTarball
  | FailedToDownload (url : string)
  | WrongSha1sum (expected actual : string)
  | ExtractionFailed (status : Z).

(** The directory of the sysroot as far as getChromiumSysroot reads and
    writes it: the text of the file .stamp and the bytes of the tarball,
    when there are such files (the tarball is taken not to be named .stamp),
    with the number of calls of https.get and of tar so far. *)
Record ChromiumSysroot : Type := {
  stampFile : option string;
  tarballFile : option (list Byte.byte);
  gets : nat;
  tars : nat
}.

Section Chromium.

Variable tmpdir : string.
Variable path_join : string -> string -> string.
Variable sha1hex : list Byte.byte -> string.

(** What the n-th call of https.get brings. *)
Variable https_get : nat -> Download.

(** The loop of the downloads, with [turns] turns left. *)
Fixpoint downloadLoop (turns : nat) (w : ChromiumSysroot) : bool * ChromiumSysroot :=
  match turns with
  | O => (false, w)
  | S turns' =>
      let download := https_get (gets w) in
      let w :=
        {| stampFile := stampFile w;
           tarballFile := Some (concat (chunks download));
           gets := S (gets w);
           tars := tars w |} in
      if ended download then (true, w) else downloadLoop turns' w
  end.

(** getChromiumSysroot.  [curl] is the status and the standard error of the
    run of curl, [sysrootInfo] the object required from the file it wrote,
    whose entries have their three fields, [tar] the status of the run of
    tar; a status is None when it is null.  Reading a field of an entry that
    is not there is the error NoEntry, opening a tarball that is not there
    the error NoTarball; the calls that remove, make and write files are
    taken to return.  The result is None when the loop of getSha has not
    ended. *)
Definition getChromiumSysroot (arch : DebianArchString) (curl : option Z * string)
    (sysrootInfo : string -> option SysrootDictEntry) (tar : option Z)
    (w : ChromiumSysroot) : option ((string + SysrootError) * ChromiumSysroot) :=
  match fst curl with
  | Some 0%Z =>
      let sysrootArch :=
        match arch with
        | armhf => "bullseye_arm"
        | _ => "bullseye_" ++ archString arch
        end in
      match sysrootInfo sysrootArch with
      | None => Some (inr NoEntry, w)
      | Some sysrootDict =>
          let tarballFilename := Tarball sysrootDict in
          let tarballSha := Sha1Sum sysrootDict in
          let sysroot := path_join tmpdir (SysrootDir sysrootDict) in
          let url := String.concat "/" [URL_PREFIX; URL_PATH; tarballSha; tarballFilename] in
          if match stampFile w with
             | Some text => (text =? url)%string
             | None => false
             end
          then Some (inl sysroot, w)
          else
            let w :=
              {| stampFile := None; tarballFile := None; gets := gets w; tars := tars w |} in
            let '(downloadSuccess, w) := downloadLoop 3 w in
            if negb downloadSuccess then
              Some (inr (FailedToDownload url),
                    {| stampFile := stampFile w; tarballFile := None;
                       gets := gets w; tars := tars w |})
            else
              match tarballFile w with
              | None => Some (inr NoTarball, w)
              | Some file =>
                  match getSha sha1hex (S (length file)) file with
                  | None => None
                  | Some sha =>
                      if negb (sha =? tarballSha)%string then
                        Some (inr (WrongSha1sum tarballSha sha), w)
                      else
                        let w :=
                          {| stampFile := stampFile w; tarballFile := tarballFile w;
                             gets := gets w; tars := S (tars w) |} in
                        match tar with
                        | Some status =>
                            if (status =? 0)%Z then
                              Some (inl sysroot,
                                    {| stampFile := Some url; tarballFile := None;
                                       gets := gets w; tars := tars w |})
                            else Some (inr (ExtractionFailed status), w)
                        | None =>
                            Some (inl sysroot,
                                  {| stampFile := Some url; tarballFile := None;
                                     gets := gets w; tars := tars w |})
                        end
                  end
              end
      end
  | _ => Some (inr (CannotRetrieve (snd curl)), w)
  end.

End Chromium.

(** * Vocabulary of the properties *)

(** ** Counts *)

(** The categories a node has: statement always, branch and function when
    present. *)
Definition present_categories (n : AbstractFileCoverage.t) : list ICoveredCount :=
  (AbstractFileCoverage.statement n
     :: option_list (AbstractFileCoverage.branch n)
     ++ option_list (AbstractFileCoverage.function n))%list.

(** The sums of covered and of total over a list of counts. *)
Definition sum_covered (cs : list ICoveredCount) : N :=
  fold_right N.add 0%N (map covered cs).

Definition sum_total (cs : list ICoveredCount) : N :=
  fold_right N.add 0%N (map total cs).

(** A node with the given counts. *)
Definition node_of (s : ICoveredCount) (b f : option ICoveredCount)
    : AbstractFileCoverage.t :=
  {| AbstractFileCoverage.uri := URI.from "file" "" "/a";
     AbstractFileCoverage.statement := s;
     AbstractFileCoverage.branch := b;
     AbstractFileCoverage.function := f |}.

(** The counts {covered, total}. *)
Definition counts (c t : N) : ICoveredCount := {| covered := c; total := t |}.

(** The componentwise sum of a list of counts. *)
Definition sum_counts (cs : list ICoveredCount) : ICoveredCount :=
  {| covered := sum_covered cs; total := sum_total cs |}.

(** The counts that are present among optional ones. *)
Definition present (os : list (option ICoveredCount)) : list ICoveredCount :=
  omap id os.

(** The componentwise sum over the counts that are present; absent when none
    is. *)
Definition sum_present (os : list (option ICoveredCount)) : option ICoveredCount :=
  match present os with
  | [] => None
  | c :: cs => Some (sum_counts (c :: cs))
  end.

(** ** Trees before and after the aggregation pass *)

(** The counts of a value of the tree. *)
Definition statementOf (v : CoverageValue) : ICoveredCount :=
  AbstractFileCoverage.statement (abstract v).
Definition branchOf (v : CoverageValue) : option ICoveredCount :=
  AbstractFileCoverage.branch (abstract v).
Definition functionOf (v : CoverageValue) : option ICoveredCount :=
  AbstractFileCoverage.function (abstract v).

(** The value of each child, child by child. *)
Definition childValues (node : TestCoverageFileNode) : list (option CoverageValue) :=
  map (fun c => value (snd c)) (children node).

(** A value as the constructor of the base class leaves it. *)
Definition built (v : CoverageValue) : Prop := functionOf v = branchOf v.

(** The record [fileCoverage] holds the sums over the values [vs]. *)
Definition sums (vs : list CoverageValue) (fileCoverage : IFileCoverage.t) : Prop :=
  IFileCoverage.statement fileCoverage = sum_counts (map statementOf vs)
  /\ IFileCoverage.branch fileCoverage = sum_present (map branchOf vs)
  /\ IFileCoverage.function fileCoverage = sum_present (map functionOf vs).

(** How the value [v1] of a position stands to the value [v0] the position
    had before the pass began, given the children [cs1] it has now: a value
    that was there is kept; a position without one has none yet, or the
    aggregate of its children, which all have their value. *)
Definition filledValue (v0 v1 : option CoverageValue)
    (cs1 : list (string * TestCoverageFileNode)) : Prop :=
  match v0, v1 with
  | Some v, Some v' => v' = v /\ built v
  | Some _, None => False
  | None, None => True
  | None, Some v' =>
      exists fileCoverage vs,
        v' = Computed (AbstractFileCoverage.new fileCoverage)
        /\ map (fun c => value (snd c)) cs1 = map Some vs
        /\ sums vs fileCoverage
  end.

(** [Filled t0 t1]: the tree [t1] is [t0] with some of its positions filled
    in by the pass. *)
#[local] Unset Elimination Schemes.
Inductive Filled : TestCoverageFileNode -> TestCoverageFileNode -> Prop :=
  | Filled_node v0 cs0 v1 cs1 :
      Forall2 (fun c0 c1 => fst c0 = fst c1 /\ Filled (snd c0) (snd c1)) cs0 cs1 ->
      filledValue v0 v1 cs1 ->
      Filled (mkNode v0 cs0) (mkNode v1 cs1).
#[local] Set Elimination Schemes.

(** A running total after the optional counts [os] have been added to it. *)
Definition addPresent (running : option ICoveredCount) (os : list (option ICoveredCount))
    : option ICoveredCount :=
  match running with
  | None => sum_present os
  | Some r => Some (sumCounts r (sum_counts (present os)))
  end.

(** The loop body of the pass at one position. *)
Definition visitNode (tree : TestCoverageFileNode) (key : list string) : TestCoverageFileNode :=
  update key (fun node => snd (calculateComputed [] node)) tree.

(** A record without entries for the file at [path]. *)
Definition fileAt (path : string) (statement : ICoveredCount)
    (branch function : option ICoveredCount) : IFileCoverage.t :=
  {| IFileCoverage.uri := URI.from "file" "" path;
     IFileCoverage.statement := statement;
     IFileCoverage.branch := branch;
     IFileCoverage.function := function;
     IFileCoverage.details := None |}.

(** The leaves a/b/x with statement {1,2} and a/b/y with statement {3,4}. *)
Definition twoLeaves : list IFileCoverage.t :=
  [fileAt "/a/b/x" (counts 1 2) None None; fileAt "/a/b/y" (counts 3 4) None None].

(** The counts of the value at a key of a tree. *)
Definition countsAt (key : list string) (tree : TestCoverageFileNode)
    : option (ICoveredCount * option ICoveredCount * option ICoveredCount) :=
  match find key tree with
  | Some pos =>
      option_map (fun v => (statementOf v, branchOf v, functionOf v)) (value pos)
  | None => None
  end.

(** A leaf above a leaf: /a without branch counts and /a/b with them. *)
Definition nestedLeaves : list IFileCoverage.t :=
  [fileAt "/a" (counts 1 1) None None;
   fileAt "/a/b" (counts 1 1) (Some (counts 1 1)) None].

(** ** Runs of a session and of a leaf *)



(** The runs of a session. *)
Abbreviation SessionRun := (Run TestCoverage.t nat TestCoverageFileNode).

(** One event of a session. *)
Abbreviation stepSession :=
  (step TestCoverage.getAllFiles_enter TestCoverage.getAllFiles_resume
        TestCoverage.createFileCoverage_settle).






(** The runs of a leaf, and one event of them. *)
Abbreviation DetailsRun := (Run Details.t DetailsSlot (list CoverageDetails)).

Abbreviation stepDetails :=
  (step Details.details_enter Details.details_resume Details.resolveFileCoverage_settle).




(** The state of a leaf built with entries. *)
Definition entriesKept (entries : list CoverageDetails) (r : DetailsRun) : Prop :=
  FileCoverage._details (Details.leaf (world r)) = Some (Entries entries)
  /\ Details.resolved (world r) = []
  /\ Forall (fun c => match c with
                      | Suspended awaited => awaited = Entries entries
                      | Returned awaited outcome =>
                          awaited = Entries entries /\ outcome = inl entries
                      end) (calls r).

(** A record that carries two entries. *)
Definition fileWithEntries : IFileCoverage.t :=
  {| IFileCoverage.uri := URI.from "file" "" "/a";
     IFileCoverage.statement := counts 1 2;
     IFileCoverage.branch := None;
     IFileCoverage.function := None;
     IFileCoverage.details := Some [DetailEntry 1; DetailEntry 2] |}.

(** The leaf at a key of a tree. *)
Definition leafAt (key : list string) (tree : TestCoverageFileNode)
    : option FileCoverage.t :=
  match find key tree with
  | Some pos =>
      match value pos with
      | Some (File leaf) => Some leaf
      | _ => None
      end
  | None => None
  end.

(** A record with 1 of 2 functions covered and no branch counts. *)
Definition fileWithFunctions : IFileCoverage.t :=
  fileAt "/a" (counts 1 1) None (Some (counts 1 2)).

(** The session after one call of getUri has been made and the provider has
    answered with [files]: the awaited promise and the session. *)
Definition answeredSession (files : list IFileCoverage.t) : nat * TestCoverage.t :=
  let '(promise, session) := TestCoverage.getUri_enter TestCoverage.new in
  (promise, TestCoverage.createFileCoverage_settle promise (inl files) session).

(** ** Positions and leaves of the tree *)

(** The value at a key of a tree, none where the tree has no position. *)
Definition valueAt {V : Type} (key : list string) (tree : Node V) : option V :=
  match find key tree with
  | Some pos => value pos
  | None => None
  end.

(** The key of the record of a file. *)
Definition keyOf (file : IFileCoverage.t) : list string :=
  treePathForUri (IFileCoverage.uri file).

(** The values in the trees of a list of children, given the values in each
    child. *)
Fixpoint valuesOfChildren {V : Type} (values : Node V -> list V)
    (cs : list (string * Node V)) : list V :=
  match cs with
  | [] => []
  | (_, c) :: cs' => (values c ++ valuesOfChildren values cs')%list
  end.

(** The values at and below a position, parents before children. *)
Fixpoint valuesBelow {V : Type} (node : Node V) : list V :=
  match node with
  | mkNode v cs => (option_list v ++ valuesOfChildren valuesBelow cs)%list
  end.

(** [p] holds of every child. *)
Fixpoint allChildren {V : Type} (p : Node V -> bool) (cs : list (string * Node V)) : bool :=
  match cs with
  | [] => true
  | (_, c) :: cs' => p c && allChildren p cs'
  end.

(** No position that holds a value has children: no leaf lies below another
    leaf. *)
Fixpoint leafless {V : Type} (node : Node V) : bool :=
  match node with
  | mkNode v cs =>
      match v, cs with
      | Some _, _ :: _ => false
      | _, _ => allChildren leafless cs
      end
  end.

(** The sum of two optional counts: the one that is present, or their
    componentwise sum. *)
Definition addOptional (a b : option ICoveredCount) : option ICoveredCount :=
  match a, b with
  | Some x, Some y => Some (sumCounts x y)
  | Some x, None => Some x
  | None, _ => b
  end.

(** ** Calls of setCoverageInfo one after the other *)

(** The calls setCoverageInfo(coverage) of a list, each with the metric the
    configuration holds at its time, up to the first that throws. *)
Fixpoint showAll (Number_toString : Q -> string)
    (calls : list (AbstractFileCoverage.t * TestingDisplayedCoveragePercent))
    (this : AbstractTestCoverageBars.t) : Outcome unit * AbstractTestCoverageBars.t :=
  match calls with
  | [] => (inl tt, this)
  | (coverage, method) :: calls' =>
      match setCoverageInfo Number_toString (Some coverage) method this with
      | (inr e, this) => (inr e, this)
      | (inl _, this) => showAll Number_toString calls' this
      end
  end.

(** The coverages of the listeners of the configuration in a store, in the
    order of registration. *)
Fixpoint listenersOf (store : list Disposable) : list AbstractFileCoverage.t :=
  match store with
  | [] => []
  | ConfigurationListener c :: store' => c :: listenersOf store'
  | _ :: store' => listenersOf store'
  end.

(** A widget in the full form whose method and branch bars have never been
    styled. *)
Definition fullUntouched (this : AbstractTestCoverageBars.t) : Prop :=
  AbstractTestCoverageBars.compact this = false
  /\ match AbstractTestCoverageBars.el this with
     | None => True
     | Some (FullBars _ _ method branch) => method = unstyled /\ branch = unstyled
     | Some (CompactBars _ _) => False
     end.

(** The three calls of renderBar on the statement bar, one after the
    other. *)
Definition thrice (c : AbstractFileCoverage.t) (statement : BarStyle) : BarStyle :=
  snd (renderBar
         (snd (renderBar
                 (snd (renderBar statement
                         (Some (Finite (percent (AbstractFileCoverage.statement c))))))
                 (percentOf (AbstractFileCoverage.function c))))
         (percentOf (AbstractFileCoverage.branch c))).

(** The elements after a render of a coverage. *)
Definition rendered (Number_toString : Q -> string) (c : AbstractFileCoverage.t)
    (method : TestingDisplayedCoveragePercent) (e : Elements) : Elements :=
  let overallStat := calculateDisplayedStat c method in
  let overall := displayPercent Number_toString overallStat in
  match e with
  | CompactBars _ tpcBar =>
      CompactBars overall (snd (renderBar tpcBar (Some (Finite overallStat))))
  | FullBars _ statement method branch => FullBars overall (thrice c statement) method branch
  end.

(** A coverage of the file /a with statement {1,2} and branch {1,4}, and a
    new widget in the full form after it was shown in Statement mode; the
    host's rendering of large numbers is not reached. *)
Definition branchCoverage : AbstractFileCoverage.t :=
  AbstractFileCoverage.new (fileAt "/a" (counts 1 2) (Some (counts 1 4)) None).

Definition shownOnce : AbstractTestCoverageBars.t :=
  snd (setCoverageInfo (fun _ => EmptyString) (Some branchCoverage) Statement
         (AbstractTestCoverageBars.new false)).

(** A widget whose elements, once built, have the form of its options. *)
Definition formed (this : AbstractTestCoverageBars.t) : Prop :=
  match AbstractTestCoverageBars.el this with
  | None => True
  | Some (CompactBars _ _) => AbstractTestCoverageBars.compact this = true
  | Some (FullBars _ _ _ _) => AbstractTestCoverageBars.compact this = false
  end.

(** ** Answers of the network *)

(** An answer of fetch that fetchUrl accepts with the body [contents]: a
    response that is ok with a status from 200 up to 299, whose body arrives
    and, when the options name a checksum, has that SHA-256 digest. *)
Inductive Accepts (sha256hex : list Byte.byte -> string) (options : IFetchOptions.t)
    : Answered Response -> list Byte.byte -> Prop :=
  | accepts_response (r : Response) (contents : list Byte.byte) :
      ok r = true ->
      (200 <= status r < 300)%Z ->
      arrayBuffer r = inl contents ->
      (forall expected,
          IFetchOptions.checksumSha256 options = Some expected ->
          expected <> EmptyString ->
          sha256hex contents = expected) ->
      Accepts sha256hex options (inl r) contents.

(** An answer of fetch that makes an attempt fail with the error [e]. *)
Inductive Refuses (sha256hex : list Byte.byte -> string) (options : IFetchOptions.t)
    (url : string) : Answered Response -> FetchError -> Prop :=
  | refuses_rejection (e : error) :
      Refuses sha256hex options url (inr e) (Raised e)
  | refuses_status (r : Response) :
      ok r = false \/ (status r < 200)%Z \/ (300 <= status r)%Z ->
      Refuses sha256hex options url (inl r) (RequestFailed url (status r))
  | refuses_body (r : Response) (e : error) :
      ok r = true ->
      (200 <= status r < 300)%Z ->
      arrayBuffer r = inr e ->
      Refuses sha256hex options url (inl r) (Raised e)
  | refuses_checksum (r : Response) (contents : list Byte.byte) (expected : string) :
      ok r = true ->
      (200 <= status r < 300)%Z ->
      arrayBuffer r = inl contents ->
      IFetchOptions.checksumSha256 options = Some expected ->
      expected <> EmptyString ->
      sha256hex contents <> expected ->
      Refuses sha256hex options url (inl r)
        (ChecksumMismatch url expected (sha256hex contents)).

(** A process that has done nothing yet. *)
Definition idle : Process := {| fetched := 0; timers := []; logged := [] |}.

(** A digest for the examples: the text of the length of the body. *)
Definition lengthDigest (contents : list Byte.byte) : string :=
  NilEmpty.string_of_uint (Nat.to_uint (length contents)).

(** A network that answers 503 twice and then 200 with a body of two
    bytes, and one that always answers 503. *)
Definition twiceUnavailable (n : nat) : Answered Response :=
  if (n <? 2)%nat then inl {| ok := false; status := 503; arrayBuffer := inl [] |}
  else inl {| ok := true; status := 200; arrayBuffer := inl [Byte.x68; Byte.x69] |}.

Definition unavailable (n : nat) : Answered Response :=
  inl {| ok := false; status := 503; arrayBuffer := inl [] |}.

(** Options that name the path /tmp/f and the checksum, and options that
    name nothing. *)
Definition checkedOptions (checksum : string) : IFetchOptions.t :=
  {| IFetchOptions.base := None; IFetchOptions.verbose := None;
     IFetchOptions.path := Some "/tmp/f"; IFetchOptions.checksumSha256 := Some checksum |}.

Definition noOptions : IFetchOptions.t :=
  {| IFetchOptions.base := None; IFetchOptions.verbose := None;
     IFetchOptions.path := None; IFetchOptions.checksumSha256 := None |}.

(** The environment of a build on CI. *)
Definition onCI : Environment :=
  {| CI := Some "true"; BUILD_ARTIFACTSTAGINGDIRECTORY := Some "/a" |}.

(** ** Sysroots *)

(** Whether an event is the end of the stream. *)
Definition isEnd (event : StreamEvent) : bool :=
  match event with
  | StreamEnd => true
  | StreamError _ => false
  end.

(** The result getVSCodeSysroot resolves with after an installation. *)
Definition installedSysroot (sysroot : string) (arch : DebianArchString) : string :=
  sysroot ++ "/" ++ tripleOf arch ++ "/" ++ tripleOf arch ++ "/sysroot".

(** A file of checksums with the line of the amd64 sysroot, and a directory
    that was never installed. *)
Definition oneChecksum : string := "c0ffee  x86_64-vscode-linux-gnu.tar.gz".

Definition noSysroot : VSCodeSysroot := {| stamp := None; requested := [] |}.

(** join of path for the examples. *)
Definition slashJoin (a b : string) : string := a ++ "/" ++ b.

(** The URL getChromiumSysroot downloads for an entry. *)
Definition tarballUrl (entry : SysrootDictEntry) : string :=
  String.concat "/" [URL_PREFIX; URL_PATH; Sha1Sum entry; Tarball entry].

(** The name of the entry of an architecture in sysroots.json. *)
Definition sysrootArchOf (arch : DebianArchString) : string :=
  match arch with
  | amd64 => "bullseye_amd64"
  | arm64 => "bullseye_arm64"
  | armhf => "bullseye_arm"
  end.

(** An entry whose tarball has the digest "2" of the examples, a
    sysroots.json that holds it for every architecture, a network whose
    first download breaks after one byte and whose later ones bring two
    bytes, and a directory never installed. *)
Definition oneEntry : SysrootDictEntry :=
  {| Sha1Sum := "2"; SysrootDir := "debian_bullseye_amd64-sysroot"; Tarball := "t.tar.xz" |}.

Definition brokenOnce (n : nat) : Download :=
  if (n =? 0)%nat then {| chunks := [[Byte.x68]]; ended := false |}
  else {| chunks := [[Byte.x68]; [Byte.x69]]; ended := true |}.

(** A network on which every download breaks after one byte. *)
Definition alwaysBroken (n : nat) : Download :=
  {| chunks := [[Byte.x68]]; ended := false |}.

Definition noChromiumSysroot : ChromiumSysroot :=
  {| stampFile := None; tarballFile := None; gets := 0; tars := 0 |}.

(** ** The file of the checksums *)

(** A string without white space. *)
Fixpoint spaceless (s : string) : bool :=
  match s with
  | EmptyString => true
  | String c rest => negb (isSpace c) && spaceless rest
  end.

(** A string without line feed. *)
Fixpoint oneLine (s : string) : bool :=
  match s with
  | EmptyString => true
  | String c rest => negb (Ascii.eqb c (ascii_of_nat 10)) && oneLine rest
  end.

(** The line of a checksum and a name, the text of the lines of a list of
    them, and the checksum of the first of them with a given name. *)
Definition checksumLine (entry : string * string) : string :=
  fst entry ++ "  " ++ snd entry.

Definition checksumsText (entries : list (string * string)) : string :=
  String.concat (String (ascii_of_nat 10) EmptyString) (map checksumLine entries).

Fixpoint checksumOf (entries : list (string * string)) (name : string) : option string :=
  match entries with
  | [] => None
  | (checksum, name') :: entries' =>
      if (name' =? name)%string then Some checksum else checksumOf entries' name
  end.

(** * Properties *)

(** ** Counts and ratios *)

Lemma num_nonneg (n : N) : (0 <= num n)%Q.
Proof. unfold num, Qle; simpl; lia. Qed.

Lemma num_pos (n : N) : n <> 0%N -> (0 < num n)%Q.
Proof. intros Hn. unfold num, Qlt; simpl; lia. Qed.

Lemma num_le (a b : N) : (a <= b)%N -> (num a <= num b)%Q.
Proof. intros Hab. unfold num, Qle; simpl; lia. Qed.

(** A ratio of counts lies between 0 and 1 when the numerator does not
    exceed the denominator. *)
Lemma ratio_range (a b : N) :
  b <> 0%N -> (a <= b)%N -> (0 <= num a / num b)%Q /\ (num a / num b <= 1)%Q.
Proof.
  intros Hb Hab. pose proof (num_pos b Hb) as Hpos. split.
  - apply Qle_shift_div_l; [exact Hpos|].
    rewrite Qmult_0_l. apply num_nonneg.
  - apply Qle_shift_div_r; [exact Hpos|].
    rewrite Qmult_1_l. now apply num_le.
Qed.

Lemma tpc_unfold (n : AbstractFileCoverage.t) :
  AbstractFileCoverage.tpc n =
    if (sum_total (present_categories n) =? 0)%N then 1%Q
    else (num (sum_covered (present_categories n))
          / num (sum_total (present_categories n)))%Q.
Proof.
  destruct n as [u s [b|] [f|]];
    unfold AbstractFileCoverage.tpc, present_categories, sum_covered, sum_total;
    simpl; rewrite ?N.add_0_r, ?N.add_assoc; reflexivity.
Qed.

Lemma sum_covered_le_total (cs : list ICoveredCount) :
  (forall c, In c cs -> (covered c <= total c)%N) ->
  (sum_covered cs <= sum_total cs)%N.
Proof.
  unfold sum_covered, sum_total.
  induction cs as [|c cs IH]; intros H; simpl; [lia|].
  pose proof (H c (or_introl eq_refl)).
  assert (forall c', In c' cs -> (covered c' <= total c')%N) as H'
    by (intros c' Hc'; apply H; now right).
  specialize (IH H'). lia.
Qed.

Lemma sum_total_zero (cs : list ICoveredCount) :
  (forall c, In c cs -> total c = 0%N) -> sum_total cs = 0%N.
Proof.
  unfold sum_total.
  induction cs as [|c cs IH]; intros H; simpl; [reflexivity|].
  rewrite (H c (or_introl eq_refl)), IH; [reflexivity|].
  intros c' Hc'. apply H. now right.
Qed.

(** C5.  The tpc of a node is the sum of covered over its present
    categories divided by the sum of total over them, and 1 when that
    denominator is zero; so a node with covered <= total in every present
    category has its tpc between 0 and 1, and a node whose present categories
    all have total 0 has tpc 1. *)
Theorem tpc_of_present_categories (n : AbstractFileCoverage.t) :
  let cs := present_categories n in
  AbstractFileCoverage.tpc n
    = (if (sum_total cs =? 0)%N then 1%Q
       else (num (sum_covered cs) / num (sum_total cs))%Q)
  /\ ((forall c, In c cs -> (covered c <= total c)%N) ->
      (0 <= AbstractFileCoverage.tpc n)%Q /\ (AbstractFileCoverage.tpc n <= 1)%Q)
  /\ ((forall c, In c cs -> total c = 0%N) -> AbstractFileCoverage.tpc n = 1%Q).
Proof.
  intros cs. split; [apply tpc_unfold|]. split.
  - intros Hinv. rewrite tpc_unfold. fold cs.
    destruct (sum_total cs =? 0)%N eqn:Hz.
    + split; unfold Qle; simpl; lia.
    + apply N.eqb_neq in Hz.
      apply ratio_range; [exact Hz|]. now apply sum_covered_le_total.
  - intros Hzero. rewrite tpc_unfold. fold cs.
    rewrite (sum_total_zero cs Hzero). reflexivity.
Qed.

(** A node with 3 of 4 statements and 1 of 4 branches covered has tpc 4/8,
    which lies between 0 and 1. *)
Lemma tpc_of_present_categories_witness :
  let n := node_of (counts 3 4) (Some (counts 1 4)) None in
  AbstractFileCoverage.tpc n = (num 4 / num 8)%Q
  /\ (0 <= AbstractFileCoverage.tpc n)%Q /\ (AbstractFileCoverage.tpc n <= 1)%Q.
Proof.
  intros n. split.
  - exact (proj1 (tpc_of_present_categories n)).
  - apply (proj1 (proj2 (tpc_of_present_categories n))).
    intros c Hc. simpl in Hc.
    destruct Hc as [<-|[<-|[]]]; simpl; lia.
Defined.

(** ** The Metric Selector *)

Lemma Qmin_pick (x y : Q) : Qmin x y = x \/ Qmin x y = y.
Proof.
  unfold Qmin, GenericMinMax.gmin. destruct (x ?= y)%Q; auto.
Qed.

Lemma minimum_is_least (n : AbstractFileCoverage.t) (p : Q) :
  In p (map percent (present_categories n)) ->
  (calculateDisplayedStat n Minimum <= p)%Q.
Proof.
  destruct n as [u s [b|] [f|]]; unfold present_categories; simpl;
    intros Hp; repeat destruct Hp as [<-|Hp]; try contradiction.
  - eapply Qle_trans; [apply Q.le_min_l|apply Q.le_min_l].
  - eapply Qle_trans; [apply Q.le_min_l|apply Q.le_min_r].
  - apply Q.le_min_r.
  - apply Q.le_min_l.
  - apply Q.le_min_r.
  - apply Q.le_min_l.
  - apply Q.le_min_r.
  - apply Qle_refl.
Qed.

Lemma minimum_is_attained (n : AbstractFileCoverage.t) :
  In (calculateDisplayedStat n Minimum) (map percent (present_categories n)).
Proof.
  destruct n as [u s [b|] [f|]]; unfold present_categories; simpl.
  - destruct (Qmin_pick (Qmin (percent s) (percent b)) (percent f)) as [->| ->];
      [destruct (Qmin_pick (percent s) (percent b)) as [->| ->]|]; auto.
  - destruct (Qmin_pick (percent s) (percent b)) as [->| ->]; auto.
  - destruct (Qmin_pick (percent s) (percent f)) as [->| ->]; auto.
  - auto.
Qed.

(** C9.  In Minimum mode the selector returns the minimum of the statement
    percent and the percents of those of branch and function that are
    present: it is one of these percents and none of them is below it.  A
    category percent is covered / total, and 1 when total is 0.  A node with
    statement percent 0.95 and branch percent 0.70 yields 0.70.  Statement
    mode returns the statement percent and Total-coverage mode the tpc. *)
Theorem calculateDisplayedStat_modes :
  (forall n,
      In (calculateDisplayedStat n Minimum) (map percent (present_categories n))
      /\ forall p, In p (map percent (present_categories n)) ->
                   (calculateDisplayedStat n Minimum <= p)%Q)
  /\ (forall c, percent c = if (total c =? 0)%N then 1%Q
                            else (num (covered c) / num (total c))%Q)
  /\ (let n := node_of (counts 95 100) (Some (counts 70 100)) None in
      percent (AbstractFileCoverage.statement n) == 0.95
      /\ percent (counts 70 100) == 0.70
      /\ calculateDisplayedStat n Minimum == 0.70)
  /\ (forall n, calculateDisplayedStat n Statement
                = percent (AbstractFileCoverage.statement n))
  /\ (forall n, calculateDisplayedStat n TotalCoverage = AbstractFileCoverage.tpc n).
Proof.
  repeat split.
  - apply minimum_is_attained.
  - apply minimum_is_least.
Qed.

(** With 95 of 100 statements and 70 of 100 branches covered the selected
    percent does not exceed the branch percent. *)
Lemma calculateDisplayedStat_modes_witness :
  (calculateDisplayedStat (node_of (counts 95 100) (Some (counts 70 100)) None) Minimum
   <= percent (counts 70 100))%Q.
Proof.
  apply (proj2 (proj1 calculateDisplayedStat_modes
                  (node_of (counts 95 100) (Some (counts 70 100)) None))).
  simpl. auto.
Defined.

(** ** The display of a percentage *)

Lemma string_length_app (a b : string) :
  String.length (a ++ b) = (String.length a + String.length b)%nat.
Proof. induction a as [|c a IH]; simpl; [reflexivity|now rewrite IH]. Qed.

Lemma string_length_substring (s : string) :
  forall n m, (n + m <= String.length s)%nat -> String.length (substring n m s) = m.
Proof.
  induction s as [|c s IH]; intros n m Hnm; simpl in *.
  - destruct n, m; simpl; try reflexivity; lia.
  - destruct n as [|n].
    + destruct m as [|m]; [reflexivity|]. simpl. rewrite IH; [reflexivity|lia].
    + apply IH. lia.
Qed.

Lemma length_zeros (k : nat) : String.length (zeros k) = k.
Proof. induction k; simpl; congruence. Qed.

(** With two decimals asked for, the digits and the point take at least four
    characters. *)
Lemma placePoint_length (m : string) :
  (4 <= String.length (placePoint m 2))%nat.
Proof.
  unfold placePoint. simpl Nat.eqb. cbv iota.
  set (m' := if (String.length m <=? 2)%nat then _ else m).
  assert (3 <= String.length m')%nat as Hm'.
  { subst m'. destruct (Nat.leb_spec (String.length m) 2) as [Hk|Hk].
    - rewrite string_length_app, length_zeros. lia.
    - lia. }
  rewrite !string_length_app, !string_length_substring by lia.
  simpl. lia.
Qed.

Section DisplayFacts.
Variable Number_toString : Q -> string.
#[local] Abbreviation toFixed := (toFixed Number_toString).
#[local] Abbreviation displayPercent := (displayPercent Number_toString).

Lemma toFixed_2_not_100 (x : Q) :
  (Qabs x < 10 ^ 21)%Q -> toFixed x 2 <> "100".
Proof.
  intros Hx Heq. unfold toFixed in Heq.
  destruct (Qle_bool (10 ^ 21) (Qabs x)) eqn:Hbig.
  - apply Qle_bool_iff in Hbig. apply Qle_not_lt in Hbig. contradiction.
  - apply (f_equal String.length) in Heq.
    rewrite string_length_app in Heq.
    pose proof (placePoint_length (digits (nearest (Qabs x) 2))).
    simpl in Heq. lia.
Qed.

(** The comparison of the rendering with "100" never holds, so the
    rendering is returned as it is. *)
Lemma displayPercent_plain (f : Q) :
  (Qabs (f * 100) < 10 ^ 21)%Q ->
  displayPercent f = toFixed (f * 100) precision ++ "%".
Proof.
  intros Hf. unfold displayPercent.
  destruct (String.eqb_spec (toFixed (f * 100) precision) "100") as [Heq|Hne].
  - exfalso. exact (toFixed_2_not_100 _ Hf Heq).
  - now rewrite andb_false_r.
Qed.

Lemma Qfloor_eq (y : Q) (z : Z) :
  (inject_Z z <= y)%Q -> (y < inject_Z (z + 1))%Q -> Qfloor y = z.
Proof.
  intros Hlo Hhi.
  pose proof (Qfloor_le y) as Hfl. pose proof (Qlt_floor y) as Hfu.
  assert (inject_Z z < inject_Z (Qfloor y + 1))%Q as H1
    by (eapply Qle_lt_trans; eassumption).
  assert (inject_Z (Qfloor y) < inject_Z (z + 1))%Q as H2
    by (eapply Qle_lt_trans; eassumption).
  rewrite <- Zlt_Qlt in H1, H2. lia.
Qed.

(** From 99.995 up to 100.005 the rendering with two decimals is 100.00. *)
Lemma toFixed_100 (x : Q) :
  (99.995 <= x)%Q -> (x < 100.005)%Q -> toFixed x 2 = "100.00".
Proof.
  intros Hlo Hhi.
  assert (0 <= x)%Q as Hpos by (eapply Qle_trans; [|exact Hlo]; discriminate).
  unfold toFixed.
  replace (Qltb x 0) with false; cycle 1.
  { unfold Qltb. symmetry. apply negb_false_iff. now apply Qle_bool_iff. }
  replace (Qle_bool (10 ^ 21) (Qabs x)) with false; cycle 1.
  { symmetry. apply not_true_is_false. intros Hbig.
    apply Qle_bool_iff in Hbig. rewrite (Qabs_pos x Hpos) in Hbig.
    apply (Qle_not_lt _ _ Hbig). eapply Qlt_trans; [exact Hhi|reflexivity]. }
  replace (nearest (Qabs x) 2) with 10000%N; [reflexivity|].
  unfold nearest. rewrite (Qfloor_eq _ 10000); [reflexivity| |].
  - rewrite (Qabs_pos x Hpos). clear Hpos Hhi. revert Hlo.
    destruct x as [n d]. unfold Qle. simpl. rewrite ?Pos2Z.inj_mul. lia.
  - rewrite (Qabs_pos x Hpos). clear Hpos Hlo. revert Hhi.
    destruct x as [n d]. unfold Qlt. simpl. rewrite ?Pos2Z.inj_mul. lia.
Qed.

Lemma not_below_epsilon (f : Q) :
  (1 - 1e-7 <= f)%Q -> Qltb f (1 - epsilon) = false.
Proof.
  intros Hf. unfold Qltb. apply negb_false_iff. apply Qle_bool_iff.
  eapply Qle_trans; [|exact Hf]. discriminate.
Qed.

(** C4, as the source has it.  A fraction f with 1 - 1e-7 <= f < 1 is not
    below 1 - epsilon, so the guard of the replacement by 99.99% excludes it
    and it is rendered as it rounds, 100.00%; so is 1.  Every value outside
    the range from 0.99995 up to 1 - 1e-7 (of a magnitude that toFixed still
    renders with digits) is rendered as the value scaled by 100 with two
    decimals, followed by the percent sign. *)
Theorem displayPercent_near_full :
  (forall f, (1 - 1e-7 <= f)%Q -> (f < 1)%Q -> displayPercent f = "100.00%")
  /\ displayPercent 1 = "100.00%"
  /\ (forall f, (Qabs (f * 100) < 10 ^ 21)%Q ->
                ~ ((0.99995 <= f)%Q /\ (f < 1 - 1e-7)%Q) ->
                displayPercent f = toFixed (f * 100) precision ++ "%").
Proof.
  split; [|split].
  - intros f Hlo Hhi. unfold displayPercent.
    rewrite (not_below_epsilon f Hlo). cbn [andb].
    unfold precision. rewrite toFixed_100; [reflexivity| |].
    + clear Hhi. revert Hlo. destruct f as [n d]. unfold Qle. simpl.
      rewrite ?Pos2Z.inj_mul. lia.
    + clear Hlo. revert Hhi. destruct f as [n d]. unfold Qlt. simpl.
      rewrite ?Pos2Z.inj_mul. lia.
  - unfold displayPercent. rewrite not_below_epsilon by discriminate.
    cbn [andb]. unfold precision. rewrite toFixed_100; [reflexivity| |]; discriminate || reflexivity.
  - intros f Hf _. now apply displayPercent_plain.
Qed.

End DisplayFacts.

(** The fraction 1 - 1e-7 itself is rendered 100.00%. *)
Lemma displayPercent_near_full_witness :
  displayPercent (fun _ => "") 0.9999999 = "100.00%".
Proof.
  apply (proj1 (displayPercent_near_full (fun _ => ""))); [discriminate|reflexivity].
Defined.

(** C4 as the claim states it fails at 0.99999999: this fraction lies in the
    range from 1 - 1e-7 up to 1 and is rendered 100.00%, not 99.99%. *)
Lemma displayPercent_near_full_counterexample :
  (1 - 1e-7 <= 0.99999999)%Q /\ (0.99999999 < 1)%Q
  /\ (forall Number_toString, displayPercent Number_toString 0.99999999 = "100.00%")
  /\ "100.00%" <> "99.99%".
Proof.
  split; [discriminate|]. split; [reflexivity|]. split; [|discriminate].
  intros ts. vm_compute. reflexivity.
Qed.

Lemma append_percent_inv (a b : string) : a ++ "%" = b ++ "%" -> a = b.
Proof.
  revert b. induction a as [|c a IH]; intros [|c' b]; simpl; intros H.
  - reflexivity.
  - destruct b; discriminate.
  - destruct a; discriminate.
  - injection H as -> H. f_equal. now apply IH.
Qed.

(** The replacement by 99.99% is never made: the rendering with two
    decimals always has its point, so it never is the string 100, and every
    value (of a magnitude that toFixed renders with digits) is rendered as
    it rounds.  So the values the replacement is written for, from 0.99995
    up to 1, which round up, are all rendered 100.00%; and 99.99% is returned
    only for a value whose own rendering is 99.99. *)
Theorem displayPercent_never_replaces (Number_toString : Q -> string) :
  (forall f, (Qabs (f * 100) < 10 ^ 21)%Q ->
             displayPercent Number_toString f
             = toFixed Number_toString (f * 100) precision ++ "%")
  /\ (forall f, (0.99995 <= f)%Q -> (f < 1)%Q ->
                displayPercent Number_toString f = "100.00%")
  /\ (forall f, (Qabs (f * 100) < 10 ^ 21)%Q ->
                displayPercent Number_toString f = "99.99%" ->
                toFixed Number_toString (f * 100) precision = "99.99").
Proof.
  split; [exact (displayPercent_plain Number_toString)|]. split.
  - intros f Hlo Hhi.
    assert (99.995 <= f * 100)%Q as Hlo'
      by (clear Hhi; revert Hlo; destruct f as [n d]; unfold Qle; simpl;
          rewrite ?Pos2Z.inj_mul; lia).
    assert (f * 100 < 100.005)%Q as Hhi'
      by (clear Hlo Hlo'; revert Hhi; destruct f as [n d]; unfold Qlt; simpl;
          rewrite ?Pos2Z.inj_mul; lia).
    rewrite displayPercent_plain.
    + unfold precision. now rewrite toFixed_100.
    + rewrite Qabs_pos; [eapply Qlt_trans; [exact Hhi'|reflexivity]|].
      eapply Qle_trans; [|exact Hlo']. discriminate.
  - intros f Hf Hdisplay. rewrite displayPercent_plain in Hdisplay by exact Hf.
    now apply append_percent_inv.
Qed.

(** The fraction 0.99996 is below 1 - epsilon and rounds to 100.00: it is
    rendered 100.00%.  The fraction 0.9999 is rendered 99.99%, as it
    rounds. *)
Lemma displayPercent_never_replaces_witness :
  Qltb 0.99996 (1 - epsilon) = true
  /\ displayPercent (fun _ => "") 0.99996 = "100.00%"
  /\ displayPercent (fun _ => "") 0.9999 = "99.99%"
  /\ toFixed (fun _ => "") (0.9999 * 100) precision = "99.99".
Proof.
  split; [reflexivity|]. split; [|split; [reflexivity|]].
  - apply (proj1 (proj2 (displayPercent_never_replaces (fun _ => "")))).
    + discriminate.
    + reflexivity.
  - apply (proj2 (proj2 (displayPercent_never_replaces (fun _ => "")))).
    + reflexivity.
    + reflexivity.
Defined.

(** ** The aggregation pass *)

(** Induction over a tree, with the property at hand for every child. *)
Lemma Node_induction {V : Type} (P : Node V -> Prop) :
  (forall v cs, Forall (fun c => P (snd c)) cs -> P (mkNode v cs)) ->
  forall node, P node.
Proof.
  intros step. fix IH 1. intros [v cs]. apply step.
  induction cs as [|[p c] cs IHcs]; constructor; [apply IH|exact IHcs].
Qed.

Lemma counts_eq (a b : ICoveredCount) :
  covered a = covered b -> total a = total b -> a = b.
Proof. destruct a, b; simpl; congruence. Qed.

Lemma sumCounts_assoc (a b c : ICoveredCount) :
  sumCounts (sumCounts a b) c = sumCounts a (sumCounts b c).
Proof. apply counts_eq; simpl; lia. Qed.

Lemma sumCounts_empty_l (a : ICoveredCount) : sumCounts emptyCounts a = a.
Proof. apply counts_eq; simpl; lia. Qed.

Lemma sumCounts_empty_r (a : ICoveredCount) : sumCounts a emptyCounts = a.
Proof. apply counts_eq; simpl; lia. Qed.

(** The running totals after the loop over the children, from the totals
    before it. *)
Lemma fold_addChild_statement (vs : list CoverageValue) :
  forall fileCoverage,
    IFileCoverage.statement (fold_left addChild (map abstract vs) fileCoverage)
    = sumCounts (IFileCoverage.statement fileCoverage) (sum_counts (map statementOf vs)).
Proof.
  induction vs as [|v vs IH]; intros fileCoverage; simpl.
  - now rewrite sumCounts_empty_r.
  - rewrite IH. simpl. now rewrite sumCounts_assoc.
Qed.

Lemma addPresent_cons (running : option ICoveredCount) (o : option ICoveredCount)
    (os : list (option ICoveredCount)) :
  addPresent
    match o with
    | Some c => Some (sumCounts (default emptyCounts running) c)
    | None => running
    end os
  = addPresent running (o :: os).
Proof.
  destruct o as [c|]; [|reflexivity].
  destruct running as [r|]; unfold addPresent, sum_present, present; simpl.
  - now rewrite sumCounts_assoc.
  - now rewrite sumCounts_empty_l.
Qed.

Lemma fold_addChild_branch (vs : list CoverageValue) :
  forall fileCoverage,
    IFileCoverage.branch (fold_left addChild (map abstract vs) fileCoverage)
    = addPresent (IFileCoverage.branch fileCoverage) (map branchOf vs).
Proof.
  induction vs as [|v vs IH]; intros fileCoverage.
  - simpl. destruct (IFileCoverage.branch fileCoverage); simpl; [|reflexivity].
    unfold present. simpl. now rewrite sumCounts_empty_r.
  - cbn [map fold_left]. rewrite IH. cbn [addChild IFileCoverage.branch].
    apply addPresent_cons.
Qed.

Lemma fold_addChild_function (vs : list CoverageValue) :
  forall fileCoverage,
    IFileCoverage.function (fold_left addChild (map abstract vs) fileCoverage)
    = addPresent (IFileCoverage.function fileCoverage) (map functionOf vs).
Proof.
  induction vs as [|v vs IH]; intros fileCoverage.
  - simpl. destruct (IFileCoverage.function fileCoverage); simpl; [|reflexivity].
    unfold present. simpl. now rewrite sumCounts_empty_r.
  - cbn [map fold_left]. rewrite IH. cbn [addChild IFileCoverage.function].
    apply addPresent_cons.
Qed.

(** *** Filled trees *)

Lemma Filled_inv (t0 t1 : TestCoverageFileNode) :
  Filled t0 t1 ->
  Forall2 (fun c0 c1 => fst c0 = fst c1 /\ Filled (snd c0) (snd c1))
          (children t0) (children t1)
  /\ filledValue (value t0) (value t1) (children t1).
Proof. intros H. inversion H; subst. simpl. auto. Qed.

Lemma Filled_value (t0 t1 : TestCoverageFileNode) (v : CoverageValue) :
  Filled t0 t1 -> value t0 = Some v -> value t1 = Some v.
Proof.
  intros H Hv. apply Filled_inv in H as [_ H]. rewrite Hv in H.
  destruct (value t1) as [v'|]; simpl in H; [|contradiction].
  destruct H as [-> _]. reflexivity.
Qed.

Lemma built_Computed (fileCoverage : IFileCoverage.t) :
  built (Computed (AbstractFileCoverage.new fileCoverage)).
Proof. reflexivity. Qed.

Lemma built_File (file : IFileCoverage.t) (i : nat) :
  built (File (FileCoverage.new file i)).
Proof. reflexivity. Qed.

(** Every value of a filled tree is as the constructor leaves it. *)
Lemma Filled_built (t0 t1 : TestCoverageFileNode) (v : CoverageValue) :
  Filled t0 t1 -> value t1 = Some v -> built v.
Proof.
  intros H Hv. apply Filled_inv in H as [_ H]. rewrite Hv in H.
  destruct (value t0) as [v0|]; simpl in H.
  - destruct H as [-> H]. exact H.
  - destruct H as (fc & vs & -> & _). apply built_Computed.
Qed.

Lemma childValues_kept (cs0 cs1 : list (string * TestCoverageFileNode))
    (vs : list CoverageValue) :
  Forall2 (fun c0 c1 => fst c0 = fst c1 /\ Filled (snd c0) (snd c1)) cs0 cs1 ->
  map (fun c => value (snd c)) cs0 = map Some vs ->
  map (fun c => value (snd c)) cs1 = map Some vs.
Proof.
  intros H. revert vs. induction H as [|c0 c1 cs0 cs1 [_ Hc] _ IH]; intros vs Hvs.
  - exact Hvs.
  - destruct vs as [|v vs]; [discriminate|]. simpl in *.
    injection Hvs as Hv Hvs.
    rewrite (Filled_value _ _ _ Hc Hv), (IH _ Hvs). reflexivity.
Qed.

Lemma Filled_refl_r : forall t0 t1, Filled t0 t1 -> Filled t1 t1.
Proof.
  intros t0. induction t0 as [v0 cs0 IH] using Node_induction.
  intros [v1 cs1] H. pose proof (fun v => Filled_built _ _ v H) as Hb.
  apply Filled_inv in H as [Hcs Hv]. simpl in *. constructor.
  - clear Hv Hb. induction Hcs as [|c0 c1 cs0 cs1 [_ Hc] _ IHcs]; [constructor|].
    inversion IH as [|? ? IHc IH']; subst. constructor; [|now apply IHcs].
    split; [reflexivity|]. now apply (IHc _ Hc).
  - destruct v1 as [v1|]; simpl; [|exact I].
    split; [reflexivity|]. now apply (Hb v1).
Qed.

Lemma Filled_trans : forall t0 t1 t2, Filled t0 t1 -> Filled t1 t2 -> Filled t0 t2.
Proof.
  intros t0. induction t0 as [v0 cs0 IH] using Node_induction.
  intros [v1 cs1] [v2 cs2] H01 H12.
  apply Filled_inv in H01 as [Hcs01 Hv01]. apply Filled_inv in H12 as [Hcs12 Hv12].
  simpl in *. constructor.
  - clear Hv01 Hv12. revert cs2 Hcs12.
    induction Hcs01 as [|c0 c1 cs0 cs1 [Hk Hc] _ IHcs]; intros cs2 Hcs12.
    + inversion Hcs12; constructor.
    + inversion Hcs12 as [|? c2 ? cs2' [Hk' Hc'] Hcs12']; subst.
      inversion IH as [|? ? IHc IH']; subst.
      constructor; [|now apply IHcs].
      split; [congruence|]. exact (IHc _ _ Hc Hc').
  - destruct v0 as [v0|], v1 as [v1|]; simpl in Hv01; try contradiction.
    + destruct Hv01 as [-> Hb]. destruct v2 as [v2|]; simpl in *; [|contradiction].
      destruct Hv12 as [-> _]. auto.
    + destruct Hv01 as (fc & vs & -> & Hvs & Hsums).
      destruct v2 as [v2|]; simpl in *; [|contradiction].
      destruct Hv12 as [-> _]. exists fc, vs. split; [reflexivity|].
      split; [|exact Hsums]. exact (childValues_kept _ _ _ Hcs12 Hvs).
    + exact Hv12.
Qed.

(** *** One call of calculateComputed *)

Lemma calculateComputed_valued (path : list string) (node : TestCoverageFileNode)
    (v : CoverageValue) :
  value node = Some v -> calculateComputed path node = (v, node).
Proof. destruct node as [[v'|] cs]; simpl; congruence. Qed.

(** The loop over the children, when every recursive call fills the child it
    is given and returns the value it leaves there. *)
Lemma eachChild_Filled
    (visit : string -> TestCoverageFileNode -> CoverageValue * TestCoverageFileNode)
    (cs : list (string * TestCoverageFileNode)) :
  Forall (fun c => forall p, Filled (snd c) (snd (visit p (snd c)))
                             /\ value (snd (visit p (snd c))) = Some (fst (visit p (snd c)))) cs ->
  forall fileCoverage,
  exists vs,
    Forall2 (fun c0 c1 => fst c0 = fst c1 /\ Filled (snd c0) (snd c1))
            cs (snd (eachChild visit cs fileCoverage))
    /\ map (fun c => value (snd c)) (snd (eachChild visit cs fileCoverage)) = map Some vs
    /\ fst (eachChild visit cs fileCoverage)
       = fold_left addChild (map abstract vs) fileCoverage.
Proof.
  induction 1 as [|[p c] cs Hc _ IH]; intros fileCoverage.
  - exists []. simpl. auto.
  - simpl in Hc. specialize (Hc p). simpl.
    destruct (visit p c) as [v c'] eqn:Hvisit. simpl in Hc. destruct Hc as [Hfill Hval].
    destruct (IH (addChild fileCoverage (abstract v))) as (vs & Hcs & Hvs & Hfc).
    destruct (eachChild visit cs (addChild fileCoverage (abstract v))) as [fc' cs'].
    simpl in *. exists (v :: vs). simpl. repeat split.
    + constructor; [split; [reflexivity|exact Hfill]|exact Hcs].
    + now rewrite Hval, Hvs.
    + exact Hfc.
Qed.

(** A call fills the node it is given and returns the value it leaves
    there. *)
Lemma calculateComputed_Filled :
  forall node path,
    Filled node node ->
    Filled node (snd (calculateComputed path node))
    /\ value (snd (calculateComputed path node)) = Some (fst (calculateComputed path node)).
Proof.
  intros node. induction node as [v cs IH] using Node_induction. intros path Hnode.
  destruct v as [v|]; [split; [exact Hnode|reflexivity]|].
  apply Filled_inv in Hnode as [Hcs _]. simpl in Hcs. simpl.
  set (fc0 := {| IFileCoverage.uri := treePathToUri path;
                 IFileCoverage.statement := emptyCounts;
                 IFileCoverage.branch := None;
                 IFileCoverage.function := None;
                 IFileCoverage.details := None |}).
  set (visit := fun prefix child => calculateComputed (path ++ [prefix]) child).
  assert (Forall (fun c => forall p, Filled (snd c) (snd (visit p (snd c)))
                 /\ value (snd (visit p (snd c))) = Some (fst (visit p (snd c)))) cs) as Hvisit.
  { clear fc0. subst visit. induction cs as [|c cs IHcs]; [constructor|].
    inversion IH as [|? ? IHc IH']; subst.
    inversion Hcs as [|? ? ? ? [_ Hc] Hcs']; subst.
    constructor; [|now apply IHcs].
    intros p. apply IHc. exact Hc. }
  destruct (eachChild_Filled visit cs Hvisit fc0) as (vs & Hcs' & Hvs & Hfc).
  destruct (eachChild visit cs fc0) as [fc cs'] eqn:Heach. simpl in *.
  split; [|reflexivity]. constructor; [exact Hcs'|].
  simpl. exists fc, vs. split; [reflexivity|]. split; [exact Hvs|].
  subst fc. unfold sums.
  rewrite fold_addChild_statement, fold_addChild_branch, fold_addChild_function.
  simpl. rewrite sumCounts_empty_l. auto.
Qed.

(** *** Reading and writing positions *)

Lemma get_Filled (part : string) (cs0 cs1 : list (string * TestCoverageFileNode))
    (c0 : TestCoverageFileNode) :
  Forall2 (fun c0 c1 => fst c0 = fst c1 /\ Filled (snd c0) (snd c1)) cs0 cs1 ->
  get part cs0 = Some c0 ->
  exists c1, get part cs1 = Some c1 /\ Filled c0 c1.
Proof.
  induction 1 as [|[p0 n0] [p1 n1] cs0 cs1 [Hk Hc] _ IH]; simpl; [discriminate|].
  simpl in Hk, Hc. subst p1. destruct (p0 =? part)%string.
  - intros [= <-]. eauto.
  - exact IH.
Qed.

Lemma find_Filled : forall key t0 t1 pos0,
  Filled t0 t1 -> find key t0 = Some pos0 ->
  exists pos1, find key t1 = Some pos1 /\ Filled pos0 pos1.
Proof.
  induction key as [|part key IH]; intros t0 t1 pos0 H Hfind; simpl in *.
  - injection Hfind as <-. eauto.
  - apply Filled_inv in H as [Hcs _].
    destruct (get part (children t0)) as [c0|] eqn:Hget; [|discriminate].
    destruct (get_Filled _ _ _ _ Hcs Hget) as (c1 & -> & Hc).
    exact (IH _ _ _ Hc Hfind).
Qed.

Lemma get_alter_existing {V : Type} (f : Node V -> Node V) (part : string)
    (cs : list (string * Node V)) :
  get part (alter_existing f part cs) = option_map f (get part cs).
Proof.
  induction cs as [|[p c] cs IH]; simpl; [reflexivity|].
  destruct (p =? part)%string eqn:Hp; simpl; rewrite Hp; [reflexivity|exact IH].
Qed.

Lemma find_update {V : Type} (f : Node V -> Node V) :
  forall key t pos, find key t = Some pos -> find key (update key f t) = Some (f pos).
Proof.
  induction key as [|part key IH]; intros t pos Hfind; simpl in *.
  - congruence.
  - rewrite get_alter_existing.
    destruct (get part (children t)) as [c|]; [|discriminate]. simpl. now apply IH.
Qed.

Lemma below_get {V : Type} (part : string) (key : list string) :
  forall (cs : list (string * Node V)) (c : Node V),
    get part cs = Some c -> In key (nodes c) -> In (part :: key) (below nodes cs).
Proof.
  induction cs as [|[p n] cs IH]; intros c Hget Hin; simpl in *; [discriminate|].
  apply in_or_app. destruct (String.eqb_spec p part) as [->|Hne].
  - injection Hget as ->. left. now apply in_map.
  - right. eapply IH; eassumption.
Qed.

(** Every position that find reaches is listed by nodes. *)
Lemma find_nodes {V : Type} : forall key (t pos : Node V),
  find key t = Some pos -> In key (nodes t).
Proof.
  induction key as [|part key IH]; intros [v cs] pos Hfind; simpl in *.
  - now left.
  - right. destruct (get part cs) as [c|] eqn:Hget; [|discriminate].
    eapply below_get; [exact Hget|]. eapply IH; eassumption.
Qed.

Lemma update_Filled (f : TestCoverageFileNode -> TestCoverageFileNode) :
  (forall node, Filled node node -> Filled node (f node)) ->
  forall key t, Filled t t -> Filled t (update key f t).
Proof.
  intros Hf. induction key as [|part key IH]; intros t Ht; simpl; [now apply Hf|].
  destruct t as [v cs]. pose proof Ht as Ht'.
  apply Filled_inv in Ht' as [Hcs Hv]. simpl in *. constructor.
  - clear Hv Ht. induction cs as [|[p c] cs IHcs]; simpl; [constructor|].
    inversion Hcs as [|? ? ? ? [_ Hc] Hcs']; subst. simpl in Hc.
    destruct (p =? part)%string.
    + constructor; [split; [reflexivity|now apply IH]|exact Hcs'].
    + constructor; [split; [reflexivity|exact Hc]|now apply IHcs].
  - destruct v as [v|]; simpl in *; [exact Hv|exact I].
Qed.

(** *** The tree of leaves and the loop over its positions *)

Lemma Filled_empty : Filled empty empty.
Proof. constructor; [constructor|exact I]. Qed.

Lemma insert_Filled (v : CoverageValue) :
  built v -> forall key t, Filled t t -> Filled (insert key v t) (insert key v t).
Proof.
  intros Hv. induction key as [|part key IH]; intros [v0 cs] Ht;
    apply Filled_inv in Ht as [Hcs Hv0]; simpl in *.
  - constructor; [exact Hcs|]. simpl. auto.
  - constructor.
    + clear Hv0. induction cs as [|[p c] cs IHcs]; simpl.
      * constructor; [|constructor]. split; [reflexivity|]. apply IH, Filled_empty.
      * inversion Hcs as [|? ? ? ? [_ Hc] Hcs']; subst. simpl in Hc.
        destruct (p =? part)%string.
        -- constructor; [split; [reflexivity|now apply IH]|exact Hcs'].
        -- constructor; [split; [reflexivity|exact Hc]|now apply IHcs].
    + destruct v0 as [v0|]; simpl in *; [exact Hv0|exact I].
Qed.

Lemma insertFiles_Filled : forall files i t,
  Filled t t -> Filled (insertFiles files i t) (insertFiles files i t).
Proof.
  induction files as [|file files IH]; intros i t Ht; cbn [insertFiles]; [exact Ht|].
  apply IH. apply insert_Filled; [apply built_File|exact Ht].
Qed.

Lemma visitNode_Filled (key : list string) (t : TestCoverageFileNode) :
  Filled t t -> Filled t (visitNode t key).
Proof.
  apply update_Filled. intros node Hnode.
  apply (calculateComputed_Filled node [] Hnode).
Qed.

(** After the loop over [keys] the tree is filled, and each of these
    positions has its value. *)
Lemma visitAll_Filled : forall keys t,
  Filled t t ->
  Filled t (fold_left visitNode keys t)
  /\ forall key pos, In key keys -> find key t = Some pos ->
       exists pos' v, find key (fold_left visitNode keys t) = Some pos'
                      /\ value pos' = Some v.
Proof.
  induction keys as [|k keys IH]; intros t Ht; simpl.
  - split; [exact Ht|]. intros key pos [].
  - pose proof (visitNode_Filled k t Ht) as Hstep.
    destruct (IH _ (Filled_refl_r _ _ Hstep)) as [Hrest Hvalued].
    split; [exact (Filled_trans _ _ _ Hstep Hrest)|].
    intros key pos [->|Hin] Hfind.
    + destruct (find_Filled _ _ _ _ Ht Hfind) as (pos1 & Hfind1 & Hpos).
      rewrite Hfind in Hfind1. injection Hfind1 as <-.
      pose proof (find_update (fun node => snd (calculateComputed [] node)) _ _ _ Hfind)
        as Hvisited.
      destruct (calculateComputed_Filled pos [] Hpos) as [_ Hval].
      destruct (find_Filled _ _ _ _ Hrest Hvisited) as (pos' & Hfind' & Hpos').
      exists pos', (fst (calculateComputed [] pos)). split; [exact Hfind'|].
      exact (Filled_value _ _ _ Hpos' Hval).
    + destruct (find_Filled _ _ _ _ Hstep Hfind) as (pos1 & Hfind1 & _).
      exact (Hvalued _ _ Hin Hfind1).
Qed.

Lemma createFileCoverage_Filled (files : list IFileCoverage.t) :
  Filled (insertFiles files 0 empty) (createFileCoverage files)
  /\ forall key pos, find key (insertFiles files 0 empty) = Some pos ->
       exists pos' v, find key (createFileCoverage files) = Some pos'
                      /\ value pos' = Some v.
Proof.
  pose proof (insertFiles_Filled files 0 empty Filled_empty) as H0.
  destruct (visitAll_Filled (nodes (insertFiles files 0 empty)) _ H0) as [Hfill Hval].
  split; [exact Hfill|].
  intros key pos Hfind. eapply Hval; [|exact Hfind].
  eapply find_nodes; exact Hfind.
Qed.

Lemma children_keys (cs0 cs1 : list (string * TestCoverageFileNode)) :
  Forall2 (fun c0 c1 => fst c0 = fst c1 /\ Filled (snd c0) (snd c1)) cs0 cs1 ->
  map fst cs1 = map fst cs0.
Proof.
  induction 1 as [|c0 c1 cs0 cs1 [Hk _] _ IH]; simpl; [reflexivity|congruence].
Qed.

Lemma children_built (cs0 cs1 : list (string * TestCoverageFileNode))
    (vs : list CoverageValue) :
  Forall2 (fun c0 c1 => fst c0 = fst c1 /\ Filled (snd c0) (snd c1)) cs0 cs1 ->
  map (fun c => value (snd c)) cs1 = map Some vs ->
  map functionOf vs = map branchOf vs.
Proof.
  intros H. revert vs. induction H as [|c0 c1 cs0 cs1 [_ Hc] _ IH]; intros [|v vs] Hvs;
    simpl in *; try discriminate; [reflexivity|].
  injection Hvs as Hv Hvs. f_equal; [|now apply IH].
  exact (Filled_built _ _ _ Hc Hv).
Qed.

Lemma sum_present_Some (os : list (option ICoveredCount)) :
  is_Some (sum_present os) <-> exists c, In (Some c) os.
Proof.
  unfold sum_present, present. split.
  - intros Hsome. induction os as [|[c|] os IH]; simpl in *.
    + destruct Hsome; discriminate.
    + eauto.
    + destruct (IH Hsome) as [c Hc]. eauto.
  - intros [c Hc]. induction os as [|[c'|] os IH]; simpl in *.
    + contradiction.
    + eauto.
    + destruct Hc as [|Hc]; [discriminate|]. auto.
Qed.

(** C6, as the source has it.  The pass leaves a position that holds a leaf
    with that leaf; at every position without a value it stores an aggregate
    whose statement count is the componentwise sum of the statement counts of
    its children, and whose branch (function) count is the componentwise sum
    over the children that have one, present exactly when at least one child
    has that category.  With the leaves a/b/x {1,2} and a/b/y {3,4} the
    aggregate at a/b has statement {4,6} and the aggregate at a has the same
    counts. *)
Theorem aggregation_pass :
  (forall files key pos0,
      find key (insertFiles files 0 empty) = Some pos0 ->
      exists pos1,
        find key (createFileCoverage files) = Some pos1
        /\ map fst (children pos1) = map fst (children pos0)
        /\ match value pos0 with
           | Some leaf => value pos1 = Some leaf
           | None =>
               exists aggregate vs,
                 value pos1 = Some (Computed aggregate)
                 /\ childValues pos1 = map Some vs
                 /\ AbstractFileCoverage.statement aggregate
                    = sum_counts (map statementOf vs)
                 /\ AbstractFileCoverage.branch aggregate
                    = sum_present (map branchOf vs)
                 /\ AbstractFileCoverage.function aggregate
                    = sum_present (map functionOf vs)
                 /\ (is_Some (AbstractFileCoverage.branch aggregate)
                     <-> exists v, In v vs /\ is_Some (branchOf v))
                 /\ (is_Some (AbstractFileCoverage.function aggregate)
                     <-> exists v, In v vs /\ is_Some (functionOf v))
           end)
  /\ countsAt ["file"; ""; ""; "a"; "b"] (createFileCoverage twoLeaves)
     = Some (counts 4 6, None, None)
  /\ countsAt ["file"; ""; ""; "a"] (createFileCoverage twoLeaves)
     = countsAt ["file"; ""; ""; "a"; "b"] (createFileCoverage twoLeaves).
Proof.
  split; [|split; vm_compute; reflexivity].
  intros files key pos0 Hfind.
  destruct (createFileCoverage_Filled files) as [Hfill Hvalued].
  destruct (find_Filled _ _ _ _ Hfill Hfind) as (pos1 & Hfind1 & Hpos).
  destruct (Hvalued _ _ Hfind) as (pos1' & v1 & Hfind1' & Hv1).
  rewrite Hfind1 in Hfind1'. injection Hfind1' as <-.
  exists pos1. split; [exact Hfind1|].
  apply Filled_inv in Hpos as [Hcs Hval].
  split; [exact (children_keys _ _ Hcs)|].
  rewrite Hv1 in Hval. destruct (value pos0) as [leaf|]; simpl in Hval.
  - destruct Hval as [-> _]. exact Hv1.
  - destruct Hval as (fc & vs & -> & Hvs & Hstatement & Hbranch & Hfunction).
    pose proof (children_built _ _ _ Hcs Hvs) as Hbuilt.
    assert (forall (get : CoverageValue -> option ICoveredCount),
               (exists c, In (Some c) (map get vs))
               <-> exists v, In v vs /\ is_Some (get v)) as Hin.
    { intros get. split.
      - intros [c Hc]. apply in_map_iff in Hc as (v & Hv & Hin). eauto.
      - intros (v & Hin & [c Hc]). exists c. rewrite <- Hc. now apply in_map. }
    exists (AbstractFileCoverage.new fc), vs. simpl.
    split; [exact Hv1|]. split; [exact Hvs|]. split; [exact Hstatement|].
    split; [exact Hbranch|]. split; [now rewrite Hbuilt|].
    split.
    + rewrite Hbranch, sum_present_Some. apply Hin.
    + rewrite Hbranch, <- Hbuilt, sum_present_Some. apply Hin.
Qed.

(** The position a/b of the two leaves holds no value before the pass and an
    aggregate after it. *)
Lemma aggregation_pass_witness :
  exists pos1,
    find ["file"; ""; ""; "a"; "b"] (createFileCoverage twoLeaves) = Some pos1
    /\ exists aggregate, value pos1 = Some (Computed aggregate).
Proof.
  destruct (proj1 aggregation_pass twoLeaves ["file"; ""; ""; "a"; "b"]
              (mkNode None [("x", mkNode (Some (File (FileCoverage.new (fileAt "/a/b/x" (counts 1 2) None None) 0))) []);
                            ("y", mkNode (Some (File (FileCoverage.new (fileAt "/a/b/y" (counts 3 4) None None) 0))) [])])
              eq_refl)
    as (pos1 & Hfind & _ & aggregate & vs & Hvalue & _).
  exists pos1. split; [exact Hfind|]. exists aggregate. exact Hvalue.
Defined.

(** C6 as the claim states it fails on a leaf that lies below another leaf:
    the position above /a holds no value before the pass; its aggregate has
    no branch count, though the leaf /a/b, a descendant of it, has one.  The
    child /a is a leaf and is returned as it is, without its own children.
    (Each triple lists the statement, branch and function counts of a value;
    the function count of a leaf repeats its branch count, as the constructor
    assigns it.) *)
Lemma aggregation_descendant_counterexample :
  option_map value (find ["file"; ""; ""] (insertFiles nestedLeaves 0 empty)) = Some None
  /\ countsAt ["file"; ""; ""] (createFileCoverage nestedLeaves)
     = Some (counts 1 1, None, None)
  /\ countsAt ["file"; ""; ""; "a"; "b"] (createFileCoverage nestedLeaves)
     = Some (counts 1 1, Some (counts 1 1), Some (counts 1 1)).
Proof. repeat split. Qed.

(** ** Runs of asynchronous calls *)

Section SchedulerFacts.
Context {World Awaited Result Answer : Type}.
Variable enter : World -> Awaited * World.
Variable resume : Awaited -> World -> option (Outcome Result * World).
Variable settle : nat -> Answered Answer -> World -> World.

#[local] Abbreviation step' := (step enter resume settle).
#[local] Abbreviation run' := (run enter resume settle).

Lemma run_snoc (w : World) (trace : list (Event Answer)) (ev : Event Answer) :
  run' w (trace ++ [ev]) = step' (run' w trace) ev.
Proof. unfold run. now rewrite fold_left_app. Qed.

(** A property of the initial state that every step allowed by [allowed]
    keeps holds after every run of allowed steps. *)
Lemma run_invariant (Inv : Run World Awaited Result -> Prop)
    (allowed : Event Answer -> Prop) (w : World) :
  Inv {| world := w; calls := [] |} ->
  (forall r ev, allowed ev -> Inv r -> Inv (step' r ev)) ->
  forall trace, Forall allowed trace -> Inv (run' w trace).
Proof.
  intros Hinit Hstep trace. induction trace as [|ev trace IH] using rev_ind; intros Hall.
  - exact Hinit.
  - apply Forall_app in Hall as [Hall Hev]. inversion Hev; subst.
    rewrite run_snoc. apply Hstep; auto.
Qed.




End SchedulerFacts.


(** ** getAllFiles *)











(** ** FileCoverage.details *)




Lemma entriesKept_step (entries : list CoverageDetails) (r : DetailsRun)
    (ev : Event (list CoverageDetails)) :
  entriesKept entries r -> entriesKept entries (stepDetails r ev).
Proof.
  intros (Hfield & Hresolved & Hall). destruct r as [s cs]. simpl in *.
  destruct ev as [|p answer|c]; simpl.
  - unfold Details.details_enter. rewrite Hfield. simpl.
    repeat split; auto. apply Forall_app. split; [exact Hall|]. now constructor.
  - repeat split; auto.
  - destruct (cs !! c) as [[awaited|awaited outcome]|] eqn:Hc;
      try (repeat split; auto; fail).
    pose proof (proj1 (Forall_lookup _ _) Hall _ _ Hc) as Hawaited.
    simpl in Hawaited. subst awaited. simpl.
    repeat split; auto. apply Forall_insert; [exact Hall|]. auto.
Qed.






(** C10.  A leaf built from a record that carries entries returns these
    entries from every call of details, and the resolver is never called for
    it: after any calls, answers and returns, no call of the resolver has
    been made, the calls that have returned have returned the entries, and a
    call that is suspended returns them when it resumes. *)
Theorem details_inline (file : IFileCoverage.t) (index : nat)
    (entries : list CoverageDetails) (trace : list (Event (list CoverageDetails))) :
  IFileCoverage.details file = Some entries ->
  Details.resolved (world (runDetails (FileCoverage.new file index) trace)) = []
  /\ (forall c awaited outcome,
         calls (runDetails (FileCoverage.new file index) trace) !! c
           = Some (Returned awaited outcome) ->
         outcome = inl entries)
  /\ (forall c awaited,
         calls (runDetails (FileCoverage.new file index) trace) !! c
           = Some (Suspended awaited) ->
         Details.details_resume awaited
             (world (runDetails (FileCoverage.new file index) trace))
         = Some (inl entries, world (runDetails (FileCoverage.new file index) trace))).
Proof.
  intros Hentries.
  assert (entriesKept entries (runDetails (FileCoverage.new file index) trace))
    as (Hfield & Hresolved & Hall).
  { apply (run_invariant _ _ _ (entriesKept entries) (fun _ => True)).
    - repeat split; simpl; [now rewrite Hentries|constructor].
    - intros r ev _. apply entriesKept_step.
    - now apply Forall_forall. }
  split; [exact Hresolved|]. split.
  - intros c awaited outcome Hc.
    exact (proj2 (proj1 (Forall_lookup _ _) Hall _ _ Hc)).
  - intros c awaited Hc.
    pose proof (proj1 (Forall_lookup _ _) Hall _ _ Hc) as Hawaited. simpl in Hawaited.
    now subst awaited.
Qed.

(** A call and its return on a leaf built with two entries. *)
Lemma details_inline_witness :
  Details.resolved
    (world (runDetails (FileCoverage.new fileWithEntries 0) [Call; Resumes 0])) = [].
Proof.
  exact (proj1 (details_inline fileWithEntries 0 [DetailEntry 1; DetailEntry 2]
                  [Call; Resumes 0] eq_refl)).
Defined.

(** ** Where the source departs from the claims *)

(** C2 (the source departs from the claim).  The constructor assigns the
    branch count of the record to the function count of the node: a record
    with a function count and no branch count yields a node without function
    count. *)
Theorem constructor_function_is_branch :
  (forall coverage,
      AbstractFileCoverage.function (AbstractFileCoverage.new coverage)
      = IFileCoverage.branch coverage)
  /\ IFileCoverage.function fileWithFunctions = Some (counts 1 2)
  /\ AbstractFileCoverage.function (AbstractFileCoverage.new fileWithFunctions) = None
  /\ AbstractFileCoverage.branch (AbstractFileCoverage.new fileWithFunctions) = None.
Proof. repeat split. Qed.

(** C1 (the source departs from the claim).  A leaf is inserted under the
    scheme, the authority and the segments of the path; getUri looks up the
    segments of the path alone, a key that is two elements shorter.  For the
    leaf a/b/x of the two leaves the tree has the leaf at the key of
    insertion, and getUri returns undefined. *)
Theorem getUri_looks_up_path_only :
  (forall uri,
      length (treePathForUri uri) = S (S (length (split "/" (URI.path uri)))))
  /\ (let uri := URI.from "file" "" "/a/b/x" in
      leafAt (treePathForUri uri) (createFileCoverage twoLeaves)
      = Some (FileCoverage.new (fileAt "/a/b/x" (counts 1 2) None None) 0)
      /\ TestCoverage.getUri_resume uri (fst (answeredSession twoLeaves))
                                    (snd (answeredSession twoLeaves))
         = Some (inl None, snd (answeredSession twoLeaves))).
Proof. split; [reflexivity|]. split; vm_compute; reflexivity. Qed.

(** C3 (the source departs from the claim).  The loop builds every leaf with
    index 0, whatever the position of its record in the list: the leaf of
    a/b/y, the record at position 1 of the two leaves, stores index 0, and
    its call of details asks the resolver for fileIndex 0. *)
Theorem leaf_index_is_zero :
  (forall file files i tree,
      insertFiles (file :: files) i tree
      = insertFiles files (S i)
          (insert (treePathForUri (IFileCoverage.uri file))
                  (File (FileCoverage.new file 0)) tree))
  /\ nth_error twoLeaves 1 = Some (fileAt "/a/b/y" (counts 3 4) None None)
  /\ leafAt ["file"; ""; ""; "a"; "b"; "y"] (createFileCoverage twoLeaves)
     = Some (FileCoverage.new (fileAt "/a/b/y" (counts 3 4) None None) 0)
  /\ Details.resolved
       (snd (Details.details_enter
               (Details.of_leaf (FileCoverage.new (fileAt "/a/b/y" (counts 3 4) None None) 0))))
     = [0%nat].
Proof. repeat split. Qed.

(** * Further properties of the sources *)

(** ** The modes of the Metric Selector against each other *)

Lemma num_add (a b : N) : num (a + b) == num a + num b.
Proof. unfold num. now rewrite N2Z.inj_add, inject_Z_plus. Qed.

(** A percent bounds the covered count from below: a number that does not
    exceed the percent of a category, taken [total] times, does not exceed
    [covered]. *)
Lemma percent_lower (c : ICoveredCount) (m : Q) :
  (m <= percent c)%Q -> (m * num (total c) <= num (covered c))%Q.
Proof.
  unfold percent. destruct (N.eqb_spec (total c) 0) as [Hz|Hnz]; intros Hm.
  - rewrite Hz. change (num 0) with 0%Q. rewrite Qmult_0_r. apply num_nonneg.
  - pose proof (num_pos _ Hnz) as Hpos.
    apply Qle_trans with (num (covered c) / num (total c) * num (total c))%Q.
    + apply Qmult_le_compat_r; [exact Hm|]. now apply Qlt_le_weak.
    + unfold Qdiv. rewrite <- Qmult_assoc, (Qmult_comm (/ _)), Qmult_inv_r, Qmult_1_r;
        [apply Qle_refl|]. intros Heq. rewrite Heq in Hpos. discriminate.
Qed.

Lemma sums_lower (cs : list ICoveredCount) (m : Q) :
  (forall c, In c cs -> (m <= percent c)%Q) ->
  (m * num (sum_total cs) <= num (sum_covered cs))%Q.
Proof.
  unfold sum_total, sum_covered.
  induction cs as [|c cs IH]; intros Hm; simpl.
  - change (num 0) with 0%Q. rewrite Qmult_0_r. apply Qle_refl.
  - rewrite !num_add, Qmult_plus_distr_r. apply Qplus_le_compat.
    + apply percent_lower. apply Hm. now left.
    + apply IH. intros c' Hc'. apply Hm. now right.
Qed.

Lemma sum_total_zero_inv (cs : list ICoveredCount) (c : ICoveredCount) :
  sum_total cs = 0%N -> In c cs -> total c = 0%N.
Proof.
  unfold sum_total. induction cs as [|c' cs IH]; simpl; [contradiction|].
  intros Hsum [->|Hin]; [lia|]. apply IH; [lia|exact Hin].
Qed.

(** The percent Minimum mode selects never exceeds the percent of Statement
    mode nor the percent of Total-coverage mode: the weighted ratio tpc is
    not below the least of the category percents, whatever the counts. *)
Theorem minimum_mode_is_lowest (n : AbstractFileCoverage.t) :
  (calculateDisplayedStat n Minimum <= calculateDisplayedStat n Statement)%Q
  /\ (calculateDisplayedStat n Minimum <= calculateDisplayedStat n TotalCoverage)%Q.
Proof.
  assert (In (percent (AbstractFileCoverage.statement n))
             (map percent (present_categories n))) as Hstatement by now left.
  split; [now apply minimum_is_least|].
  cbn [calculateDisplayedStat]. rewrite tpc_unfold.
  assert (forall c, In c (present_categories n) ->
                    (calculateDisplayedStat n Minimum <= percent c)%Q) as Hleast.
  { intros c Hc. apply minimum_is_least. now apply in_map. }
  destruct (N.eqb_spec (sum_total (present_categories n)) 0) as [Hz|Hnz].
  - eapply Qle_trans; [apply (Hleast (AbstractFileCoverage.statement n)); now left|].
    unfold percent.
    rewrite (sum_total_zero_inv _ (AbstractFileCoverage.statement n) Hz) by now left.
    apply Qle_refl.
  - apply Qle_shift_div_l; [now apply num_pos|]. now apply sums_lower.
Qed.

(** ** The key of an identifier and back *)

Lemma split_not_nil (sep : ascii) (s : string) : split sep s <> [].
Proof.
  destruct s as [|c s]; simpl; [discriminate|].
  destruct (Ascii.eqb c sep); [discriminate|].
  destruct (split sep s); discriminate.
Qed.

(** Joining the pieces of a split with the separator gives the string
    back. *)
Lemma concat_split (sep : ascii) (s : string) :
  String.concat (String sep "") (split sep s) = s.
Proof.
  induction s as [|c s IH]; [reflexivity|]. simpl split.
  destruct (Ascii.eqb_spec c sep) as [->|Hne].
  - pose proof (split_not_nil sep s) as Hnil.
    destruct (split sep s) as [|piece pieces]; [contradiction|].
    change (String.concat (String sep "") ("" :: piece :: pieces))
      with (String sep (String.concat (String sep "") (piece :: pieces))).
    now rewrite IH.
  - pose proof (split_not_nil sep s) as Hnil.
    destruct (split sep s) as [|piece pieces]; [contradiction|].
    destruct pieces as [|piece' pieces].
    + simpl in *. now rewrite IH.
    + change (String.concat (String sep "") (String c piece :: piece' :: pieces))
        with (String c (piece ++ String sep "" ++ String.concat (String sep "") (piece' :: pieces))).
      change (String.concat (String sep "") (piece :: piece' :: pieces))
        with (piece ++ String sep "" ++ String.concat (String sep "") (piece' :: pieces)) in IH.
      now rewrite IH.
Qed.

Lemma treePathToUri_of_key (uri : URI.t) : treePathToUri (treePathForUri uri) = uri.
Proof.
  destruct uri as [scheme authority path]. unfold treePathToUri, treePathForUri.
  cbn [nth URI.scheme URI.authority URI.path].
  f_equal. exact (concat_split "/" path).
Qed.

Lemma treePathForUri_injective (uri1 uri2 : URI.t) :
  treePathForUri uri1 = treePathForUri uri2 -> uri1 = uri2.
Proof.
  intros Heq. rewrite <- (treePathToUri_of_key uri1), <- (treePathToUri_of_key uri2).
  now rewrite Heq.
Qed.

(** Decoding the key of an identifier gives URI.from the scheme, the
    authority and the path of that identifier; so two identifiers that differ
    in one of the three have different keys. *)
Theorem treePath_round_trip :
  (forall uri, treePathToUri (treePathForUri uri) = uri)
  /\ (forall uri1 uri2, treePathForUri uri1 = treePathForUri uri2 -> uri1 = uri2).
Proof. split; [exact treePathToUri_of_key|exact treePathForUri_injective]. Qed.

(** ** Insertion and lookup in the prefix tree *)

Lemma get_alter_child_same {V : Type} (f : Node V -> Node V) (part : string)
    (cs : list (string * Node V)) :
  get part (alter_child f part cs) = Some (f (default empty (get part cs))).
Proof.
  induction cs as [|[p c] cs IH]; simpl.
  - now rewrite String.eqb_refl.
  - destruct (p =? part)%string eqn:Hp; simpl; rewrite Hp; [reflexivity|exact IH].
Qed.

Lemma get_alter_child_other {V : Type} (f : Node V -> Node V) (part p' : string)
    (cs : list (string * Node V)) :
  p' <> part -> get p' (alter_child f part cs) = get p' cs.
Proof.
  intros Hne. induction cs as [|[p c] cs IH]; simpl.
  - destruct (String.eqb_spec part p'); [congruence|reflexivity].
  - destruct (String.eqb_spec p part) as [->|Hp]; simpl.
    + destruct (String.eqb_spec part p'); [congruence|reflexivity].
    + destruct (p =? p')%string; [reflexivity|exact IH].
Qed.

Lemma valueAt_insert_same {V : Type} (v : V) :
  forall key (t : Node V), valueAt key (insert key v t) = Some v.
Proof.
  unfold valueAt. induction key as [|part key IH]; intros t; simpl; [reflexivity|].
  rewrite get_alter_child_same. apply IH.
Qed.

Lemma valueAt_insert_other {V : Type} (v : V) :
  forall key key' (t : Node V),
    key' <> key -> valueAt key' (insert key v t) = valueAt key' t.
Proof.
  unfold valueAt. induction key as [|part key IH]; intros [|part' key'] t Hne; simpl;
    try congruence.
  destruct (String.eqb_spec part' part) as [->|Hpart].
    + rewrite get_alter_child_same.
      assert (key' <> key) as Hkey by congruence.
      rewrite (IH key' _ Hkey).
      destruct (get part (children t)) as [c|]; simpl; [reflexivity|].
      now destruct key'.
    + now rewrite get_alter_child_other.
Qed.

(** The positions after an insertion: those there were, and the prefixes of
    the key. *)
Lemma find_insert_positions {V : Type} (v : V) :
  forall key key' (t : Node V),
    is_Some (find key' (insert key v t))
    <-> is_Some (find key' t) \/ key' `prefix_of` key.
Proof.
  induction key as [|part key IH]; intros [|part' key'] t; simpl.
  - split; [now left|eauto].
  - split; [now left|]. intros [H|H]; [exact H|].
    destruct H as [rest Hrest]. discriminate.
  - split; [now left|eauto].
  - destruct (String.eqb_spec part' part) as [->|Hpart].
    + rewrite get_alter_child_same, IH.
      destruct (get part (children t)) as [c|]; simpl.
      * split; (intros [H|H]; [now left|right]).
        -- now apply prefix_cons.
        -- now apply prefix_cons_inv_2 in H.
      * split; (intros [H|H]).
        -- destruct key'; simpl in H; [right; apply prefix_cons, prefix_nil|].
           destruct H; discriminate.
        -- right. now apply prefix_cons.
        -- destruct H; discriminate.
        -- right. now apply prefix_cons_inv_2 in H.
    + rewrite get_alter_child_other by exact Hpart.
      split; [now left|]. intros [H|H]; [exact H|].
      apply prefix_cons_inv_1 in H. congruence.
Qed.

Lemma insertFiles_app : forall files files' i tree,
  insertFiles (files ++ files') i tree
  = insertFiles files' (i + length files) (insertFiles files i tree).
Proof.
  induction files as [|file files IH]; intros files' i tree; simpl.
  - now rewrite Nat.add_0_r.
  - rewrite IH. f_equal. lia.
Qed.

Lemma valueAt_insertFiles_other (key : list string) :
  forall files i tree,
    (forall file, In file files -> keyOf file <> key) ->
    valueAt key (insertFiles files i tree) = valueAt key tree.
Proof.
  induction files as [|file files IH]; intros i tree Hother; cbn [insertFiles];
    [reflexivity|].
  rewrite IH by (intros g Hg; apply Hother; now right).
  apply valueAt_insert_other. intros Heq. apply (Hother file); [now left|].
  now symmetry.
Qed.

Lemma find_insertFiles_positions (key : list string) :
  forall files i tree,
    is_Some (find key (insertFiles files i tree))
    <-> is_Some (find key tree)
        \/ exists file, In file files /\ key `prefix_of` keyOf file.
Proof.
  induction files as [|file files IH]; intros i tree; cbn [insertFiles].
  - split; [now left|]. intros [H|(file & [] & _)]. exact H.
  - rewrite IH, find_insert_positions. split.
    + intros [[H|H]|(g & Hg & H)]; [now left|right..].
      * exists file. split; [now left|exact H].
      * exists g. split; [now right|exact H].
    + intros [H|(g & [->|Hg] & H)]; [left; now left|left; now right|right; eauto].
Qed.

Lemma find_Filled_back : forall key t0 t1 pos1,
  Filled t0 t1 -> find key t1 = Some pos1 ->
  exists pos0, find key t0 = Some pos0 /\ Filled pos0 pos1.
Proof.
  induction key as [|part key IH]; intros t0 t1 pos1 H Hfind; simpl in *.
  - injection Hfind as <-. eauto.
  - apply Filled_inv in H as [Hcs _].
    destruct (get part (children t1)) as [c1|] eqn:Hget; [|discriminate].
    assert (exists c0, get part (children t0) = Some c0 /\ Filled c0 c1) as (c0 & -> & Hc).
    { clear Hfind. induction Hcs as [|[p0 n0] [p1 n1] cs0 cs1 [Hk Hc] _ IHcs];
        simpl in *; [discriminate|]. subst p1.
      destruct (p0 =? part)%string; [injection Hget as <-; eauto|now apply IHcs]. }
    exact (IH _ _ _ Hc Hfind).
Qed.

(** The leaf of a reported file is found at the key of the file after the
    construction of the tree, with the counts the constructor gives it,
    unless a later record of the list has the same identifier: the pass over
    the positions keeps every leaf. *)
Theorem createFileCoverage_keeps_leaf (before after : list IFileCoverage.t)
    (file : IFileCoverage.t) :
  (forall later, In later after -> IFileCoverage.uri later <> IFileCoverage.uri file) ->
  valueAt (keyOf file) (createFileCoverage (before ++ file :: after))
  = Some (File (FileCoverage.new file 0)).
Proof.
  intros Hlater.
  assert (valueAt (keyOf file) (insertFiles (before ++ file :: after) 0 empty)
          = Some (File (FileCoverage.new file 0))) as Hleaf.
  { rewrite insertFiles_app. cbn [insertFiles].
    rewrite valueAt_insertFiles_other.
    - apply valueAt_insert_same.
    - intros later Hin Hkey. apply (Hlater later Hin).
      now apply treePathForUri_injective. }
  unfold valueAt in *.
  destruct (find (keyOf file) (insertFiles (before ++ file :: after) 0 empty))
    as [pos0|] eqn:Hfind; [|discriminate].
  destruct (createFileCoverage_Filled (before ++ file :: after)) as [Hfill _].
  destruct (find_Filled _ _ _ _ Hfill Hfind) as (pos1 & -> & Hpos).
  exact (Filled_value _ _ _ Hpos Hleaf).
Qed.

Lemma find_empty {V : Type} (key : list string) :
  is_Some (find key (@empty V)) <-> key = [].
Proof.
  destruct key as [|part key]; simpl.
  - split; eauto.
  - split; [intros [? [=]]|discriminate].
Qed.

(** The positions of the constructed tree are the root and the prefixes of
    the keys of the reported files, and every position holds a value: the
    leaf inserted there or the aggregate the pass stored. *)
Theorem createFileCoverage_positions (files : list IFileCoverage.t) (key : list string) :
  (is_Some (find key (createFileCoverage files))
   <-> key = [] \/ exists file, In file files /\ key `prefix_of` keyOf file)
  /\ (forall pos, find key (createFileCoverage files) = Some pos -> is_Some (value pos)).
Proof.
  destruct (createFileCoverage_Filled files) as [Hfill Hvalued].
  assert (is_Some (find key (createFileCoverage files))
          <-> is_Some (find key (insertFiles files 0 empty))) as Hsame.
  { split; intros [pos Hpos].
    - destruct (find_Filled_back _ _ _ _ Hfill Hpos) as (pos0 & -> & _). eauto.
    - destruct (find_Filled _ _ _ _ Hfill Hpos) as (pos1 & -> & _). eauto. }
  split.
  - now rewrite Hsame, find_insertFiles_positions, find_empty.
  - intros pos Hpos.
    destruct (find_Filled_back _ _ _ _ Hfill Hpos) as (pos0 & Hpos0 & _).
    destruct (Hvalued _ _ Hpos0) as (pos' & v & Hpos' & Hv).
    rewrite Hpos in Hpos'. injection Hpos' as <-. eauto.
Qed.

(** ** Aggregates as sums over all leaves *)

Lemma sum_counts_app (a b : list ICoveredCount) :
  sum_counts (a ++ b) = sumCounts (sum_counts a) (sum_counts b).
Proof.
  apply counts_eq; unfold sum_counts, sum_covered, sum_total; simpl;
    induction a as [|c a IH]; simpl; lia.
Qed.

Lemma sum_present_cons (o : option ICoveredCount) (os : list (option ICoveredCount)) :
  sum_present (o :: os) = addOptional o (sum_present os).
Proof.
  destruct o as [c|]; [|reflexivity]. unfold sum_present.
  change (present (Some c :: os)) with (c :: present os).
  destruct (present os) as [|c' cs]; simpl; [|reflexivity].
  f_equal. apply counts_eq; unfold sum_counts, sum_covered, sum_total; simpl; lia.
Qed.

Lemma addOptional_assoc (a b c : option ICoveredCount) :
  addOptional (addOptional a b) c = addOptional a (addOptional b c).
Proof.
  destruct a, b, c; simpl; try reflexivity. now rewrite sumCounts_assoc.
Qed.

Lemma sum_present_app (a b : list (option ICoveredCount)) :
  sum_present (a ++ b) = addOptional (sum_present a) (sum_present b).
Proof.
  induction a as [|o a IH]; [reflexivity|].
  change ((o :: a) ++ b)%list with (o :: (a ++ b))%list.
  now rewrite !sum_present_cons, IH, addOptional_assoc.
Qed.

Lemma leafless_children {V : Type} (v : option V) (cs : list (string * Node V)) :
  leafless (mkNode v cs) = true -> allChildren leafless cs = true.
Proof. simpl. destruct v, cs; auto. discriminate. Qed.

Lemma leafless_find {V : Type} : forall key (t pos : Node V),
  leafless t = true -> find key t = Some pos -> leafless pos = true.
Proof.
  induction key as [|part key IH]; intros [v cs] pos Ht Hfind; simpl in Hfind.
  - now injection Hfind as <-.
  - apply leafless_children in Ht.
    destruct (get part cs) as [c|] eqn:Hget; [|discriminate].
    apply (IH c pos); [|exact Hfind]. clear Hfind.
    induction cs as [|[p n] cs IHcs]; simpl in *; [discriminate|].
    apply andb_true_iff in Ht as [Hn Hcs].
    destruct (p =? part)%string; [now injection Hget as <-|now apply IHcs].
Qed.

(** In a filled tree without a leaf below a leaf, the value of a position
    holds the sums over all the leaves at and below the position. *)
Lemma Filled_sums_leaves : forall t0 t1 v,
  Filled t0 t1 -> leafless t0 = true -> value t1 = Some v ->
  statementOf v = sum_counts (map statementOf (valuesBelow t0))
  /\ branchOf v = sum_present (map branchOf (valuesBelow t0))
  /\ functionOf v = sum_present (map functionOf (valuesBelow t0)).
Proof.
  intros t0. induction t0 as [v0 cs0 IH] using Node_induction.
  intros [v1 cs1] v Hfill Hleafless Hv. simpl in Hv. subst v1.
  apply Filled_inv in Hfill as [Hcs Hval]. simpl in Hcs, Hval.
  destruct v0 as [leaf|].
  - destruct Hval as [-> _]. destruct cs0; [|discriminate]. simpl.
    repeat split.
    + apply counts_eq; unfold sum_counts, sum_covered, sum_total; simpl; lia.
    + rewrite sum_present_cons. now destruct (branchOf leaf).
    + rewrite sum_present_cons. now destruct (functionOf leaf).
  - destruct Hval as (fc & vs & -> & Hvs & Hstatement & Hbranch & Hfunction).
    apply leafless_children in Hleafless.
    unfold statementOf, branchOf, functionOf. cbn [abstract valuesBelow option_list app].
    cbn [AbstractFileCoverage.new AbstractFileCoverage.statement
         AbstractFileCoverage.branch AbstractFileCoverage.function].
    assert (map functionOf vs = map branchOf vs) as Hbuilt
      by exact (children_built _ _ _ Hcs Hvs).
    rewrite Hstatement, Hbranch. clear Hstatement Hbranch Hfunction fc.
    assert (sum_counts (map statementOf vs)
            = sum_counts (map statementOf (valuesOfChildren valuesBelow cs0))
            /\ sum_present (map branchOf vs)
               = sum_present (map branchOf (valuesOfChildren valuesBelow cs0))
            /\ sum_present (map functionOf vs)
               = sum_present (map functionOf (valuesOfChildren valuesBelow cs0)))
      as (Hs & Hb & Hf).
    { clear Hbuilt. revert vs Hvs.
      induction Hcs as [|[p0 c0] [p1 c1] cs0 cs1 [_ Hc] _ IHcs]; intros vs Hvs.
      - destruct vs; [|discriminate]. auto.
      - destruct vs as [|v vs]; [discriminate|]. simpl in Hvs, Hc.
        injection Hvs as Hv Hvs.
        inversion IH as [|? ? IHc IH']; subst. simpl in IHc, Hleafless.
        apply andb_true_iff in Hleafless as [Hc0 Hcs0].
        destruct (IHc _ _ Hc Hc0 Hv) as (Hs & Hb & Hf).
        destruct (IHcs IH' Hcs0 _ Hvs) as (Hss & Hbs & Hfs).
        cbn [valuesOfChildren map].
        rewrite !map_app, sum_counts_app, !sum_present_app, <- Hss, <- Hbs, <- Hfs,
          <- Hs, <- Hb, <- Hf.
        rewrite !sum_present_cons. auto. }
    split; [exact Hs|]. split; [exact Hb|].
    rewrite <- Hbuilt. exact Hf.
Qed.

(** When no reported file lies below another, every position of the
    constructed tree holds the componentwise sums over all the leaves at and
    below it: the statement counts of all of them, and the branch (function)
    counts of those that have one. *)
Theorem aggregate_sums_leaves (files : list IFileCoverage.t) (key : list string)
    (pos0 : TestCoverageFileNode) :
  leafless (insertFiles files 0 empty) = true ->
  find key (insertFiles files 0 empty) = Some pos0 ->
  exists pos1 v,
    find key (createFileCoverage files) = Some pos1
    /\ value pos1 = Some v
    /\ statementOf v = sum_counts (map statementOf (valuesBelow pos0))
    /\ branchOf v = sum_present (map branchOf (valuesBelow pos0))
    /\ functionOf v = sum_present (map functionOf (valuesBelow pos0)).
Proof.
  intros Hleafless Hfind.
  destruct (createFileCoverage_Filled files) as [Hfill Hvalued].
  destruct (Hvalued _ _ Hfind) as (pos1 & v & Hfind1 & Hv).
  destruct (find_Filled _ _ _ _ Hfill Hfind) as (pos1' & Hfind1' & Hpos).
  rewrite Hfind1 in Hfind1'. injection Hfind1' as <-.
  exists pos1, v. split; [exact Hfind1|]. split; [exact Hv|].
  apply (Filled_sums_leaves pos0 pos1 v Hpos); [|exact Hv].
  exact (leafless_find _ _ _ Hleafless Hfind).
Qed.

(** The root of the tree of the two leaves holds the sum {4,6} of their
    statement counts. *)
Lemma aggregate_sums_leaves_witness :
  exists pos1 v,
    find [] (createFileCoverage twoLeaves) = Some pos1
    /\ value pos1 = Some v
    /\ statementOf v = counts 4 6.
Proof.
  destruct (aggregate_sums_leaves twoLeaves [] (insertFiles twoLeaves 0 empty)
              eq_refl eq_refl) as (pos1 & v & Hfind & Hv & Hstatement & _).
  exists pos1, v. split; [exact Hfind|]. split; [exact Hv|]. exact Hstatement.
Defined.

(** The second of two records with the same identifier is the one found. *)
Lemma createFileCoverage_keeps_leaf_witness :
  valueAt ["file"; ""; ""; "a"]
    (createFileCoverage [fileAt "/a" (counts 1 2) None None; fileAt "/a" (counts 3 4) None None])
  = Some (File (FileCoverage.new (fileAt "/a" (counts 3 4) None None) 0)).
Proof.
  apply (createFileCoverage_keeps_leaf [fileAt "/a" (counts 1 2) None None]
           [] (fileAt "/a" (counts 3 4) None None)).
  intros later [].
Defined.

(** The positions of the tree of the two leaves: a/b is one, a/c is none. *)
Lemma createFileCoverage_positions_witness :
  is_Some (find ["file"; ""; ""; "a"; "b"] (createFileCoverage twoLeaves))
  /\ ~ is_Some (find ["file"; ""; ""; "a"; "c"] (createFileCoverage twoLeaves)).
Proof.
  split.
  - apply (proj1 (createFileCoverage_positions twoLeaves ["file"; ""; ""; "a"; "b"])).
    right. exists (fileAt "/a/b/x" (counts 1 2) None None).
    split; [now left|]. exists ["x"]. reflexivity.
  - intros H. apply (proj1 (createFileCoverage_positions twoLeaves ["file"; ""; ""; "a"; "c"])) in H.
    destruct H as [H|(file & [<-|[<-|[]]] & [rest H])]; discriminate.
Defined.

(** ** The bars *)

Lemma renderBar_returns (bar : BarStyle) (pct : option Q) :
  fst (renderBar bar (option_map Finite pct)) = inl tt.
Proof.
  destruct pct as [pct|]; [|reflexivity]. unfold renderBar. simpl.
  destruct (Qle_bool 0.9 pct); [reflexivity|]. destruct (Qle_bool 0.8 pct); reflexivity.
Qed.

(** renderBar finds a colour for every number but NaN: the bar is shown
    with the number scaled by 100 as its width, green from 0.9 up, yellow
    from 0.8 up to 0.9 and red below 0.8, green at Infinity and red at
    -Infinity.  At NaN no threshold is reached: the bar has been shown, with
    NaN as its width, and reading the colour of nothing throws before the
    colour of the bar is set.  Without a number the bar is hidden and keeps
    its width and colour. *)
Theorem renderBar_bands (bar : BarStyle) :
  (forall pct,
      fst (renderBar bar (Some (Finite pct))) = inl tt
      /\ display (snd (renderBar bar (Some (Finite pct)))) = Some "block"
      /\ width (snd (renderBar bar (Some (Finite pct)))) = Some (Finite (pct * 100)%Q)
      /\ ((0.9 <= pct)%Q ->
          color (snd (renderBar bar (Some (Finite pct)))) = Some chartsGreen)
      /\ ((0.8 <= pct)%Q -> (pct < 0.9)%Q ->
          color (snd (renderBar bar (Some (Finite pct)))) = Some chartsYellow)
      /\ ((pct < 0.8)%Q ->
          color (snd (renderBar bar (Some (Finite pct)))) = Some chartsRed))
  /\ renderBar bar (Some PlusInfinity)
     = (inl tt, {| display := Some "block"; width := Some PlusInfinity;
                   color := Some chartsGreen |})
  /\ renderBar bar (Some MinusInfinity)
     = (inl tt, {| display := Some "block"; width := Some MinusInfinity;
                   color := Some chartsRed |})
  /\ renderBar bar (Some NaN)
     = (inr "TypeError", {| display := Some "block"; width := Some NaN;
                            color := color bar |})
  /\ renderBar bar None
     = (inl tt, {| display := Some "none"; width := width bar; color := color bar |}).
Proof.
  split; [|repeat split]. intros pct. unfold renderBar. simpl.
  pose proof (Qle_bool_iff 0.9 pct) as H9. pose proof (Qle_bool_iff 0.8 pct) as H8.
  destruct (Qle_bool 0.9 pct); [|destruct (Qle_bool 0.8 pct)]; simpl;
    repeat split; try reflexivity; intros; exfalso;
    repeat match goal with
           | H : true = true <-> _ |- _ => pose proof (proj1 H eq_refl); clear H
           | H : false = true <-> ?P |- _ =>
               assert (~ P) by (intros HP; apply H in HP; discriminate); clear H
           end;
    destruct pct as [n d]; unfold Qle, Qlt in *; simpl in *; lia.
Qed.

(** A bar at 0.85 is yellow, and a bar given NaN throws and keeps the green
    it had. *)
Lemma renderBar_bands_witness :
  color (snd (renderBar unstyled (Some (Finite 0.85%Q)))) = Some chartsYellow
  /\ renderBar {| display := None; width := None; color := Some chartsGreen |} (Some NaN)
     = (inr "TypeError",
        {| display := Some "block"; width := Some NaN; color := Some chartsGreen |}).
Proof.
  split.
  - apply (proj1 (proj2 (proj2 (proj2 (proj2 (proj1 (renderBar_bands unstyled) 0.85%Q)))))).
    + discriminate.
    + reflexivity.
  - exact (proj1 (proj2 (proj2 (proj2
             (renderBar_bands {| display := None; width := None;
                                 color := Some chartsGreen |}))))).
Defined.

(** ** setCoverageInfo *)

Section BarsFacts.
Variable Number_toString : Q -> string.

#[local] Abbreviation render' := (render Number_toString).
#[local] Abbreviation setCoverageInfo' := (setCoverageInfo Number_toString).
#[local] Abbreviation showAll' := (showAll Number_toString).

Lemma renderBar_pair (bar : BarStyle) (pct : Q) :
  renderBar bar (Some (Finite pct))
  = (inl tt, snd (renderBar bar (Some (Finite pct)))).
Proof.
  pose proof (renderBar_returns bar (Some pct)) as H. cbn [option_map] in H.
  destruct (renderBar bar (Some (Finite pct))) as [o bar']. simpl in *. now subst o.
Qed.

Lemma renderBar_percentOf (bar : BarStyle) (cc : option ICoveredCount) :
  renderBar bar (percentOf cc) = (inl tt, snd (renderBar bar (percentOf cc))).
Proof. destruct cc as [cc|]; [apply renderBar_pair|reflexivity]. Qed.

Lemma render_coverage (c : AbstractFileCoverage.t) (method : TestingDisplayedCoveragePercent)
    (this : AbstractTestCoverageBars.t) :
  render' (Some c) method this
  = (inl tt,
     AbstractTestCoverageBars.set_el
       (rendered Number_toString c method (fst (AbstractTestCoverageBars.elValue this)))
       (snd (AbstractTestCoverageBars.elValue this))).
Proof.
  unfold render, rendered, thrice.
  destruct (AbstractTestCoverageBars.elValue this) as [[overall bar|overall st me br] this'];
    cbn [fst snd].
  - now rewrite renderBar_pair.
  - rewrite (renderBar_pair st). cbv beta iota.
    rewrite (renderBar_percentOf (snd (renderBar st _))). cbv beta iota.
    now rewrite (renderBar_percentOf (snd (renderBar (snd (renderBar st _)) _))).
Qed.

Lemma elValue_frame (this : AbstractTestCoverageBars.t) :
  let this' := snd (AbstractTestCoverageBars.elValue this) in
  AbstractTestCoverageBars.compact this' = AbstractTestCoverageBars.compact this
  /\ AbstractTestCoverageBars._coverage this' = AbstractTestCoverageBars._coverage this
  /\ AbstractTestCoverageBars.visibleStore this' = AbstractTestCoverageBars.visibleStore this
  /\ AbstractTestCoverageBars.appended this' = AbstractTestCoverageBars.appended this
  /\ AbstractTestCoverageBars.fired this' = AbstractTestCoverageBars.fired this
  /\ AbstractTestCoverageBars.shown this' = AbstractTestCoverageBars.shown this
  /\ AbstractTestCoverageBars.el this' = Some (fst (AbstractTestCoverageBars.elValue this)).
Proof.
  unfold AbstractTestCoverageBars.elValue.
  destruct (AbstractTestCoverageBars.el this) as [e|] eqn:He; simpl; auto 10.
Qed.

(** A call with a coverage: the render, the listener, on the first coverage
    the field, the removal and the root, and the change event. *)
Lemma setCoverageInfo_coverage (c : AbstractFileCoverage.t)
    (method : TestingDisplayedCoveragePercent) (this : AbstractTestCoverageBars.t) :
  setCoverageInfo' (Some c) method this
  = (inl tt,
     let shown :=
       AbstractTestCoverageBars.store (ConfigurationListener c)
         (snd (render' (Some c) method this)) in
     AbstractTestCoverageBars.fire
       match AbstractTestCoverageBars._coverage this with
       | None =>
           AbstractTestCoverageBars.appendRoot
             (AbstractTestCoverageBars.store RemoveRoot
                (AbstractTestCoverageBars.set_coverage (Some c) shown))
       | Some _ => shown
       end).
Proof.
  unfold setCoverageInfo. rewrite render_coverage.
  destruct (elValue_frame this) as (_ & Hcov & _). simpl in *.
  destruct (AbstractTestCoverageBars._coverage this) as [c0|] eqn:Hthis;
    simpl; rewrite Hcov; reflexivity.
Qed.

(** Asked to show no coverage, a widget that shows none returns and stays
    as it is; a widget that shows one throws in its render, before anything
    is disposed of, removed or fired: its coverage, its store, its root and
    its change event are as before.  A coverage once shown is never
    cleared. *)
Theorem setCoverageInfo_never_clears (method : TestingDisplayedCoveragePercent)
    (this : AbstractTestCoverageBars.t) :
  (AbstractTestCoverageBars._coverage this = None ->
   setCoverageInfo' None method this = (inl tt, this))
  /\ (forall c,
         AbstractTestCoverageBars._coverage this = Some c ->
         fst (setCoverageInfo' None method this) = inr "TypeError"
         /\ AbstractTestCoverageBars._coverage (snd (setCoverageInfo' None method this))
            = Some c
         /\ AbstractTestCoverageBars.visibleStore (snd (setCoverageInfo' None method this))
            = AbstractTestCoverageBars.visibleStore this
         /\ AbstractTestCoverageBars.appended (snd (setCoverageInfo' None method this))
            = AbstractTestCoverageBars.appended this
         /\ AbstractTestCoverageBars.fired (snd (setCoverageInfo' None method this))
            = AbstractTestCoverageBars.fired this
         /\ (forall e, AbstractTestCoverageBars.el this = Some e ->
                       snd (setCoverageInfo' None method this) = this)).
Proof.
  split.
  - intros Hnone. unfold setCoverageInfo. now rewrite Hnone.
  - intros c Hc. unfold setCoverageInfo, render. rewrite Hc.
    destruct (elValue_frame this) as (_ & Hcov & Hstore & Happended & Hfired & _ & _).
    destruct (AbstractTestCoverageBars.elValue this) as [e this'] eqn:Hel. simpl in *.
    repeat split; try congruence.
    intros e' He'. unfold AbstractTestCoverageBars.elValue in Hel. rewrite He' in Hel.
    congruence.
Qed.

Lemma listenersOf_app (a b : list Disposable) :
  listenersOf (a ++ b) = (listenersOf a ++ listenersOf b)%list.
Proof.
  induction a as [|[c| |h] a IH]; simpl; congruence.
Qed.

Lemma showAll_shown : forall calls this c0,
  AbstractTestCoverageBars._coverage this = Some c0 ->
  fst (showAll' calls this) = inl tt
  /\ AbstractTestCoverageBars._coverage (snd (showAll' calls this)) = Some c0
  /\ AbstractTestCoverageBars.appended (snd (showAll' calls this))
     = AbstractTestCoverageBars.appended this
  /\ AbstractTestCoverageBars.fired (snd (showAll' calls this))
     = (AbstractTestCoverageBars.fired this + length calls)%nat
  /\ listenersOf (AbstractTestCoverageBars.visibleStore (snd (showAll' calls this)))
     = (listenersOf (AbstractTestCoverageBars.visibleStore this) ++ map fst calls)%list.
Proof.
  intros calls. induction calls as [|[c method] calls IH]; intros this c0 Hc0; cbn [showAll].
  - simpl. rewrite app_nil_r. repeat split; auto.
  - rewrite setCoverageInfo_coverage, Hc0. cbv zeta.
    rewrite render_coverage.
    destruct (elValue_frame this) as (_ & Hcov & Hstore & Happended & Hfired & _ & _).
    cbv zeta in *.
    match goal with |- context [showAll' calls ?t] => set (next := t) end.
    assert (AbstractTestCoverageBars._coverage next = Some c0) as Hnext
      by (subst next; simpl; congruence).
    destruct (IH next c0 Hnext) as (H1 & H2 & H3 & H4 & H5).
    rewrite H1, H2, H3, H4, H5. subst next. simpl.
    rewrite Happended, Hfired, Hstore.
    split; [reflexivity|]. split; [reflexivity|]. split; [reflexivity|].
    split; [lia|].
    rewrite listenersOf_app. simpl. now rewrite <- app_assoc.
Qed.

(** After one call or more on a new widget, every call has returned; the
    field _coverage, which the hovers read, holds the coverage of the first
    call, not of the last; the root has been appended once; the change event
    has fired once for each call; and the store holds one listener of the
    configuration for each call, none ever disposed of. *)
Theorem showAll_keeps_first (compact : bool) (c : AbstractFileCoverage.t)
    (method : TestingDisplayedCoveragePercent)
    (calls : list (AbstractFileCoverage.t * TestingDisplayedCoveragePercent)) :
  let widget := snd (showAll' ((c, method) :: calls) (AbstractTestCoverageBars.new compact)) in
  fst (showAll' ((c, method) :: calls) (AbstractTestCoverageBars.new compact)) = inl tt
  /\ AbstractTestCoverageBars._coverage widget = Some c
  /\ AbstractTestCoverageBars.appended widget = 1%nat
  /\ AbstractTestCoverageBars.fired widget = S (length calls)
  /\ listenersOf (AbstractTestCoverageBars.visibleStore widget) = c :: map fst calls.
Proof.
  cbn [showAll]. rewrite setCoverageInfo_coverage. cbv zeta.
  rewrite render_coverage.
  match goal with |- context [showAll' calls ?t] => set (next := t) end.
  assert (AbstractTestCoverageBars._coverage next = Some c) as Hnext by reflexivity.
  destruct (showAll_shown calls next c Hnext) as (H1 & H2 & H3 & H4 & H5).
  rewrite H1, H2, H3, H4, H5. subst next. simpl. auto.
Qed.

Lemma setCoverageInfo_full (c : AbstractFileCoverage.t)
    (method : TestingDisplayedCoveragePercent) (this : AbstractTestCoverageBars.t) :
  fullUntouched this ->
  fullUntouched (snd (setCoverageInfo' (Some c) method this))
  /\ exists statement,
       AbstractTestCoverageBars.el (snd (setCoverageInfo' (Some c) method this))
       = Some (FullBars (displayPercent Number_toString (calculateDisplayedStat c method))
                        (thrice c statement) unstyled unstyled).
Proof.
  intros [Hcompact Hel]. rewrite setCoverageInfo_coverage, render_coverage. cbv zeta.
  unfold AbstractTestCoverageBars.elValue. rewrite Hcompact.
  destruct (AbstractTestCoverageBars.el this) as [[overall bar|overall st me br]|];
    [contradiction| |].
  - destruct Hel as [-> ->].
    destruct (AbstractTestCoverageBars._coverage this); simpl;
      (split; [split; [exact Hcompact|simpl; auto]|eexists; reflexivity]).
  - destruct (AbstractTestCoverageBars._coverage this); simpl;
      (split; [split; [exact Hcompact|simpl; auto]|eexists; reflexivity]).
Qed.

Lemma showAll_full : forall calls this,
  fullUntouched this ->
  fst (showAll' calls this) = inl tt /\ fullUntouched (snd (showAll' calls this)).
Proof.
  intros calls. induction calls as [|[c method] calls IH]; intros this Hthis; cbn [showAll];
    [auto|].
  pose proof (setCoverageInfo_full c method this Hthis) as [Hnext _].
  rewrite setCoverageInfo_coverage in *. simpl in *. now apply IH.
Qed.

Lemma showAll_snoc : forall calls call this,
  fst (showAll' calls this) = inl tt ->
  showAll' (calls ++ [call]) this = showAll' [call] (snd (showAll' calls this)).
Proof.
  intros calls. induction calls as [|[c method] calls IH]; intros call this Hret; [reflexivity|].
  cbn [showAll app] in *. rewrite setCoverageInfo_coverage in *. cbv zeta in *.
  now apply IH.
Qed.

Lemma thrice_display (c : AbstractFileCoverage.t) (statement : BarStyle) :
  display (thrice c statement)
  = Some (match AbstractFileCoverage.branch c with Some _ => "block" | None => "none" end)
  /\ forall b, AbstractFileCoverage.branch c = Some b ->
               width (thrice c statement) = Some (Finite (percent b * 100)%Q).
Proof.
  unfold thrice. destruct (AbstractFileCoverage.branch c) as [b|];
    cbn [percentOf option_map].
  - match goal with |- context [renderBar ?x (Some (Finite (percent b)))] => generalize x end.
    intros bar. unfold renderBar. simpl.
    destruct (Qle_bool 0.9 (percent b)); [|destruct (Qle_bool 0.8 (percent b))]; simpl;
      (split; [reflexivity|intros b' [= <-]; reflexivity]).
  - split; [reflexivity|discriminate].
Qed.

(** In the full form the three calls of renderBar of a render all style the
    statement bar, so after any calls the method bar and the branch bar have
    never been styled, and the statement bar shows the branch coverage of the
    last call: it is hidden when that coverage has no branch count, and
    shown with the branch percent as its width when it has one. *)
Theorem full_bars_show_branch_on_statement
    (calls : list (AbstractFileCoverage.t * TestingDisplayedCoveragePercent))
    (c : AbstractFileCoverage.t) (method : TestingDisplayedCoveragePercent) :
  exists statement,
    AbstractTestCoverageBars.el
      (snd (showAll' (calls ++ [(c, method)]) (AbstractTestCoverageBars.new false)))
    = Some (FullBars (displayPercent Number_toString (calculateDisplayedStat c method))
                     statement unstyled unstyled)
    /\ display statement = Some (match AbstractFileCoverage.branch c with Some _ => "block" | None => "none" end)
    /\ forall b, AbstractFileCoverage.branch c = Some b ->
                 width statement = Some (Finite (percent b * 100)%Q).
Proof.
  assert (fullUntouched (AbstractTestCoverageBars.new false)) as Hnew
    by (split; [reflexivity|exact I]).
  destruct (showAll_full calls _ Hnew) as [Hret Hfull].
  rewrite (showAll_snoc calls (c, method) _ Hret). cbn [showAll].
  destruct (setCoverageInfo_full c method _ Hfull) as [_ [statement Hel]].
  rewrite setCoverageInfo_coverage in *. cbn [snd] in *.
  exists (thrice c statement). split; [exact Hel|]. apply thrice_display.
Qed.

End BarsFacts.

(** Asked to show no coverage, the widget that shows the coverage of /a
    throws and keeps that coverage. *)
Lemma setCoverageInfo_never_clears_witness :
  fst (setCoverageInfo (fun _ => EmptyString) None Statement shownOnce) = inr "TypeError"
  /\ AbstractTestCoverageBars._coverage
       (snd (setCoverageInfo (fun _ => EmptyString) None Statement shownOnce))
     = Some branchCoverage.
Proof.
  destruct (proj2 (setCoverageInfo_never_clears (fun _ => EmptyString) Statement shownOnce)
              branchCoverage eq_refl) as (Hthrows & Hkept & _).
  split; [exact Hthrows|exact Hkept].
Defined.

(** After a coverage without a branch count and then the coverage of /a,
    whose branch count is {1,4}, the statement bar is shown 25 wide. *)
Lemma full_bars_show_branch_on_statement_witness :
  exists statement,
    AbstractTestCoverageBars.el
      (snd (showAll (fun _ => EmptyString)
              [(AbstractFileCoverage.new (fileAt "/b" (counts 3 4) None None), Minimum);
               (branchCoverage, Statement)]
              (AbstractTestCoverageBars.new false)))
    = Some (FullBars "50.00%" statement unstyled unstyled)
    /\ display statement = Some "block"
    /\ width statement = Some (Finite ((1 # 4) * 100)%Q).
Proof.
  destruct (full_bars_show_branch_on_statement (fun _ => EmptyString)
              [(AbstractFileCoverage.new (fileAt "/b" (counts 3 4) None None), Minimum)]
              branchCoverage Statement) as (statement & Hel & Hdisplay & Hwidth).
  exists statement. split; [exact Hel|]. split; [exact Hdisplay|].
  exact (Hwidth (counts 1 4) eq_refl).
Defined.

(** ** Hovers *)

Section HoverFacts.
Variable Number_toString : Q -> string.
Variable localize : string -> string -> list string -> string.

Lemma setCoverageInfo_formed (c : AbstractFileCoverage.t)
    (method : TestingDisplayedCoveragePercent) (this : AbstractTestCoverageBars.t) :
  formed this ->
  formed (snd (setCoverageInfo Number_toString (Some c) method this))
  /\ is_Some (AbstractTestCoverageBars.el
                (snd (setCoverageInfo Number_toString (Some c) method this)))
  /\ AbstractTestCoverageBars.compact (snd (setCoverageInfo Number_toString (Some c) method this))
     = AbstractTestCoverageBars.compact this
  /\ AbstractTestCoverageBars.shown (snd (setCoverageInfo Number_toString (Some c) method this))
     = AbstractTestCoverageBars.shown this.
Proof.
  unfold formed. intros Hformed. rewrite setCoverageInfo_coverage, render_coverage. cbv zeta.
  unfold AbstractTestCoverageBars.elValue.
  destruct (AbstractTestCoverageBars.el this) as [[overall bar|overall st me br]|];
    [| |destruct (AbstractTestCoverageBars.compact this) eqn:Hcompact];
    destruct (AbstractTestCoverageBars._coverage this); simpl; eauto.
Qed.

Lemma showAll_formed : forall calls this,
  formed this ->
  formed (snd (showAll Number_toString calls this))
  /\ (calls <> [] ->
      is_Some (AbstractTestCoverageBars.el (snd (showAll Number_toString calls this))))
  /\ AbstractTestCoverageBars.compact (snd (showAll Number_toString calls this))
     = AbstractTestCoverageBars.compact this
  /\ AbstractTestCoverageBars.shown (snd (showAll Number_toString calls this))
     = AbstractTestCoverageBars.shown this.
Proof.
  intros calls. induction calls as [|[c method] calls IH]; intros this Hthis; cbn [showAll].
  - simpl. repeat split; [exact Hthis|congruence].
  - destruct (setCoverageInfo_formed c method this Hthis) as (Hformed & Hel & Hcompact & Hshown).
    rewrite setCoverageInfo_coverage in *. cbn [fst snd] in *. cbv zeta in *.
    destruct (IH _ Hformed) as (H1 & H2 & H3 & H4).
    split; [exact H1|]. split; [|split; congruence].
    intros _. destruct calls as [|call calls]; [exact Hel|].
    apply H2. discriminate.
Qed.

Lemma showAll_keeps_first_coverage (compact : bool) (c : AbstractFileCoverage.t)
    (method : TestingDisplayedCoveragePercent)
    (calls : list (AbstractFileCoverage.t * TestingDisplayedCoveragePercent)) :
  AbstractTestCoverageBars._coverage
    (snd (showAll Number_toString ((c, method) :: calls) (AbstractTestCoverageBars.new compact)))
  = Some c.
Proof.
  cbn [showAll]. rewrite setCoverageInfo_coverage. cbv zeta. rewrite render_coverage.
  match goal with |- context [showAll Number_toString calls ?t] => set (next := t) end.
  exact (proj1 (proj2 (showAll_shown Number_toString calls next c eq_refl))).
Qed.

(** In the compact form, after one call of setCoverageInfo or more on a new
    widget, entering the bar always shows a hover (a MarkdownString is
    content even when its text is empty), and the hover holds the overall
    text of the coverage of the first call, whatever the later calls showed;
    the hover showHover returns is added to the store, and entering a bar of
    the other form does nothing. *)
Theorem hover_shows_first_coverage (c : AbstractFileCoverage.t)
    (method : TestingDisplayedCoveragePercent)
    (calls : list (AbstractFileCoverage.t * TestingDisplayedCoveragePercent))
    (hover : bool) :
  let widget :=
    snd (showAll Number_toString ((c, method) :: calls) (AbstractTestCoverageBars.new true)) in
  let content := Markdown (getOverallHoverText Number_toString localize c) in
  onmouseenter Number_toString localize onTpcBar hover widget
  = (if hover then AbstractTestCoverageBars.store (Hover content) else id)
      (AbstractTestCoverageBars.showHover content widget)
  /\ AbstractTestCoverageBars.shown widget = []
  /\ forall target, target <> onTpcBar ->
       onmouseenter Number_toString localize target hover widget = widget.
Proof.
  cbv zeta.
  pose proof (showAll_keeps_first_coverage true c method calls) as Hcoverage.
  assert (formed (AbstractTestCoverageBars.new true)) as Hnew by exact I.
  destruct (showAll_formed ((c, method) :: calls) _ Hnew) as (Hformed & Hel & Hcompact & Hshown).
  destruct (Hel ltac:(discriminate)) as [e He].
  unfold formed in Hformed. rewrite He in Hformed.
  split; [|split; [exact Hshown|]].
  - unfold onmouseenter. rewrite He, Hcoverage.
    destruct e as [overall bar|overall st me br]; [|simpl in *; congruence].
    cbn [hoverFactory]. now destruct hover.
  - intros target Htarget. unfold onmouseenter. rewrite He, Hcoverage.
    destruct e as [overall bar|overall st me br]; [|simpl in *; congruence].
    destruct target; try reflexivity. congruence.
Qed.

End HoverFacts.

(** ** fetchUrl *)

Section FetchFacts.
Variable sha256hex : list Byte.byte -> string.
Variable dirname : string -> string.
Variable fetch : nat -> Answered Response.
Variable env : Environment.

#[local] Abbreviation request' := (request sha256hex dirname fetch env).
#[local] Abbreviation fetchUrl' := (fetchUrl sha256hex dirname fetch env).
#[local] Abbreviation Accepts' := (Accepts sha256hex).
#[local] Abbreviation Refuses' := (Refuses sha256hex).

Lemma log_frame (verbose : bool) (line : LogLine) (w : Process) :
  fetched (log verbose line w) = fetched w /\ timers (log verbose line w) = timers w.
Proof. now destruct verbose. Qed.

Ltac frame :=
  cbn [fst snd];
  rewrite ?(proj1 (log_frame _ _ _)), ?(proj2 (log_frame _ _ _));
  cbn [fetched timers VinylFile.cwd VinylFile.path VinylFile.contents].

Lemma truthy_Some (s : option string) (t : string) :
  truthy s = Some t <-> s = Some t /\ t <> EmptyString.
Proof.
  destruct s as [[|c s]|]; simpl; split; try discriminate.
  - intros [[= <-] H]. now contradiction H.
  - intros [= <-]. split; [reflexivity|discriminate].
  - now intros [-> _].
  - now intros [? _].
Qed.

Lemma truthy_None (s : option string) :
  truthy s = None <-> forall t, s = Some t -> t = EmptyString.
Proof.
  destruct s as [[|c s]|]; simpl; split; try discriminate; auto.
  - now intros _ t [= <-].
  - intros H. now specialize (H _ eq_refl).
Qed.

(** One request calls fetch once, awaits no timer, and either returns the
    file of an accepted answer or throws the error of a refused one. *)
Lemma request_outcome (url : string) (options : IFetchOptions.t) (retries : nat)
    (w : Process) :
  fetched (snd (request' url options retries w)) = S (fetched w)
  /\ timers (snd (request' url options retries w)) = timers w
  /\ match fst (request' url options retries w) with
     | inl file =>
         Accepts' options (fetch (fetched w)) (VinylFile.contents file)
         /\ VinylFile.cwd file = "/"
         /\ VinylFile.path file = coalesce (IFetchOptions.path options) url
     | inr e => Refuses' options url (fetch (fetched w)) e
     end.
Proof.
  unfold request. set (v := verbose env options).
  set (w0 := log v _ w).
  destruct (log_frame v
              (StartFetching url (if (retries =? 10)%nat then None
                                  else Some (10 - Z.of_nat retries)%Z)) w) as [Hfetched Htimers].
  fold w0 in Hfetched, Htimers. rewrite Hfetched, Htimers.
  destruct (fetch (fetched w)) as [r|e]; [|frame; do 2 (split; [reflexivity|]); constructor].
  destruct (ok r) eqn:Hok; cbn [andb];
    [|frame; do 2 (split; [reflexivity|]); constructor; now left].
  destruct ((200 <=? status r)%Z && (status r <? 300)%Z) eqn:Hstatus.
  2:{ frame. do 2 (split; [reflexivity|]). constructor. right.
      apply andb_false_iff in Hstatus as [H|H]; [left|right]; lia. }
  apply andb_true_iff in Hstatus as [H200 H300].
  assert (200 <= status r < 300)%Z as Hrange by lia. clear H200 H300.
  destruct (arrayBuffer r) as [contents|e] eqn:Hbody;
    [|frame; do 2 (split; [reflexivity|]); now constructor].
  destruct (truthy (IFetchOptions.checksumSha256 options)) as [expected|] eqn:Hchecksum.
  - apply truthy_Some in Hchecksum as [Hexpected Hnonempty].
    destruct (String.eqb_spec (sha256hex contents) expected) as [Heq|Hne]; frame;
      do 2 (split; [reflexivity|]).
    + split; [|split; reflexivity]. constructor; try assumption.
      intros expected' Hexpected' _. congruence.
    + now apply refuses_checksum.
  - frame. do 2 (split; [reflexivity|]). split; [|split; reflexivity].
    constructor; try assumption.
    intros expected Hexpected Hnonempty.
    now rewrite (proj1 (truthy_None _) Hchecksum _ Hexpected) in Hnonempty.
Qed.

(** No answer is both accepted and refused. *)
Lemma Accepts_not_Refuses (options : IFetchOptions.t) (url : string)
    (answer : Answered Response) (contents : list Byte.byte) (e : FetchError) :
  Accepts' options answer contents -> Refuses' options url answer e -> False.
Proof.
  intros Ha Hr. destruct Ha as [r contents Hok Hstatus Hbody Hchecksum].
  inversion Hr; subst; try congruence.
  - destruct H0 as [H|H]; [congruence|lia].
  - assert (contents0 = contents) as -> by congruence. eauto.
Qed.

(** The outcome of fetchUrl: some attempt [k], at most the number of
    retries, is the last; the attempts before it were refused, and a timer
    of the delay was awaited after each of them; the attempt [k] is
    accepted when a file is returned, and when an error is thrown it is the
    last attempt allowed and the error is its own. *)
Lemma fetchUrl_outcome (url : string) (options : IFetchOptions.t) (retryDelay : Z) :
  forall retries w,
  exists k,
    (k <= retries)%nat
    /\ (forall j, (j < k)%nat -> exists e, Refuses' options url (fetch (fetched w + j)) e)
    /\ fetched (snd (fetchUrl' url options retries retryDelay w)) = (fetched w + k + 1)%nat
    /\ timers (snd (fetchUrl' url options retries retryDelay w))
       = (timers w ++ repeat retryDelay k)%list
    /\ match fst (fetchUrl' url options retries retryDelay w) with
       | inl file =>
           Accepts' options (fetch (fetched w + k)) (VinylFile.contents file)
           /\ VinylFile.cwd file = "/"
           /\ VinylFile.path file = coalesce (IFetchOptions.path options) url
       | inr e => k = retries /\ Refuses' options url (fetch (fetched w + k)) e
       end.
Proof.
  induction retries as [|retries IH]; intros w; cbn [fetchUrl].
  - pose proof (request_outcome url options 0 w) as (Hfetched & Htimers & Hresult).
    destruct (request' url options 0 w) as [[file|e] w1]; cbn [fst snd] in *;
      exists 0%nat; rewrite Nat.add_0_r, app_nil_r; frame;
      (split; [lia|]); (split; [intros j Hj; lia|]); (split; [lia|]);
      (split; [exact Htimers|]); [exact Hresult|split; [reflexivity|exact Hresult]].
  - pose proof (request_outcome url options (S retries) w) as (Hfetched & Htimers & Hresult).
    destruct (request' url options (S retries) w) as [[file|e] w1]; cbn [fst snd] in *.
    + exists 0%nat. rewrite Nat.add_0_r, app_nil_r.
      split; [lia|]. split; [intros j Hj; lia|]. split; [lia|].
      split; [exact Htimers|exact Hresult].
    + set (w2 := sleep retryDelay (log (verbose env options) (FetchingFailed url e) w1)).
      assert (fetched w2 = S (fetched w)) as Hfetched2
        by (subst w2; simpl; now rewrite (proj1 (log_frame _ _ _))).
      assert (timers w2 = (timers w ++ [retryDelay])%list) as Htimers2
        by (subst w2; simpl; now rewrite (proj2 (log_frame _ _ _)), Htimers).
      destruct (IH w2) as (k & Hk & Hbefore & Hafter & Hwaited & Hlast).
      rewrite Hfetched2 in *. rewrite Htimers2 in Hwaited.
      exists (S k). split; [lia|]. split; [|split; [|split]].
      * intros [|j] Hj; [rewrite Nat.add_0_r; eauto|].
        replace (fetched w + S j)%nat with (S (fetched w) + j)%nat by lia.
        apply Hbefore. lia.
      * rewrite Hafter. lia.
      * rewrite Hwaited, <- app_assoc. reflexivity.
      * replace (fetched w + S k)%nat with (S (fetched w) + k)%nat by lia.
        destruct (fst (fetchUrl' url options retries retryDelay w2)); [exact Hlast|].
        destruct Hlast as [-> Hlast]. split; [reflexivity|exact Hlast].
Qed.

(** A file fetchUrl returns holds the body of an accepted answer: a response
    that was ok with a status from 200 up to 299 and, when the options name
    a checksum, a body with that digest.  That answer is the first accepted
    one, at most [retries] refused attempts came before it, and the function
    awaited the delay once after each of them and called fetch no more. *)
Theorem fetchUrl_returns_verified (url : string) (options : IFetchOptions.t)
    (retries : nat) (retryDelay : Z) (w w' : Process) (file : VinylFile.t) :
  fetchUrl' url options retries retryDelay w = (inl file, w') ->
  exists k,
    (k <= retries)%nat
    /\ Accepts' options (fetch (fetched w + k)) (VinylFile.contents file)
    /\ (forall j, (j < k)%nat ->
          forall contents, ~ Accepts' options (fetch (fetched w + j)) contents)
    /\ fetched w' = (fetched w + k + 1)%nat
    /\ timers w' = (timers w ++ repeat retryDelay k)%list.
Proof.
  intros Hrun.
  destruct (fetchUrl_outcome url options retryDelay retries w)
    as (k & Hk & Hbefore & Hafter & Hwaited & Hlast).
  rewrite Hrun in *. cbn [fst snd] in *. destruct Hlast as (Haccepts & _ & _).
  exists k. repeat split; try assumption.
  intros j Hj contents Hcontents. destruct (Hbefore j Hj) as [e He].
  exact (Accepts_not_Refuses _ _ _ _ _ Hcontents He).
Qed.

(** When fetchUrl throws, it has called fetch [retries] + 1 times and
    awaited the delay [retries] times, every answer was refused, and the
    error thrown is the error of the last attempt, not of the first. *)
Theorem fetchUrl_throws_last (url : string) (options : IFetchOptions.t)
    (retries : nat) (retryDelay : Z) (w w' : Process) (e : FetchError) :
  fetchUrl' url options retries retryDelay w = (inr e, w') ->
  Refuses' options url (fetch (fetched w + retries)) e
  /\ (forall j, (j <= retries)%nat ->
        forall contents, ~ Accepts' options (fetch (fetched w + j)) contents)
  /\ fetched w' = (fetched w + retries + 1)%nat
  /\ timers w' = (timers w ++ repeat retryDelay retries)%list.
Proof.
  intros Hrun.
  destruct (fetchUrl_outcome url options retryDelay retries w)
    as (k & Hk & Hbefore & Hafter & Hwaited & Hlast).
  rewrite Hrun in *. cbn [fst snd] in *. destruct Hlast as [-> Hlast].
  repeat split; try assumption.
  intros j Hj contents Hcontents.
  destruct (Nat.eq_dec j retries) as [->|Hne].
  - exact (Accepts_not_Refuses _ _ _ _ _ Hcontents Hlast).
  - destruct (Hbefore j ltac:(lia)) as [e' He'].
    exact (Accepts_not_Refuses _ _ _ _ _ Hcontents He').
Qed.

(** fetchUrl returns a file as soon as one of the first [retries] + 1
    answers is accepted. *)
Theorem fetchUrl_succeeds (url : string) (options : IFetchOptions.t)
    (retries : nat) (retryDelay : Z) (w : Process) (k : nat) (contents : list Byte.byte) :
  (k <= retries)%nat ->
  Accepts' options (fetch (fetched w + k)) contents ->
  exists file, fst (fetchUrl' url options retries retryDelay w) = inl file.
Proof.
  intros Hk Haccepts.
  destruct (fetchUrl_outcome url options retryDelay retries w)
    as (k' & Hk' & Hbefore & _ & _ & Hlast).
  destruct (fst (fetchUrl' url options retries retryDelay w)) as [file|e]; [eauto|].
  exfalso. destruct Hlast as [-> Hlast].
  destruct (Nat.eq_dec k retries) as [->|Hne].
  - exact (Accepts_not_Refuses _ _ _ _ _ Haccepts Hlast).
  - destruct (Hbefore k ltac:(lia)) as [e' He'].
    exact (Accepts_not_Refuses _ _ _ _ _ Haccepts He').
Qed.

End FetchFacts.

Section FetchLog.
Variable sha256hex : list Byte.byte -> string.
Variable dirname : string -> string.
Variable fetch : nat -> Answered Response.

Lemma verbose_option (env : Environment) (options : IFetchOptions.t) :
  verbose env options = toBoolean (IFetchOptions.verbose options).
Proof. reflexivity. Qed.

Lemma request_quiet (env : Environment) (url : string) (options : IFetchOptions.t)
    (retries : nat) (w : Process) :
  verbose env options = false ->
  logged (snd (request sha256hex dirname fetch env url options retries w)) = logged w.
Proof.
  intros Hquiet. unfold request. rewrite Hquiet. cbn [log].
  destruct (fetch (fetched w)) as [r|e]; [|reflexivity].
  destruct (ok r && ((200 <=? status r)%Z && (status r <? 300)%Z)); [|reflexivity].
  destruct (arrayBuffer r) as [contents|e]; [|reflexivity].
  destruct (truthy (IFetchOptions.checksumSha256 options)) as [expected|]; [|reflexivity].
  destruct (sha256hex contents =? expected)%string; reflexivity.
Qed.

Lemma fetchUrl_same (env1 env2 : Environment) (url : string) (options : IFetchOptions.t)
    (retryDelay : Z) :
  forall retries w,
    fetchUrl sha256hex dirname fetch env1 url options retries retryDelay w
    = fetchUrl sha256hex dirname fetch env2 url options retries retryDelay w.
Proof.
  induction retries as [|retries IH]; intros w; cbn [fetchUrl];
    change (request sha256hex dirname fetch env2 url options)
      with (request sha256hex dirname fetch env1 url options);
    destruct (request sha256hex dirname fetch env1 url options _ w) as [[file|e] w1];
    try reflexivity.
Qed.

(** The environment never turns the log on: the left operand of ?? in the
    constant verbose is a boolean, so CI and BUILD_ARTIFACTSTAGINGDIRECTORY
    are not consulted.  Two runs that differ in the environment only do the
    same, and unless options.verbose is true a run logs nothing, however
    many attempts fail. *)
Theorem fetchUrl_ignores_environment (url : string) (options : IFetchOptions.t)
    (retries : nat) (retryDelay : Z) (w : Process) (env1 env2 : Environment) :
  fetchUrl sha256hex dirname fetch env1 url options retries retryDelay w
  = fetchUrl sha256hex dirname fetch env2 url options retries retryDelay w
  /\ (IFetchOptions.verbose options <> Some true ->
      logged (snd (fetchUrl sha256hex dirname fetch env1 url options retries retryDelay w))
      = logged w).
Proof.
  split; [apply fetchUrl_same|]. intros Hoption.
  assert (verbose env1 options = false) as Hquiet.
  { rewrite verbose_option. destruct (IFetchOptions.verbose options) as [[|]|]; [congruence|reflexivity..]. }
  revert w. induction retries as [|retries IH]; intros w; cbn [fetchUrl].
  - pose proof (request_quiet env1 url options 0 w Hquiet) as Hrequest.
    destruct (request sha256hex dirname fetch env1 url options 0 w) as [[file|e] w1];
      cbn [fst snd] in *; rewrite ?Hquiet; exact Hrequest.
  - pose proof (request_quiet env1 url options (S retries) w Hquiet) as Hrequest.
    destruct (request sha256hex dirname fetch env1 url options (S retries) w)
      as [[file|e] w1]; cbn [fst snd] in *; [exact Hrequest|].
    rewrite IH, Hquiet. exact Hrequest.
Qed.

End FetchLog.

(** After two answers 503 the third, 200 with two bytes of the digest named,
    is the one returned; two timers were awaited. *)
Lemma fetchUrl_returns_verified_witness :
  exists k,
    (k <= 10)%nat
    /\ Accepts lengthDigest (checkedOptions "2") (twiceUnavailable (0 + k)) [Byte.x68; Byte.x69]
    /\ timers (snd (fetchUrl lengthDigest id twiceUnavailable onCI "https://h/f"
                      (checkedOptions "2") 10 1000 idle))
       = ([] ++ repeat 1000%Z k)%list.
Proof.
  destruct (fetchUrl_returns_verified lengthDigest id twiceUnavailable onCI "https://h/f"
              (checkedOptions "2") 10 1000 idle
              (snd (fetchUrl lengthDigest id twiceUnavailable onCI "https://h/f"
                      (checkedOptions "2") 10 1000 idle))
              {| VinylFile.cwd := "/"; VinylFile.base := Some "/tmp/f";
                 VinylFile.path := "/tmp/f"; VinylFile.contents := [Byte.x68; Byte.x69] |}
              eq_refl) as (k & Hk & Haccepts & _ & _ & Htimers).
  exists k. split; [exact Hk|]. split; [exact Haccepts|exact Htimers].
Defined.

(** With two retries and a network that always answers 503, the error is
    that of the third answer, after three calls of fetch. *)
Lemma fetchUrl_throws_last_witness :
  Refuses lengthDigest noOptions "https://h/f" (unavailable (0 + 2))
    (RequestFailed "https://h/f" 503)
  /\ fetched (snd (fetchUrl lengthDigest id unavailable onCI "https://h/f" noOptions 2 1000 idle))
     = (0 + 2 + 1)%nat.
Proof.
  destruct (fetchUrl_throws_last lengthDigest id unavailable onCI "https://h/f" noOptions
              2 1000 idle
              (snd (fetchUrl lengthDigest id unavailable onCI "https://h/f" noOptions 2 1000 idle))
              (RequestFailed "https://h/f" 503) eq_refl) as (Hlast & _ & Hfetched & _).
  split; [exact Hlast|exact Hfetched].
Defined.

(** The third answer of the network is accepted, so ten retries are
    enough. *)
Lemma fetchUrl_succeeds_witness :
  exists file,
    fst (fetchUrl lengthDigest id twiceUnavailable onCI "https://h/f" (checkedOptions "2")
           10 1000 idle)
    = inl file.
Proof.
  apply (fetchUrl_succeeds lengthDigest id twiceUnavailable onCI "https://h/f"
           (checkedOptions "2") 10 1000 idle 2 [Byte.x68; Byte.x69]); [lia|].
  apply accepts_response; [reflexivity|simpl; lia|reflexivity|].
  intros expected [= <-] _. reflexivity.
Defined.

(** On CI, without options.verbose, three failed attempts log nothing. *)
Lemma fetchUrl_ignores_environment_witness :
  logged (snd (fetchUrl lengthDigest id unavailable onCI "https://h/f" noOptions 2 1000 idle))
  = [].
Proof.
  apply (proj2 (fetchUrl_ignores_environment lengthDigest id unavailable "https://h/f" noOptions
                  2 1000 idle onCI onCI)).
  discriminate.
Defined.

(** ** getSha *)

Lemma readSync_length (file buffer : list Byte.byte) (position : nat) :
  length (snd (readSync file buffer (length buffer) position)) = length buffer.
Proof.
  unfold readSync. cbn [snd]. rewrite length_app, length_drop, length_take. lia.
Qed.

(** With a buffer that is not empty and fuel for one read more than the
    blocks left, the loop ends, and the bytes the hash was updated with,
    followed by the bytes of the last read, are those it had followed by
    the file from the position on. *)
Lemma readBlocks_reads : forall fuel file buffer hash position,
  (0 < length buffer)%nat ->
  (length file - position < fuel * length buffer)%nat ->
  exists buffer' hash' bytesRead,
    readBlocks fuel file buffer hash position = Some (buffer', hash', bytesRead)
    /\ (hash' ++ firstn bytesRead buffer' = hash ++ skipn position file)%list.
Proof.
  induction fuel as [|fuel IH]; intros file buffer hash position Hbuffer Hfuel; [lia|].
  cbn [readBlocks].
  pose proof (readSync_length file buffer position) as Hlength.
  unfold readSync in *. cbn [snd] in Hlength.
  set (chunk := firstn (length buffer) (skipn position file)) in *.
  rewrite Hlength.
  assert (length chunk = Nat.min (length buffer) (length file - position)) as Hchunk
    by (subst chunk; now rewrite length_take, length_drop).
  destruct (Nat.eqb_spec (length chunk) (length buffer)) as [Hfull|Hshort].
  - assert (skipn (length chunk) buffer = []) as -> by (apply drop_ge; lia).
    rewrite app_nil_r.
    destruct (IH file chunk (hash ++ chunk)%list (position + length chunk)%nat)
      as (buffer' & hash' & bytesRead & Hrun & Hhash); [lia|nia|].
    exists buffer', hash', bytesRead. split; [exact Hrun|].
    rewrite Hhash, <- app_assoc. f_equal.
    transitivity (firstn (length buffer) (skipn position file)
                  ++ skipn (length buffer) (skipn position file))%list;
      [|apply take_drop].
    fold chunk. f_equal. rewrite drop_drop. f_equal. lia.
  - eexists _, _, _. split; [reflexivity|].
    rewrite take_app_length. f_equal. subst chunk. apply take_ge.
    rewrite length_drop. lia.
Qed.

Section GetShaFacts.
Variable sha1hex : list Byte.byte -> string.

(** getSha returns the digest of the whole file, whatever its length: of an
    empty file, of one shorter than the buffer of 1 MB, of one that ends
    with a block (the hash is then updated with no byte at the end), and of
    one that ends within a block, where the buffer still holds bytes of the
    block before.  One read for each block of the file and one more are
    enough. *)
Theorem getSha_hashes_file (fuel : nat) (file : list Byte.byte) :
  (length file < fuel * (1024 * 1024))%nat ->
  getSha sha1hex fuel file = Some (sha1hex file).
Proof.
  intros Hfuel. unfold getSha.
  assert (length (Buffer_alloc (1024 * 1024)) = (1024 * 1024)%nat) as Hlength
    by apply repeat_length.
  destruct (readBlocks_reads fuel file (Buffer_alloc (1024 * 1024)) [] 0)
    as (buffer & hash & bytesRead & -> & Hhash); [lia|lia|].
  now rewrite Hhash.
Qed.

End GetShaFacts.

(** One read is enough for a file of three bytes. *)
Lemma getSha_hashes_file_witness :
  getSha lengthDigest 1 [Byte.x61; Byte.x62; Byte.x63] = Some "3".
Proof.
  apply (getSha_hashes_file lengthDigest 1 [Byte.x61; Byte.x62; Byte.x63]).
  cbn [length]. lia.
Defined.

(** ** The loop around yarn *)

(** The loop that is to try 5 times runs yarn three times at most: the
    script goes on as soon as one of the first three runs succeeds, and
    exits with status 1 when the three fail; the turns 4 and 5 are never
    reached, and the line of a failed turn is echoed after the first and the
    second failure only. *)
Theorem installYarn_three_runs (yarn : nat -> bool) :
  let '(ended, ran, echoed) := installYarn yarn in
  (ran <= 3)%nat
  /\ (ended = GoesOn <-> exists n, (n < 3)%nat /\ yarn n = true)
  /\ (ended = Exit 1 <-> forall n, (n < 3)%nat -> yarn n = false)
  /\ (forall n, (n < ran)%nat -> (S n < ran)%nat -> yarn n = false)
  /\ (ended = GoesOn -> yarn (pred ran) = true)
  /\ echoed = (map YarnFailedTryingAgain (firstn (pred ran) [1; 2]%Z)
               ++ if yarn (pred ran) then [] else [YarnFailedTooManyTimes])%list.
Proof.
  unfold installYarn. cbn [yarnLoop Z.eqb Pos.eqb].
  destruct (yarn 0%nat) eqn:H0; [|destruct (yarn 1%nat) eqn:H1; [|destruct (yarn 2%nat) eqn:H2]];
    cbn [pred app firstn map]; rewrite ?H0, ?H1, ?H2.
  - split; [lia|]. split; [split; [intros _; exists 0%nat; split; [lia|exact H0]|reflexivity]|].
    split; [split; [discriminate|intros Hall; specialize (Hall 0%nat ltac:(lia)); congruence]|].
    split; [intros n Hn Hn'; lia|]. split; [intros _; reflexivity|reflexivity].
  - split; [lia|]. split; [split; [intros _; exists 1%nat; split; [lia|exact H1]|reflexivity]|].
    split; [split; [discriminate|intros Hall; specialize (Hall 1%nat ltac:(lia)); congruence]|].
    split; [intros [|n] Hn Hn'; [exact H0|lia]|]. split; [intros _; reflexivity|reflexivity].
  - split; [lia|]. split; [split; [intros _; exists 2%nat; split; [lia|exact H2]|reflexivity]|].
    split; [split; [discriminate|intros Hall; specialize (Hall 2%nat ltac:(lia)); congruence]|].
    split; [intros [|[|n]] Hn Hn'; [exact H0|exact H1|lia]|].
    split; [intros _; reflexivity|reflexivity].
  - split; [lia|]. split.
    { split; [discriminate|]. intros [[|[|[|n]]] [Hn Hyarn]]; [congruence..|lia]. }
    split; [split; [intros _ [|[|[|n]]] Hn; [assumption..|lia]|reflexivity]|].
    split; [intros [|[|n]] Hn Hn'; [exact H0|exact H1|lia]|].
    split; [discriminate|reflexivity].
Qed.

(** ** The sysroots *)

Lemma append_longer (s t : string) : t <> EmptyString -> (s ++ t)%string <> s.
Proof.
  intros Ht. induction s as [|c s IH]; simpl; [exact Ht|].
  intros [= H]. exact (IH H).
Qed.

(** The handlers of the stream: a promise is fulfilled with the result
    only, and then the stamp is written; from no stamp, the stamp is written
    exactly when the stream has ended; the first event settles the
    promise. *)
Lemma onEvents_settles (expectedName result : string) :
  forall events promise stamp,
    (forall p, promise = Fulfilled p -> p = result /\ stamp = Some expectedName) ->
    forall p, fst (onEvents events expectedName result promise stamp) = Fulfilled p ->
              p = result
              /\ snd (onEvents events expectedName result promise stamp) = Some expectedName.
Proof.
  induction events as [|[|e] events IH]; intros promise stamp Hinv p; cbn [onEvents].
  - exact (Hinv p).
  - apply IH. intros q. destruct promise; simpl; [intros [= <-]; auto|..].
    + intros Hq. destruct (Hinv q Hq). auto.
    + discriminate.
  - apply IH. intros q. destruct promise; simpl; [discriminate|..].
    + exact (Hinv q).
    + discriminate.
Qed.

Lemma onEvents_settled (expectedName result : string) :
  forall events promise stamp,
    promise <> Pending ->
    fst (onEvents events expectedName result promise stamp) = promise.
Proof.
  induction events as [|[|e] events IH]; intros promise stamp Hsettled; cbn [onEvents];
    [reflexivity|..]; (destruct promise; [contradiction|..]); simpl;
    rewrite IH; try reflexivity; discriminate.
Qed.

Lemma onEvents_stamp (expectedName result : string) :
  forall events promise stamp,
    snd (onEvents events expectedName result promise stamp)
    = if existsb isEnd events then Some expectedName
      else stamp.
Proof.
  induction events as [|[|e] events IH]; intros promise stamp; cbn [onEvents existsb isEnd orb];
    [reflexivity| |apply IH].
  rewrite IH. now destruct (existsb isEnd events).
Qed.

Section SysrootFacts.
Variable tmpdir : string.
Variable path_join : string -> string -> string.
Variable checksums : string.

#[local] Abbreviation getVSCodeSysroot' := (getVSCodeSysroot tmpdir path_join checksums).
#[local] Abbreviation sysrootOf arch :=
  (path_join tmpdir ("vscode-" ++ archString arch ++ "-sysroot")).

Lemma stamp_test (stamp : option string) (expectedName : string) :
  match stamp with
  | Some text => (text =? expectedName)%string
  | None => false
  end = true <-> stamp = Some expectedName.
Proof.
  destruct stamp as [text|]; [|split; discriminate].
  destruct (String.eqb_spec text expectedName) as [->|Hne]; split; congruence.
Qed.

(** A call of getVSCodeSysroot that installs the sysroot and is fulfilled
    leaves the stamp of the archive; a second call for the same
    architecture then requests nothing and leaves the directory as it is,
    and it is fulfilled with the directory itself, which is not the path the
    first call was fulfilled with: that one is the sysroot inside it. *)
Theorem getVSCodeSysroot_second_call (arch : DebianArchString)
    (events1 events2 : list StreamEvent) (w : VSCodeSysroot) (installed : string) :
  stamp w <> Some (expectedNameOf arch) ->
  fst (getVSCodeSysroot' arch events1 w) = Fulfilled installed ->
  installed = installedSysroot (sysrootOf arch) arch
  /\ stamp (snd (getVSCodeSysroot' arch events1 w)) = Some (expectedNameOf arch)
  /\ getVSCodeSysroot' arch events2 (snd (getVSCodeSysroot' arch events1 w))
     = (Fulfilled (sysrootOf arch), snd (getVSCodeSysroot' arch events1 w))
  /\ installed <> sysrootOf arch.
Proof.
  intros Hstamp Hfirst.
  assert (installed = installedSysroot (sysrootOf arch) arch
          /\ stamp (snd (getVSCodeSysroot' arch events1 w)) = Some (expectedNameOf arch)
          /\ exists c, truthy (getVSCodeSysrootChecksum checksums (expectedNameOf arch)) = Some c)
    as (Hinstalled & Hstamped & c & Hc).
  { revert Hfirst. unfold getVSCodeSysroot.
    destruct (truthy (getVSCodeSysrootChecksum checksums (expectedNameOf arch))) as [c|];
      [|discriminate].
    destruct (match stamp w with Some text => (text =? expectedNameOf arch)%string
              | None => false end) eqn:Htest;
      [apply stamp_test in Htest; contradiction|].
    pose proof (onEvents_settles (expectedNameOf arch)
                  (installedSysroot (sysrootOf arch) arch) events1 Pending None) as Hsettles.
    unfold installedSysroot in *.
    destruct (onEvents events1 _ _ Pending None) as [promise stamp1]. cbn [fst snd] in *.
    intros ->. destruct (Hsettles ltac:(discriminate) installed eq_refl) as [-> ->]. eauto. }
  split; [exact Hinstalled|]. split; [exact Hstamped|]. split.
  - unfold getVSCodeSysroot at 1. rewrite Hc.
    apply stamp_test in Hstamped. now rewrite Hstamped.
  - rewrite Hinstalled. apply append_longer. discriminate.
Qed.

(** A call that installs requests the archive once, with the checksum the
    file lists; the first event of the stream settles its promise, no event
    leaves it pending; and the stamp is written when the stream ends, also
    after an error that has rejected the promise. *)
Theorem getVSCodeSysroot_first_event (arch : DebianArchString)
    (events : list StreamEvent) (w : VSCodeSysroot) (checksumSha256 : string) :
  truthy (getVSCodeSysrootChecksum checksums (expectedNameOf arch)) = Some checksumSha256 ->
  stamp w <> Some (expectedNameOf arch) ->
  fst (getVSCodeSysroot' arch events w)
  = match events with
    | [] => Pending
    | StreamEnd :: _ => Fulfilled (installedSysroot (sysrootOf arch) arch)
    | StreamError e :: _ => Rejected e
    end
  /\ stamp (snd (getVSCodeSysroot' arch events w))
     = (if existsb isEnd events then Some (expectedNameOf arch) else None)
  /\ requested (snd (getVSCodeSysroot' arch events w))
     = (requested w ++ [(expectedNameOf arch, checksumSha256)])%list.
Proof.
  intros Hc Hstamp. unfold getVSCodeSysroot. rewrite Hc.
  destruct (match stamp w with Some text => (text =? expectedNameOf arch)%string
            | None => false end) eqn:Htest;
    [apply stamp_test in Htest; contradiction|].
  pose proof (onEvents_stamp (expectedNameOf arch) (installedSysroot (sysrootOf arch) arch)
                events Pending None) as Hstamped.
  assert (fst (onEvents events (expectedNameOf arch) (installedSysroot (sysrootOf arch) arch)
                 Pending None)
          = match events with
            | [] => Pending
            | StreamEnd :: _ => Fulfilled (installedSysroot (sysrootOf arch) arch)
            | StreamError e :: _ => Rejected e
            end) as Hpromise.
  { destruct events as [|[|e] events]; [reflexivity|..]; cbn [onEvents settle];
      apply onEvents_settled; discriminate. }
  unfold installedSysroot in *.
  destruct (onEvents events _ _ Pending None) as [promise stamp1]. cbn [fst snd] in *.
  subst. auto.
Qed.

End SysrootFacts.

(** The first call installs the amd64 sysroot below /tmp and the second
    call answers /tmp/vscode-amd64-sysroot. *)
Lemma getVSCodeSysroot_second_call_witness :
  fst (getVSCodeSysroot "/tmp" slashJoin oneChecksum amd64 [StreamEnd] noSysroot)
  = Fulfilled "/tmp/vscode-amd64-sysroot/x86_64-vscode-linux-gnu/x86_64-vscode-linux-gnu/sysroot"
  /\ fst (getVSCodeSysroot "/tmp" slashJoin oneChecksum amd64 []
            (snd (getVSCodeSysroot "/tmp" slashJoin oneChecksum amd64 [StreamEnd] noSysroot)))
     = Fulfilled "/tmp/vscode-amd64-sysroot".
Proof.
  destruct (getVSCodeSysroot_second_call "/tmp" slashJoin oneChecksum amd64 [StreamEnd] []
              noSysroot _ ltac:(discriminate) eq_refl) as (_ & _ & Hsecond & _).
  split; [reflexivity|]. now rewrite Hsecond.
Defined.

(** An error and then the end: the promise is rejected and the stamp is
    written. *)
Lemma getVSCodeSysroot_first_event_witness :
  fst (getVSCodeSysroot "/tmp" slashJoin oneChecksum amd64
         [StreamError "reset"; StreamEnd] noSysroot)
  = Rejected "reset"
  /\ stamp (snd (getVSCodeSysroot "/tmp" slashJoin oneChecksum amd64
                   [StreamError "reset"; StreamEnd] noSysroot))
     = Some "x86_64-vscode-linux-gnu.tar.gz".
Proof.
  destruct (getVSCodeSysroot_first_event "/tmp" slashJoin oneChecksum amd64
              [StreamError "reset"; StreamEnd] noSysroot "c0ffee" eq_refl
              ltac:(discriminate)) as (Hpromise & Hstamp & _).
  split; [exact Hpromise|exact Hstamp].
Defined.

(** *** getChromiumSysroot *)

Lemma getSha_digest (sha1hex : list Byte.byte -> string) (file : list Byte.byte) :
  getSha sha1hex (S (length file)) file = Some (sha1hex file).
Proof.
  unfold getSha.
  assert (length (Buffer_alloc (1024 * 1024)) = (1024 * 1024)%nat) as Hlength
    by apply repeat_length.
  destruct (readBlocks_reads (S (length file)) file (Buffer_alloc (1024 * 1024)) [] 0)
    as (buffer & hash & bytesRead & -> & Hhash); [lia|lia|].
  now rewrite Hhash.
Qed.

Section ChromiumFacts.
Variable tmpdir : string.
Variable path_join : string -> string -> string.
Variable sha1hex : list Byte.byte -> string.
Variable https_get : nat -> Download.

#[local] Abbreviation downloadLoop' := (downloadLoop https_get).
#[local] Abbreviation getChromiumSysroot' :=
  (getChromiumSysroot tmpdir path_join sha1hex https_get).

(** The loop of the downloads stops at the first download that ends, whose
    bytes are then the tarball, and after [turns] downloads otherwise. *)
Lemma downloadLoop_first : forall turns w,
  stampFile (snd (downloadLoop' turns w)) = stampFile w
  /\ tars (snd (downloadLoop' turns w)) = tars w
  /\ if fst (downloadLoop' turns w) then
       exists k,
         (k < turns)%nat
         /\ ended (https_get (gets w + k)) = true
         /\ (forall j, (j < k)%nat -> ended (https_get (gets w + j)) = false)
         /\ tarballFile (snd (downloadLoop' turns w))
            = Some (concat (chunks (https_get (gets w + k))))
         /\ gets (snd (downloadLoop' turns w)) = (gets w + k + 1)%nat
     else
       (forall j, (j < turns)%nat -> ended (https_get (gets w + j)) = false)
       /\ gets (snd (downloadLoop' turns w)) = (gets w + turns)%nat.
Proof.
  induction turns as [|turns IH]; intros w; cbn [downloadLoop fst snd].
  - split; [reflexivity|]. split; [reflexivity|]. split; [intros j Hj; lia|lia].
  - destruct (ended (https_get (gets w))) eqn:Hended; cbn [fst snd stampFile tars].
    + split; [reflexivity|]. split; [reflexivity|]. exists 0%nat.
      rewrite Nat.add_0_r. cbn [tarballFile gets].
      split; [lia|]. split; [exact Hended|]. split; [intros j Hj; lia|].
      split; [reflexivity|lia].
    + set (w1 := {| stampFile := stampFile w;
                    tarballFile := Some (concat (chunks (https_get (gets w))));
                    gets := S (gets w); tars := tars w |}).
      destruct (IH w1) as (Hstamp & Htars & Hloop). rewrite Hstamp, Htars.
      split; [reflexivity|]. split; [reflexivity|].
      destruct (fst (downloadLoop' turns w1)).
      * destruct Hloop as (k & Hk & Hend & Hbefore & Htarball & Hgets).
        cbn [gets w1] in *. exists (S k).
        replace (gets w + S k)%nat with (S (gets w) + k)%nat by lia.
        split; [lia|]. split; [exact Hend|]. split; [|split; [exact Htarball|lia]].
        intros [|j] Hj; [now rewrite Nat.add_0_r|].
        replace (gets w + S j)%nat with (S (gets w) + j)%nat by lia. apply Hbefore. lia.
      * destruct Hloop as [Hnone Hgets]. cbn [gets w1] in *. split; [|lia].
        intros [|j] Hj; [now rewrite Nat.add_0_r|].
        replace (gets w + S j)%nat with (S (gets w) + j)%nat by lia. apply Hnone. lia.
Qed.

(** When getChromiumSysroot returns, it returns the directory of the entry
    of the architecture, and the stamp holds the URL of the tarball.  Either
    the stamp held it before, and nothing was downloaded or changed; or one
    of three downloads at most has ended, the bytes of that download, and
    of no download before it, have the SHA-1 digest the entry names, tar has
    run once and was not reported to fail (a status that is null counts as
    success), and the tarball is removed. *)
Theorem getChromiumSysroot_returns_verified (arch : DebianArchString)
    (curl : option Z * string) (sysrootInfo : string -> option SysrootDictEntry)
    (tar : option Z) (w w' : ChromiumSysroot) (result : string) :
  getChromiumSysroot' arch curl sysrootInfo tar w = Some (inl result, w') ->
  exists entry,
    sysrootInfo (sysrootArchOf arch) = Some entry
    /\ fst curl = Some 0%Z
    /\ result = path_join tmpdir (SysrootDir entry)
    /\ stampFile w' = Some (tarballUrl entry)
    /\ (stampFile w = Some (tarballUrl entry) /\ w' = w
        \/ stampFile w <> Some (tarballUrl entry)
           /\ exists k,
                (k < 3)%nat
                /\ ended (https_get (gets w + k)) = true
                /\ (forall j, (j < k)%nat -> ended (https_get (gets w + j)) = false)
                /\ sha1hex (concat (chunks (https_get (gets w + k)))) = Sha1Sum entry
                /\ gets w' = (gets w + k + 1)%nat
                /\ tars w' = S (tars w)
                /\ tarballFile w' = None
                /\ (tar = None \/ tar = Some 0%Z)).
Proof.
  unfold getChromiumSysroot.
  destruct curl as [[[|status|status]|] stderr]; cbn [fst snd]; try discriminate.
  replace (match arch with armhf => "bullseye_arm" | _ => "bullseye_" ++ archString arch end)
    with (sysrootArchOf arch) by now destruct arch.
  destruct (sysrootInfo (sysrootArchOf arch)) as [entry|]; [|discriminate].
  fold (tarballUrl entry).
  destruct (match stampFile w with Some text => (text =? tarballUrl entry)%string
            | None => false end) eqn:Htest.
  - apply stamp_test in Htest. intros [= <- <-]. exists entry.
    repeat (split; [reflexivity || assumption|]). now left.
  - assert (stampFile w <> Some (tarballUrl entry)) as Hstamp
      by (intros H; apply stamp_test in H; congruence).
    set (w0 := {| stampFile := None; tarballFile := None; gets := gets w; tars := tars w |}).
    destruct (downloadLoop_first 3 w0) as (Hstamp1 & Htars1 & Hloop).
    destruct (downloadLoop' 3 w0) as [[|] w1]; cbn [fst snd negb] in *; [|discriminate].
    destruct Hloop as (k & Hk & Hend & Hbefore & Htarball & Hgets). cbn [gets w0] in *.
    rewrite Htarball.
    rewrite (getSha_digest sha1hex (concat (chunks (https_get (gets w + k))))).
    destruct (String.eqb_spec (sha1hex (concat (chunks (https_get (gets w + k)))))
                (Sha1Sum entry)) as [Hsha|Hsha]; cbn [negb]; [|discriminate].
    assert (forall w2, (inl (path_join tmpdir (SysrootDir entry)),
                        {| stampFile := Some (tarballUrl entry); tarballFile := None;
                           gets := gets w1; tars := S (tars w1) |})
                       = (@inl string SysrootError result, w2) ->
            tar = None \/ tar = Some 0%Z ->
            exists entry0,
              Some entry = Some entry0
              /\ Some 0%Z = Some 0%Z
              /\ result = path_join tmpdir (SysrootDir entry0)
              /\ stampFile w2 = Some (tarballUrl entry0)
              /\ (stampFile w = Some (tarballUrl entry0) /\ w2 = w
                  \/ stampFile w <> Some (tarballUrl entry0)
                     /\ exists k0,
                          (k0 < 3)%nat
                          /\ ended (https_get (gets w + k0)) = true
                          /\ (forall j, (j < k0)%nat ->
                                        ended (https_get (gets w + j)) = false)
                          /\ sha1hex (concat (chunks (https_get (gets w + k0))))
                             = Sha1Sum entry0
                          /\ gets w2 = (gets w + k0 + 1)%nat
                          /\ tars w2 = S (tars w)
                          /\ tarballFile w2 = None
                          /\ (tar = None \/ tar = Some 0%Z))) as Hdone.
    { intros w2 [= <- <-] Htar. exists entry. cbn [stampFile gets tars tarballFile].
      repeat (split; [reflexivity|]). right. split; [exact Hstamp|]. exists k.
      rewrite Htars1. cbn [tars w0]. repeat (split; [assumption || reflexivity|]).
      exact Htar. }
    destruct tar as [status|]; cbn [stampFile tarballFile gets tars].
    + destruct (Z.eqb_spec status 0) as [->|Hne]; [|discriminate].
      intros [= Hresult Hw]. apply Hdone; [congruence|now right].
    + intros [= Hresult Hw]. apply Hdone; [congruence|now left].
Qed.

(** When getChromiumSysroot throws before the stamp is read, nothing has
    changed; when it throws later, the directory has no stamp: after three
    downloads that did not end the tarball is removed, while a tarball with
    a wrong digest and a tarball tar failed on stay in the directory. *)
Theorem getChromiumSysroot_throws_unstamped (arch : DebianArchString)
    (curl : option Z * string) (sysrootInfo : string -> option SysrootDictEntry)
    (tar : option Z) (w w' : ChromiumSysroot) (e : SysrootError) :
  getChromiumSysroot' arch curl sysrootInfo tar w = Some (inr e, w') ->
  match e with
  | CannotRetrieve stderr => w' = w /\ fst curl <> Some 0%Z /\ stderr = snd curl
  | NoEntry => w' = w /\ sysrootInfo (sysrootArchOf arch) = None
  | NoTarball => False
  | FailedToDownload url =>
      stampFile w' = None /\ tarballFile w' = None
      /\ gets w' = (gets w + 3)%nat /\ tars w' = tars w
      /\ forall j, (j < 3)%nat -> ended (https_get (gets w + j)) = false
  | WrongSha1sum expected actual =>
      stampFile w' = None /\ tars w' = tars w
      /\ actual <> expected
      /\ exists file, tarballFile w' = Some file /\ actual = sha1hex file
  | ExtractionFailed status =>
      stampFile w' = None /\ tars w' = S (tars w)
      /\ status <> 0%Z /\ tar = Some status
      /\ exists file, tarballFile w' = Some file
  end.
Proof.
  unfold getChromiumSysroot.
  destruct curl as [[[|status|status]|] stderr]; cbn [fst snd];
    try (intros [= <- <-]; split; [reflexivity|]; split; [discriminate|reflexivity]).
  replace (match arch with armhf => "bullseye_arm" | _ => "bullseye_" ++ archString arch end)
    with (sysrootArchOf arch) by now destruct arch.
  destruct (sysrootInfo (sysrootArchOf arch)) as [entry|];
    [|intros [= <- <-]; split; reflexivity].
  fold (tarballUrl entry).
  destruct (match stampFile w with Some text => (text =? tarballUrl entry)%string
            | None => false end); [discriminate|].
  set (w0 := {| stampFile := None; tarballFile := None; gets := gets w; tars := tars w |}).
  destruct (downloadLoop_first 3 w0) as (Hstamp1 & Htars1 & Hloop).
  destruct (downloadLoop' 3 w0) as [[|] w1]; cbn [fst snd negb] in *.
  - destruct Hloop as (k & Hk & Hend & Hbefore & Htarball & Hgets). cbn [gets w0] in *.
    rewrite Htarball.
    rewrite (getSha_digest sha1hex (concat (chunks (https_get (gets w + k))))).
    destruct (String.eqb_spec (sha1hex (concat (chunks (https_get (gets w + k)))))
                (Sha1Sum entry)) as [Hsha|Hsha]; cbn [negb].
    + destruct tar as [status|]; [destruct (Z.eqb_spec status 0) as [->|Hne]|];
        try discriminate.
      intros [= <- <-]. cbn [stampFile tars tarballFile].
      split; [exact Hstamp1|]. split; [now rewrite Htars1|]. split; [exact Hne|].
      split; [reflexivity|eauto].
    + intros [= <- <-].
      split; [exact Hstamp1|]. split; [exact Htars1|]. split; [exact Hsha|eauto].
  - destruct Hloop as [Hnone Hgets]. cbn [gets w0] in *.
    intros [= <- <-]. cbn [stampFile tars tarballFile gets].
    split; [exact Hstamp1|]. split; [reflexivity|]. split; [exact Hgets|].
    split; [exact Htars1|exact Hnone].
Qed.

End ChromiumFacts.

(** The first download breaks, the second brings the two bytes of the
    entry: the directory is stamped after two downloads and one run of
    tar. *)
Lemma getChromiumSysroot_returns_verified_witness :
  getChromiumSysroot "/tmp" slashJoin lengthDigest brokenOnce amd64
    (Some 0%Z, "") (fun _ => Some oneEntry) None noChromiumSysroot
  = Some (inl "/tmp/debian_bullseye_amd64-sysroot",
          {| stampFile := Some (tarballUrl oneEntry); tarballFile := None;
             gets := 2; tars := 1 |})
  /\ exists k,
       (k < 3)%nat
       /\ ended (brokenOnce (0 + k)) = true
       /\ lengthDigest (concat (chunks (brokenOnce (0 + k)))) = "2".
Proof.
  assert (getChromiumSysroot "/tmp" slashJoin lengthDigest brokenOnce amd64
            (Some 0%Z, "") (fun _ => Some oneEntry) None noChromiumSysroot
          = Some (inl "/tmp/debian_bullseye_amd64-sysroot",
                  {| stampFile := Some (tarballUrl oneEntry); tarballFile := None;
                     gets := 2; tars := 1 |})) as Hrun by (vm_compute; reflexivity).
  split; [exact Hrun|].
  destruct (getChromiumSysroot_returns_verified _ _ _ _ _ _ _ _ _ _ _ Hrun)
    as (entry & Hentry & _ & _ & _ & [[Hstamp _]|(_ & k & Hk & Hended & _ & Hsha & _)]);
    [discriminate|].
  injection Hentry as <-. exists k. split; [exact Hk|]. split; [exact Hended|exact Hsha].
Defined.

(** Three downloads that break: the call throws, and the directory is left
    without a stamp and without the tarball. *)
Lemma getChromiumSysroot_throws_unstamped_witness :
  getChromiumSysroot "/tmp" slashJoin lengthDigest alwaysBroken amd64
    (Some 0%Z, "") (fun _ => Some oneEntry) None noChromiumSysroot
  = Some (inr (FailedToDownload (tarballUrl oneEntry)),
          {| stampFile := None; tarballFile := None; gets := 3; tars := 0 |})
  /\ forall j, (j < 3)%nat -> ended (alwaysBroken (0 + j)) = false.
Proof.
  assert (getChromiumSysroot "/tmp" slashJoin lengthDigest alwaysBroken amd64
            (Some 0%Z, "") (fun _ => Some oneEntry) None noChromiumSysroot
          = Some (inr (FailedToDownload (tarballUrl oneEntry)),
                  {| stampFile := None; tarballFile := None; gets := 3; tars := 0 |}))
    as Hrun by reflexivity.
  split; [exact Hrun|].
  exact (proj2 (proj2 (proj2 (proj2
           (getChromiumSysroot_throws_unstamped _ _ _ _ _ _ _ _ _ _ _ Hrun))))).
Defined.

(** *** The file of the checksums *)

Lemma splitSpaces_spaceless (afterSpace : bool) (s : string) :
  spaceless s = true -> splitSpaces afterSpace s = [s].
Proof.
  revert afterSpace. induction s as [|c s IH]; intros afterSpace Hs; [reflexivity|].
  simpl in Hs. apply andb_true_iff in Hs as [Hc Hs]. apply negb_true_iff in Hc.
  cbn [splitSpaces]. now rewrite Hc, (IH false Hs).
Qed.

Lemma splitSpaces_line (checksum name : string) :
  spaceless checksum = true -> spaceless name = true ->
  splitSpaces false (checksumLine (checksum, name)) = [checksum; name].
Proof.
  unfold checksumLine. cbn [fst snd]. intros Hchecksum Hname.
  induction checksum as [|c checksum IH].
  - simpl. now rewrite (splitSpaces_spaceless true name Hname).
  - simpl in Hchecksum. apply andb_true_iff in Hchecksum as [Hc Hchecksum].
    apply negb_true_iff in Hc.
    change (String c checksum ++ "  " ++ name)%string
      with (String c (checksum ++ "  " ++ name)).
    cbn [splitSpaces]. now rewrite Hc, (IH Hchecksum).
Qed.

Lemma spaceless_oneLine (s : string) : spaceless s = true -> oneLine s = true.
Proof.
  induction s as [|c s IH]; [reflexivity|]. simpl. intros Hs.
  apply andb_true_iff in Hs as [Hc Hs]. rewrite (IH Hs), andb_true_r.
  destruct (Ascii.eqb_spec c (ascii_of_nat 10)) as [->|]; [discriminate|reflexivity].
Qed.

Lemma oneLine_app (s t : string) : oneLine (s ++ t) = oneLine s && oneLine t.
Proof. induction s as [|c s IH]; [reflexivity|]. simpl. now rewrite IH, andb_assoc. Qed.

Lemma split_oneLine (line rest : string) :
  oneLine line = true ->
  split (ascii_of_nat 10) line = [line]
  /\ split (ascii_of_nat 10) (line ++ String (ascii_of_nat 10) rest)
     = line :: split (ascii_of_nat 10) rest.
Proof.
  induction line as [|c line IH]; intros Hline.
  - split; [reflexivity|]. simpl. reflexivity.
  - simpl in Hline. apply andb_true_iff in Hline as [Hc Hline]. apply negb_true_iff in Hc.
    destruct (IH Hline) as [IH1 IH2].
    change (String c line ++ String (ascii_of_nat 10) rest)%string
      with (String c (line ++ String (ascii_of_nat 10) rest)).
    cbn [split]. now rewrite Hc, IH1, IH2.
Qed.

(** On a file that lists checksums and names one pair a line, each without
    white space and two spaces between them, getVSCodeSysrootChecksum is the
    lookup of the name: it returns the checksum of the first line with the
    name, and nothing when no line has it. *)
Theorem getVSCodeSysrootChecksum_lookup (entries : list (string * string)) (name : string) :
  (forall entry, In entry entries ->
                 spaceless (fst entry) = true /\ spaceless (snd entry) = true) ->
  getVSCodeSysrootChecksum (checksumsText entries) name = checksumOf entries name.
Proof.
  unfold getVSCodeSysrootChecksum, checksumsText.
  induction entries as [|[checksum name'] entries IH]; intros Hentries; [reflexivity|].
  destruct (Hentries (checksum, name') ltac:(now left)) as [Hchecksum Hname].
  cbn [fst snd] in *.
  assert (oneLine (checksumLine (checksum, name')) = true) as Hline.
  { unfold checksumLine. cbn [fst snd].
    now rewrite !oneLine_app, (spaceless_oneLine _ Hchecksum), (spaceless_oneLine _ Hname). }
  assert (forall lines,
             findChecksum (checksumLine (checksum, name') :: lines) name
             = if (name' =? name)%string then Some checksum else findChecksum lines name)
    as Hfind.
  { intros lines. cbn [findChecksum]. now rewrite (splitSpaces_line _ _ Hchecksum Hname). }
  destruct entries as [|entry entries].
  - cbn [map String.concat checksumOf].
    rewrite (proj1 (split_oneLine _ EmptyString Hline)), Hfind.
    now destruct (name' =? name)%string.
  - change (String.concat (String (ascii_of_nat 10) EmptyString)
              (map checksumLine ((checksum, name') :: entry :: entries)))
      with (checksumLine (checksum, name')
            ++ String (ascii_of_nat 10)
                 (String.concat (String (ascii_of_nat 10) EmptyString)
                    (map checksumLine (entry :: entries))))%string.
    rewrite (proj2 (split_oneLine _ _ Hline)), Hfind. cbn [checksumOf].
    destruct (name' =? name)%string; [reflexivity|].
    apply IH. intros e He. apply Hentries. now right.
Qed.

(** The checksum of the arm64 sysroot in a file of two lines. *)
Lemma getVSCodeSysrootChecksum_lookup_witness :
  getVSCodeSysrootChecksum
    (checksumsText [("c0ffee", "x86_64-vscode-linux-gnu.tar.gz");
                    ("decade", "aarch64-vscode-linux-gnu.tar.gz")])
    "aarch64-vscode-linux-gnu.tar.gz"
  = Some "decade".
Proof.
  apply (getVSCodeSysrootChecksum_lookup
           [("c0ffee", "x86_64-vscode-linux-gnu.tar.gz");
            ("decade", "aarch64-vscode-linux-gnu.tar.gz")]
           "aarch64-vscode-linux-gnu.tar.gz").
  intros entry [<-|[<-|[]]]; split; reflexivity.
Defined.
